(** * Knowledge & Workflow Engine: template engine, expression engine,
      workflow validator and workflow executor

    A shallow embedding of the TypeScript sources
      - utils/templateEngine.ts      (modules [TemplateEngine] and
                                      [TemplateVariables])
      - utils/expressionEngine.ts    (module [ExpressionEngine])
      - utils/cache.ts               (module [Cache])
      - workflows/workflowValidator.ts (module [WorkflowValidator])
      - models/workflowExecution.ts  (module [WorkflowExecution])
      - workflows/stepRegistry.ts    (module [StepRegistry])
      - workflows/workflowExecutor.ts (module [WorkflowExecutor])
      - workflows/handlers/conditionStepHandler.ts
                                     (module [ConditionStepHandler])
      - workflows/workflowBuilder.ts (module [WorkflowBuilder])
    together with the part of the JavaScript runtime these files rely on
    (module [Js]).

    Conventions of the embedding.
      - A JavaScript string is a [string]: a sequence of code units, here
        restricted to the range U+0000..U+00FF.
      - A JavaScript number is an element of the carrier of [JsNumber]; the
        primitive operations on numbers (comparison, addition, conversion to
        and from text) are the fields of that class.
      - Data (input payloads, step parameters, step outputs) are [value]s:
        undefined, null, booleans, numbers, strings, arrays and plain objects.
        Arrays and objects carry the identity of the heap object ([ref]),
        which is what [===] compares.  Property lookup on an object sees its
        own data properties, in enumeration order; members inherited from
        [Object.prototype] and [Array.prototype] (functions) are outside the
        value model.
      - A function that may throw returns a [Result]; [try]/[catch] is a
        match on it.
      - Loops whose bound is not structural take a fuel argument; for each of
        them a lemma shows that the fuel supplied by the caller is enough. *)

From Stdlib Require Import Ascii String ZArith Lia.
From stdpp Require Import gmap strings list.

Set Warnings "-register-all".

(** ** The JavaScript runtime *)

Module Js.

(** Results of computations that may throw. *)
Inductive Result (E A : Type) : Type :=
| Ok (a : A)
| Throw (e : E).
Arguments Ok {E A} a.
Arguments Throw {E A} e.

Definition isOk {E A} (r : Result E A) : bool :=
  match r with Ok _ => true | Throw _ => false end.

(** The double quote, [U+0022]. *)
Definition dquote : ascii := "034"%char.
Definition squote : ascii := "'"%char.

(** [WhiteSpace] and [LineTerminator] code units below U+0100: the characters
    removed by [String.prototype.trim] and skipped by [parseInt]. *)
Definition isWhiteSpace (c : ascii) : bool :=
  let n := nat_of_ascii c in
  (n =? 9)%nat || (n =? 10)%nat || (n =? 11)%nat || (n =? 12)%nat ||
  (n =? 13)%nat || (n =? 32)%nat || (n =? 160)%nat.

Fixpoint trimStart (s : string) : string :=
  match s with
  | EmptyString => EmptyString
  | String c s' => if isWhiteSpace c then trimStart s' else s
  end.

Fixpoint trimEnd (s : string) : string :=
  match s with
  | EmptyString => EmptyString
  | String c s' =>
      match trimEnd s' with
      | EmptyString => if isWhiteSpace c then EmptyString else String c EmptyString
      | t => String c t
      end
  end.

(** [s.trim()] *)
Definition trim (s : string) : string := trimEnd (trimStart s).

(** [s === ''] is the only falsy string. *)
Definition nonEmpty (s : string) : bool :=
  match s with EmptyString => false | String _ _ => true end.

(** [s.startsWith(p)] *)
Fixpoint startsWith (s p : string) : bool :=
  match p, s with
  | EmptyString, _ => true
  | String _ _, EmptyString => false
  | String a p', String b s' => Ascii.eqb a b && startsWith s' p'
  end.

(** [s.includes(p)] *)
Fixpoint includes (s p : string) : bool :=
  startsWith s p ||
  match s with
  | EmptyString => false
  | String _ s' => includes s' p
  end.

(** [s.endsWith(p)] *)
Definition endsWith (s p : string) : bool :=
  let n := String.length s in
  let k := String.length p in
  (k <=? n)%nat && String.eqb (String.substring (n - k) k s) p.

(** [xs.join(sep)] on an array of strings. *)
Fixpoint join (sep : string) (xs : list string) : string :=
  match xs with
  | [] => EmptyString
  | [x] => x
  | x :: rest => x +:+ sep +:+ join sep rest
  end.

(** Decimal digits. *)
Definition isDigit (c : ascii) : bool :=
  let n := nat_of_ascii c in (48 <=? n)%nat && (n <=? 57)%nat.

Definition digitValue (c : ascii) : Z := Z.of_nat (nat_of_ascii c - 48).

(** The value of the longest prefix of decimal digits of [s]; [acc] is [None]
    as long as no digit has been read. *)
Fixpoint parseDigits (s : string) (acc : option Z) : option Z :=
  match s with
  | EmptyString => acc
  | String c s' =>
      if isDigit c
      then parseDigits s' (Some (10 * default 0%Z acc + digitValue c)%Z)
      else acc
  end.

(** [parseInt(s, 10)]; [None] is [NaN].  The result is used as an array index
    only, for which the exact integer and its nearest double select the same
    element. *)
Definition parseInt (s : string) : option Z :=
  match trimStart s with
  | String c s' =>
      if Ascii.eqb c "-" then Z.opp <$> parseDigits s' None
      else if Ascii.eqb c "+" then parseDigits s' None
      else parseDigits (String c s') None
  | EmptyString => None
  end.

(** [String(n)] for a non-negative integer [n]. *)
Fixpoint natToStringAux (fuel n : nat) (acc : string) : string :=
  match fuel with
  | O => acc
  | S fuel' =>
      let d := ascii_of_nat (48 + n mod 10) in
      let acc' := String d acc in
      match (n / 10)%nat with
      | O => acc'
      | q => natToStringAux fuel' q acc'
      end
  end.

Definition natToString (n : nat) : string := natToStringAux (S n) n EmptyString.

Definition intToString (z : Z) : string :=
  match z with
  | Z0 => "0"
  | Zpos _ => natToString (Z.to_nat z)
  | Zneg _ => "-" +:+ natToString (Z.to_nat (Z.opp z))
  end.

(** The primitive operations of the [Number] type. *)
Class JsNumber := {
  number : Type;
  num_of_Z : Z -> number;
  num_add : number -> number -> number;          (* a + b *)
  num_eqb : number -> number -> bool;            (* a === b *)
  num_ltb : number -> number -> bool;            (* a < b *)
  num_leb : number -> number -> bool;            (* a <= b *)
  num_truthy : number -> bool;                   (* !!a *)
  num_to_string : number -> string;              (* String(a) *)
  num_to_json : number -> string;                (* JSON.stringify(a) *)
  parseFloat : string -> number                  (* parseFloat(s) *)
}.

Section Values.
Context `{JsNumber}.

(** Values.  [ref] is the identity of an array or object. *)
Inductive value : Type :=
| VUndefined
| VNull
| VBool (b : bool)
| VNum (n : number)
| VStr (s : string)
| VArr (ref : nat) (items : list value)
| VObj (ref : nat) (props : list (string * value)).

(** [typeof v === 'object'] *)
Definition typeofObject (v : value) : bool :=
  match v with
  | VNull | VArr _ _ | VObj _ _ => true
  | _ => false
  end.

(** [Array.isArray(v)] *)
Definition isArray (v : value) : bool :=
  match v with VArr _ _ => true | _ => false end.

(** [!!v] *)
Definition truthy (v : value) : bool :=
  match v with
  | VUndefined | VNull => false
  | VBool b => b
  | VNum n => num_truthy n
  | VStr s => nonEmpty s
  | VArr _ _ | VObj _ _ => true
  end.

(** [a === b]: same type and same value; arrays and objects by identity. *)
Definition strictEquals (a b : value) : bool :=
  match a, b with
  | VUndefined, VUndefined => true
  | VNull, VNull => true
  | VBool x, VBool y => Bool.eqb x y
  | VNum x, VNum y => num_eqb x y
  | VStr x, VStr y => String.eqb x y
  | VArr r1 _, VArr r2 _ => (r1 =? r2)%nat
  | VObj r1 _, VObj r2 _ => (r1 =? r2)%nat
  | _, _ => false
  end.

(** The type of a value, as strict equality distinguishes it. *)
Inductive JsType : Type :=
| TUndefined | TNull | TBoolean | TNumber | TString | TObject.

Definition typeOf (v : value) : JsType :=
  match v with
  | VUndefined => TUndefined
  | VNull => TNull
  | VBool _ => TBoolean
  | VNum _ => TNumber
  | VStr _ => TString
  | VArr _ _ | VObj _ _ => TObject
  end.

(** [typeof v === 'number'] *)
Definition isNumber (v : value) : bool :=
  match v with VNum _ => true | _ => false end.

(** Own property lookup in a property list. *)
Fixpoint lookupProp (name : string) (props : list (string * value)) : option value :=
  match props with
  | [] => None
  | (k, v) :: rest => if String.eqb k name then Some v else lookupProp name rest
  end.

(** [o[name] = v] on a property list: an existing property keeps its place. *)
Fixpoint setProp (name : string) (v : value) (props : list (string * value))
  : list (string * value) :=
  match props with
  | [] => [(name, v)]
  | (k, w) :: rest =>
      if String.eqb k name then (k, v) :: rest else (k, w) :: setProp name v rest
  end.

(** A canonical array index: ["0"] or digits without a leading zero. *)
Definition arrayIndexOfName (name : string) : option nat :=
  match name with
  | EmptyString => None
  | String c rest =>
      if forallb isDigit (list_ascii_of_string name)
         && (negb (Ascii.eqb c "0") || negb (nonEmpty rest))
      then Z.to_nat <$> parseDigits name None
      else None
  end.

(** [a[k]] for an integer [k]: out of range and negative give [undefined]. *)
Definition getIndex (items : list value) (k : Z) : value :=
  if (k <? 0)%Z then VUndefined else default VUndefined (items !! Z.to_nat k).

(** [v[name]] for a value with [typeof v === 'object'] that is not null. *)
Definition getProperty (v : value) (name : string) : value :=
  match v with
  | VObj _ props => default VUndefined (lookupProp name props)
  | VArr _ items =>
      if String.eqb name "length" then VNum (num_of_Z (Z.of_nat (length items)))
      else match arrayIndexOfName name with
           | Some i => default VUndefined (items !! i)
           | None => VUndefined
           end
  | _ => VUndefined
  end.

(** [JSON.stringify]: escaping of one code unit inside a string literal. *)
Definition hexDigit (n : nat) : ascii :=
  if (n <? 10)%nat then ascii_of_nat (48 + n) else ascii_of_nat (87 + n).

Definition jsonEscapeChar (c : ascii) : string :=
  let n := nat_of_ascii c in
  if (n =? 34)%nat then String "\"%char (String dquote EmptyString)
  else if (n =? 92)%nat then "\\"
  else if (n =? 8)%nat then "\b"
  else if (n =? 12)%nat then "\f"
  else if (n =? 10)%nat then "\n"
  else if (n =? 13)%nat then "\r"
  else if (n =? 9)%nat then "\t"
  else if (n <? 32)%nat
       then "\u00" +:+ String (hexDigit (n / 16)) (String (hexDigit (n mod 16)) EmptyString)
  else String c EmptyString.

Fixpoint jsonEscape (s : string) : string :=
  match s with
  | EmptyString => EmptyString
  | String c s' => jsonEscapeChar c +:+ jsonEscape s'
  end.

Definition jsonQuote (s : string) : string :=
  String dquote (jsonEscape s +:+ String dquote EmptyString).

(** [JSON.stringify(v)]: [None] is the result [undefined].  Inside an array
    [undefined] is written [null]; inside an object a property whose value is
    [undefined] is skipped. *)
Fixpoint jsonStringify (v : value) : option string :=
  match v with
  | VUndefined => None
  | VNull => Some "null"
  | VBool true => Some "true"
  | VBool false => Some "false"
  | VNum n => Some (num_to_json n)
  | VStr s => Some (jsonQuote s)
  | VArr _ items =>
      Some ("[" +:+ join "," (map (fun x => default "null" (jsonStringify x)) items) +:+ "]")
  | VObj _ props =>
      let member (kv : string * value) : list string :=
        match jsonStringify kv.2 with
        | Some t => [jsonQuote kv.1 +:+ ":" +:+ t]
        | None => []
        end in
      Some ("{" +:+ join "," (concat (map member props)) +:+ "}")
  end.

End Values.

End Js.

(** ** utils/templateEngine.ts *)

Module TemplateEngine.
Import Js.

Section WithNumbers.
Context `{JsNumber}.

(** [interface TemplateContext]: three records, [input], [steps] and
    [context]; each is given by its properties and the identity of the
    object.  An entry of [steps] is a [StepOutput] object. *)
Record TemplateContext : Type := {
  ctx_ref : nat;
  input_ref : nat;
  input : list (string * value);
  steps_ref : nat;
  steps : list (string * value);
  context_ref : nat;
  context : list (string * value)
}.

(** The context object as a value, as [resolvePath] walks it. *)
Definition contextValue (c : TemplateContext) : value :=
  VObj (ctx_ref c)
    [("input", VObj (input_ref c) (input c));
     ("steps", VObj (steps_ref c) (steps c));
     ("context", VObj (context_ref c) (context c))].

(** [{ type: 'property'; name } | { type: 'index'; index }] *)
Inductive PathPart : Type :=
| Property (name : string)
| Index (index : Z).

(** [if (current) parts.push({ type: 'property', name: current })] *)
Definition flush (current : string) : list PathPart :=
  if nonEmpty current then [Property current] else [].

(** [path.indexOf(']', i)] on the text that follows the bracket at [i]:
    the text before the first closing bracket and the text after it. *)
Fixpoint splitAtClosingBracket (s : string) : option (string * string) :=
  match s with
  | EmptyString => None
  | String c s' =>
      if Ascii.eqb c "]" then Some (EmptyString, s')
      else match splitAtClosingBracket s' with
           | Some (a, b) => Some (String c a, b)
           | None => None
           end
  end.

(** The [while (i < path.length)] loop of [parsePath]; [rest] is
    [path.substring(i)].  One unit of fuel per iteration: [String.length rest]
    is enough, and with no fuel left [rest] is empty. *)
Fixpoint parsePathLoop (fuel : nat) (path rest current : string)
    (parts : list PathPart) : Result string (list PathPart) :=
  match fuel, rest with
  | S fuel', String char rest' =>
      if Ascii.eqb char "." then
        parsePathLoop fuel' path rest' EmptyString (parts ++ flush current)
      else if Ascii.eqb char "[" then
        match splitAtClosingBracket rest' with
        | None => Throw ("Missing closing bracket in path: " +:+ path)
        | Some (indexStr, after) =>
            match parseInt indexStr with
            | None => Throw ("Invalid array index: " +:+ indexStr)
            | Some index =>
                parsePathLoop fuel' path after EmptyString
                  ((parts ++ flush current) ++ [Index index])
            end
        end
      else
        parsePathLoop fuel' path rest' (current +:+ String char EmptyString) parts
  | _, _ => Ok (parts ++ flush current)
  end.

Definition parsePath (path : string) : Result string (list PathPart) :=
  parsePathLoop (String.length path) path path EmptyString [].

(** One iteration of the [for (const part of parts)] loop of [resolvePath]. *)
Definition resolvePart (current : value) (part : PathPart) : Result string value :=
  match current with
  | VNull => Throw "Cannot access property '[object Object]' of null"
  | VUndefined => Throw "Cannot access property '[object Object]' of undefined"
  | _ =>
      if negb (typeofObject current) then
        Throw "Cannot access property '[object Object]' of non-object"
      else
        match part with
        | Property name => Ok (getProperty current name)
        | Index index =>
            match current with
            | VArr _ items => Ok (getIndex items index)
            | _ => Throw "Cannot use array index on non-array"
            end
        end
  end.

Fixpoint resolveParts (parts : list PathPart) (current : value) : Result string value :=
  match parts with
  | [] => Ok current
  | part :: parts' =>
      match resolvePart current part with
      | Ok next => resolveParts parts' next
      | Throw e => Throw e
      end
  end.

Definition resolvePath (path : string) (c : TemplateContext) : Result string value :=
  match parsePath path with
  | Ok parts => resolveParts parts (contextValue c)
  | Throw e => Throw e
  end.

Definition formatValue (v : value) : string :=
  match v with
  | VNull | VUndefined => EmptyString
  | VStr s => s
  | VNum n => num_to_string n
  | VBool true => "true"
  | VBool false => "false"
  | VArr _ _ | VObj _ _ => default "undefined" (jsonStringify v)
  end.

(** The pattern [/\{\{([^}]+)\}\}/] tried at the start of [s]: the captured
    group and the text after the match.  [[^}]+] takes the longest run of
    characters other than the closing brace; giving characters back cannot
    make the rest of the pattern match. *)
Fixpoint spanNotClosingBrace (s : string) : string * string :=
  match s with
  | EmptyString => (EmptyString, EmptyString)
  | String c s' =>
      if Ascii.eqb c "}" then (EmptyString, s)
      else let '(a, b) := spanNotClosingBrace s' in (String c a, b)
  end.

Definition matchPlaceholder (s : string) : option (string * string) :=
  match s with
  | String c1 (String c2 s1) =>
      if Ascii.eqb c1 "{" && Ascii.eqb c2 "{" then
        match spanNotClosingBrace s1 with
        | (String c inner, String d1 (String d2 rest)) =>
            if Ascii.eqb d1 "}" && Ascii.eqb d2 "}"
            then Some (String c inner, rest) else None
        | _ => None
        end
      else None
  | _ => None
  end.

(** The text of a placeholder whose captured group is [path]. *)
Definition placeholder (path : string) : string := "{{" +:+ path +:+ "}}".

(** The callback passed to [template.replace]. *)
Definition replacePlaceholder (c : TemplateContext) (path : string) : string :=
  let trimmedPath := trim path in
  match resolvePath trimmedPath c with
  | Ok v => formatValue v
  | Throw _ => placeholder path
  end.

(** [template.replace(pattern, callback)] with the global flag: matches are
    searched from left to right, each search starting after the previous
    match.  [String.length s] units of fuel are enough. *)
Fixpoint replaceAll (fuel : nat) (c : TemplateContext) (s : string) : string :=
  match fuel with
  | O => s
  | S fuel' =>
      match matchPlaceholder s with
      | Some (path, rest) => replacePlaceholder c path +:+ replaceAll fuel' c rest
      | None =>
          match s with
          | EmptyString => EmptyString
          | String ch s' => String ch (replaceAll fuel' c s')
          end
      end
  end.

Definition resolveTemplate (template : string) (c : TemplateContext) : string :=
  replaceAll (String.length template) c template.

(** Notions used to state properties of templates: [c] occurs in [s]. *)
Fixpoint occurs (c : ascii) (s : string) : bool :=
  match s with
  | EmptyString => false
  | String d s' => Ascii.eqb c d || occurs c s'
  end.

(** A text that the group [([^}]+)] can capture. *)
Definition isGroup (path : string) : bool :=
  nonEmpty path && negb (occurs "}" path).

End WithNumbers.

End TemplateEngine.

(** ** utils/expressionEngine.ts *)

Module ExpressionEngine.
Import Js TemplateEngine.

Inductive ComparisonOperator : Type :=
| OpEq | OpNe | OpGt | OpLt | OpGe | OpLe | OpContains | OpStartsWith | OpEndsWith.

Inductive LogicalOperator : Type := OpAnd | OpOr.

Section WithNumbers.
Context `{JsNumber}.

(** [type Value]: a literal or a variable path. *)
Inductive Value : Type :=
| Literal (v : value)
| VariablePath (path : string).

Inductive Expression : Type :=
| Comparison (left : Value) (operator : ComparisonOperator) (right : Value)
| Logical (left : Expression) (operator : LogicalOperator) (right : Expression)
| Not (expression : Expression)
| ValueNode (v : Value).

(** [if (current.trim()) tokens.push(current.trim())] *)
Definition pushTrimmed (tokens : list string) (current : string) : list string :=
  if nonEmpty (trim current) then tokens ++ [trim current] else tokens.

Definition isQuote (c : ascii) : bool := Ascii.eqb c dquote || Ascii.eqb c squote.

Definition charIs (c : ascii) (o : option ascii) : bool :=
  match o with Some d => Ascii.eqb c d | None => false end.

Definition firstChar (s : string) : option ascii :=
  match s with String c _ => Some c | EmptyString => None end.

(** [rest] after the [i++] that skips the second character of an operator. *)
Definition skipChar (s : string) : string :=
  match s with String _ s' => s' | EmptyString => EmptyString end.

(** The [for] loop of [tokenize]; [expr] is the text from position [i] on.
    [stringChar] is [None] for the initial [''].  The loop is written by
    recursion on the text: the branches for two-character operators continue
    after the second character. *)
Fixpoint tokenizeLoop (expr : string) (tokens : list string) (current : string)
    (inString : bool) (stringChar : option ascii) : list string :=
  match expr with
  | EmptyString => pushTrimmed tokens current
  | String char rest =>
      let nextChar := firstChar rest in
      let two (op : string) :=
        match rest with
        | String _ rest' =>
            tokenizeLoop rest' (pushTrimmed tokens current ++ [op]) EmptyString
              inString stringChar
        | EmptyString => pushTrimmed tokens current ++ [op]
        end in
      let one (op : string) :=
        tokenizeLoop rest (pushTrimmed tokens current ++ [op]) EmptyString
          inString stringChar in
      if isQuote char && negb inString then
        tokenizeLoop rest tokens (String char EmptyString) true (Some char)
      else if charIs char stringChar && inString then
        tokenizeLoop rest (tokens ++ [current +:+ String char EmptyString])
          EmptyString false stringChar
      else if inString then
        tokenizeLoop rest tokens (current +:+ String char EmptyString) inString stringChar
      else if Ascii.eqb char "&" && charIs "&" nextChar then two "&&"
      else if Ascii.eqb char "|" && charIs "|" nextChar then two "||"
      else if Ascii.eqb char "=" && charIs "=" nextChar then two "=="
      else if Ascii.eqb char "!" && charIs "=" nextChar then two "!="
      else if Ascii.eqb char ">" && charIs "=" nextChar then two ">="
      else if Ascii.eqb char "<" && charIs "=" nextChar then two "<="
      else if Ascii.eqb char ">" || Ascii.eqb char "<" then one (String char EmptyString)
      else if Ascii.eqb char "!" && negb (charIs "=" nextChar) then one "!"
      else if Ascii.eqb char "(" || Ascii.eqb char ")" then one (String char EmptyString)
      else if Ascii.eqb char " " && nonEmpty (trim current) then
        tokenizeLoop rest (tokens ++ [trim current]) EmptyString inString stringChar
      else if negb (Ascii.eqb char " ") then
        tokenizeLoop rest tokens (current +:+ String char EmptyString) inString stringChar
      else
        tokenizeLoop rest tokens current inString stringChar
  end.

Definition tokenize (expr : string) : list string :=
  tokenizeLoop expr [] EmptyString false None.

(** [token.slice(1, -1)] *)
Definition sliceInner (token : string) : string :=
  String.substring 1 (String.length token - 2) token.

Definition lastChar (s : string) : option ascii :=
  String.get (String.length s - 1) s.

(** [/^-?\d+(\.\d+)?$/.test(token)] *)
Fixpoint allDigits (s : string) : bool :=
  match s with
  | EmptyString => true
  | String c s' => isDigit c && allDigits s'
  end.

Fixpoint digitsThenFraction (s : string) : bool :=
  match s with
  | EmptyString => true
  | String c s' =>
      if isDigit c then digitsThenFraction s'
      else Ascii.eqb c "." && nonEmpty s' && allDigits s'
  end.

Definition isNumberLiteral (token : string) : bool :=
  let body :=
    match token with
    | String c s' => if Ascii.eqb c "-" then s' else token
    | EmptyString => token
    end in
  match body with
  | String c _ => isDigit c && digitsThenFraction body
  | EmptyString => false
  end.

(** The parsers consume a prefix of the token array ([tokens.shift()]) and
    return what is left of it. *)
Definition Parsed (A : Type) : Type := Result string (A * list string).

Definition parseValue (tokens : list string) : Parsed Value :=
  match tokens with
  | [] => Throw "Unexpected end of expression"
  | token :: rest =>
      if (charIs dquote (firstChar token) && charIs dquote (lastChar token))
         || (charIs squote (firstChar token) && charIs squote (lastChar token))
      then Ok (Literal (VStr (sliceInner token)), rest)
      else if isNumberLiteral token then Ok (Literal (VNum (parseFloat token)), rest)
      else if String.eqb token "true" then Ok (Literal (VBool true), rest)
      else if String.eqb token "false" then Ok (Literal (VBool false), rest)
      else if String.eqb token "null" then Ok (Literal VNull, rest)
      else Ok (VariablePath token, rest)
  end.

(** [comparisonOps.includes(tokens[0])] *)
Definition comparisonOperatorOf (token : string) : option ComparisonOperator :=
  if String.eqb token "==" then Some OpEq
  else if String.eqb token "!=" then Some OpNe
  else if String.eqb token ">=" then Some OpGe
  else if String.eqb token "<=" then Some OpLe
  else if String.eqb token ">" then Some OpGt
  else if String.eqb token "<" then Some OpLt
  else if String.eqb token "contains" then Some OpContains
  else if String.eqb token "startsWith" then Some OpStartsWith
  else if String.eqb token "endsWith" then Some OpEndsWith
  else None.

Definition logicalOperatorOf (token : string) : option LogicalOperator :=
  if String.eqb token "&&" then Some OpAnd
  else if String.eqb token "||" then Some OpOr
  else None.

(** [tokens.length > 0 && tokens[0] === token] *)
Definition headIs (token : string) (tokens : list string) : bool :=
  match tokens with
  | first :: _ => String.eqb first token
  | [] => false
  end.

(** [parseComparison], with the parser for a parenthesized sub-expression
    as an argument. *)
Definition parseComparisonWith (parseLogical : list string -> Parsed Expression)
    (tokens : list string) : Parsed Expression :=
  if headIs "(" tokens then
    match parseLogical (tail tokens) with
    | Throw e => Throw e
    | Ok (expr, rest) =>
        if headIs ")" rest then Ok (expr, tail rest) else Ok (expr, rest)
    end
  else
    match parseValue tokens with
    | Throw e => Throw e
    | Ok (lhs, rest) =>
        match rest with
        | token :: rest' =>
            match comparisonOperatorOf token with
            | Some operator =>
                match parseValue rest' with
                | Throw e => Throw e
                | Ok (rhs, rest'') => Ok (Comparison lhs operator rhs, rest'')
                end
            | None => Ok (ValueNode lhs, rest)
            end
        | [] => Ok (ValueNode lhs, rest)
        end
    end.

Definition parseNotWith (parseLogical : list string -> Parsed Expression)
    (tokens : list string) : Parsed Expression :=
  if headIs "!" tokens then
    match parseComparisonWith parseLogical (tail tokens) with
    | Throw e => Throw e
    | Ok (expression, rest) => Ok (Not expression, rest)
    end
  else parseComparisonWith parseLogical tokens.

(** The [while] loop of [parseLogical]; every iteration removes an operator
    from [tokens], so [length tokens] iterations are enough. *)
Fixpoint parseLogicalLoop (parseNot : list string -> Parsed Expression)
    (fuel : nat) (lhs : Expression) (tokens : list string) : Parsed Expression :=
  match fuel, tokens with
  | S fuel', token :: rest =>
      match logicalOperatorOf token with
      | Some operator =>
          match parseNot rest with
          | Throw e => Throw e
          | Ok (rhs, rest') =>
              parseLogicalLoop parseNot fuel' (Logical lhs operator rhs) rest'
          end
      | None => Ok (lhs, tokens)
      end
  | _, _ => Ok (lhs, tokens)
  end.

(** [parseLogical], [parseNot] and [parseComparison] call each other; the
    recursive call is the one for a parenthesized sub-expression, made after
    the opening parenthesis has been removed.  [fuel] bounds the number of
    tokens: with none left the token array is empty and [parseValue] throws. *)
Fixpoint parseLogical (fuel : nat) (tokens : list string) : Parsed Expression :=
  let inner : list string -> Parsed Expression :=
    match fuel with
    | O => fun _ => Throw "Unexpected end of expression"
    | S fuel' => parseLogical fuel'
    end in
  match parseNotWith inner tokens with
  | Throw e => Throw e
  | Ok (lhs, rest) => parseLogicalLoop (parseNotWith inner) (length rest) lhs rest
  end.

Definition parseExpression (expr : string) : Result string Expression :=
  let tokens := tokenize expr in
  match parseLogical (length tokens) tokens with
  | Throw e => Throw e
  | Ok (ast, _) => Ok ast
  end.

(** [resolveValue]: a path that cannot be resolved is [undefined]. *)
Definition resolveValue (v : Value) (c : TemplateContext) : value :=
  match v with
  | Literal lit => lit
  | VariablePath path =>
      match resolvePath path c with
      | Ok r => r
      | Throw _ => VUndefined
      end
  end.

Definition bothNumbers (l r : value) (cmp : number -> number -> bool) : bool :=
  match l, r with
  | VNum a, VNum b => cmp a b
  | _, _ => false
  end.

Definition bothStrings (l r : value) (test : string -> string -> bool) : bool :=
  match l, r with
  | VStr a, VStr b => test a b
  | _, _ => false
  end.

Definition evaluateComparison (lhs : value) (operator : ComparisonOperator)
    (rhs : value) : bool :=
  match operator with
  | OpEq => strictEquals lhs rhs
  | OpNe => negb (strictEquals lhs rhs)
  | OpGt => bothNumbers lhs rhs (fun a b => num_ltb b a)
  | OpLt => bothNumbers lhs rhs (fun a b => num_ltb a b)
  | OpGe => bothNumbers lhs rhs (fun a b => num_leb b a)
  | OpLe => bothNumbers lhs rhs (fun a b => num_leb a b)
  | OpContains => bothStrings lhs rhs includes
  | OpStartsWith => bothStrings lhs rhs startsWith
  | OpEndsWith => bothStrings lhs rhs endsWith
  end.

Fixpoint evaluateNode (node : Expression) (c : TemplateContext) : bool :=
  match node with
  | Comparison lhs operator rhs =>
      evaluateComparison (resolveValue lhs c) operator (resolveValue rhs c)
  | Logical lhs operator rhs =>
      let l := evaluateNode lhs c in
      let r := evaluateNode rhs c in
      match operator with
      | OpAnd => l && r
      | OpOr => l || r
      end
  | Not expression => negb (evaluateNode expression c)
  | ValueNode v => truthy (resolveValue v c)
  end.

(** [evaluateExpression]: the [try] block around parsing and evaluation. *)
Definition evaluateExpression (expression : string) (c : TemplateContext) : bool :=
  match parseExpression expression with
  | Ok ast => evaluateNode ast c
  | Throw _ => false
  end.

(** *** Notions used in the proofs *)

(** A parser that removes at least one token of every array of at most [n]
    tokens. *)
Definition consumes (p : list string -> Parsed Expression) (n : nat) : Prop :=
  forall tokens e rest,
    length tokens <= n -> p tokens = Ok (e, rest) -> length rest < length tokens.

(** Two parsers that agree on every array of at most [n] tokens. *)
Definition agree (p q : list string -> Parsed Expression) (n : nat) : Prop :=
  forall tokens, length tokens <= n -> p tokens = q tokens.

End WithNumbers.

End ExpressionEngine.

(** ** models/workflowStep.ts and models/workflow.ts *)

Module Models.
Import Js.

Section WithNumbers.
Context `{JsNumber}.

(** [retry: { maxAttempts, backoffMs }] *)
Record RetryPolicy : Type := {
  maxAttempts : Z;
  backoffMs : Z
}.

(** [type WorkflowStep]: the fields read by the validator and the executor. *)
Record WorkflowStep : Type := {
  s_id : string;
  s_type : string;
  s_label : string;
  s_params : value;
  s_nextStepId : option string;
  s_onSuccess : option string;
  s_onFailure : option string;
  s_retry : option RetryPolicy
}.

(** [type Workflow] *)
Record Workflow : Type := {
  w_id : string;
  w_version : Z;
  w_entryStepId : string;
  w_steps : list WorkflowStep;
  w_maxSteps : Z;
  w_maxExecutionTimeMs : option Z
}.

(** Truthiness of an optional string: [undefined] and [''] are falsy. *)
Definition isSet (o : option string) : bool :=
  match o with
  | Some s => nonEmpty s
  | None => false
  end.

(** A field of [step.params as Partial<ConditionStepParams>]: a string or
    [undefined]. *)
Definition paramString (params : value) (name : string) : option string :=
  match getProperty params name with
  | VStr s => Some s
  | _ => None
  end.

(** [workflow.steps.find((s) => s.id === stepId)] *)
Definition findStep (w : Workflow) (stepId : string) : option WorkflowStep :=
  List.find (fun s => String.eqb (s_id s) stepId) (w_steps w).

End WithNumbers.

End Models.

(** ** workflows/workflowValidator.ts *)

Module WorkflowValidator.
Import Js Models.

Record ValidationResult : Type := {
  valid : bool;
  isValid : bool;
  errors : list string;
  warnings : list string
}.

(** A [Set<string>] whose iteration order is observed: the elements in
    insertion order. *)
Definition setHas (s : list string) (x : string) : bool :=
  existsb (String.eqb x) s.

Definition setAdd (s : list string) (x : string) : list string :=
  if setHas s x then s else s ++ [x].

(** State of the depth-first traversal of [detectCircularReferences]. *)
Record DfsState : Type := {
  visited : gset string;
  recursionStack : gset string;
  circular : list string
}.

Section WithNumbers.
Context `{JsNumber}.

(** The first [for] loop of [validate]: the set of step ids and the ids seen
    twice. *)
Definition collectStepIds (stepList : list WorkflowStep) : list string * list string :=
  fold_left
    (fun '(stepIds, duplicateIds) step =>
       (setAdd stepIds (s_id step),
        if setHas stepIds (s_id step) then duplicateIds ++ [s_id step] else duplicateIds))
    stepList ([], []).

(** [if (ref && !stepIds.has(ref)) errors.push(message)] *)
Definition checkReference (stepIds : list string) (ref : option string)
    (message : string -> string) (errs : list string) : list string :=
  match ref with
  | Some target =>
      if nonEmpty target && negb (setHas stepIds target)
      then errs ++ [message target] else errs
  | None => errs
  end.

(** The body of the second [for] loop of [validate]. *)
Definition validateStepReferences (stepIds : list string) (errs : list string)
    (step : WorkflowStep) : list string :=
  let errs := checkReference stepIds (s_nextStepId step)
    (fun t => "Step '" +:+ s_id step +:+ "' references non-existent next step '" +:+ t +:+ "'")
    errs in
  let errs := checkReference stepIds (s_onSuccess step)
    (fun t => "Step '" +:+ s_id step +:+ "' references non-existent onSuccess step '" +:+ t +:+ "'")
    errs in
  let errs := checkReference stepIds (s_onFailure step)
    (fun t => "Step '" +:+ s_id step +:+ "' references non-existent onFailure step '" +:+ t +:+ "'")
    errs in
  if String.eqb (s_type step) "CONDITION" then
    let errs := checkReference stepIds (paramString (s_params step) "onTrue")
      (fun t => "Condition step '" +:+ s_id step +:+ "' references non-existent onTrue step '" +:+ t +:+ "'")
      errs in
    checkReference stepIds (paramString (s_params step) "onFalse")
      (fun t => "Condition step '" +:+ s_id step +:+ "' references non-existent onFalse step '" +:+ t +:+ "'")
      errs
  else errs.

(** [if (ref) nextSteps.push(ref)] *)
Definition pushIfSet (ref : option string) : list string :=
  match ref with
  | Some target => if nonEmpty target then [target] else []
  | None => []
  end.

(** The outgoing references of a step, in the order in which both traversals
    push them. *)
Definition nextSteps (step : WorkflowStep) : list string :=
  pushIfSet (s_nextStepId step) ++ pushIfSet (s_onSuccess step)
  ++ pushIfSet (s_onFailure step)
  ++ (if String.eqb (s_type step) "CONDITION"
      then pushIfSet (paramString (s_params step) "onTrue")
           ++ pushIfSet (paramString (s_params step) "onFalse")
      else []).

(** The closure [dfs] of [detectCircularReferences].  A call that goes on to
    the successors of a step has just added a step id to [visited], so the
    depth of the recursion is bounded by the number of steps: that many units
    of fuel are enough, and the branch without fuel is then never taken for a
    step that exists. *)
Fixpoint dfs (fuel : nat) (w : Workflow) (stepId : string) (path : list string)
    (st : DfsState) : DfsState :=
  if bool_decide (stepId ∈ recursionStack st) then
    {| visited := visited st;
       recursionStack := recursionStack st;
       circular := circular st ++ [join " -> " (path ++ [stepId])] |}
  else if bool_decide (stepId ∈ visited st) then st
  else
    let st1 := {| visited := visited st ∪ {[stepId]};
                  recursionStack := recursionStack st ∪ {[stepId]};
                  circular := circular st |} in
    let st2 :=
      match findStep w stepId, fuel with
      | Some step, S fuel' =>
          fold_left (fun acc nextStep => dfs fuel' w nextStep (path ++ [stepId]) acc)
            (nextSteps step) st1
      | _, _ => st1
      end in
    {| visited := visited st2;
       recursionStack := recursionStack st2 ∖ {[stepId]};
       circular := circular st2 |}.

Definition detectCircularReferences (w : Workflow) : list string :=
  circular
    (dfs (length (w_steps w)) w (w_entryStepId w) []
       {| visited := ∅; recursionStack := ∅; circular := [] |}).

(** The [while (queue.length > 0)] loop of [findReachableSteps].  An
    iteration removes one element of the queue and adds at most five, the
    latter only when a step id is added to [reachable]. *)
Fixpoint bfs (fuel : nat) (w : Workflow) (queue : list string)
    (reachable : gset string) : gset string :=
  match fuel, queue with
  | S fuel', stepId :: queue' =>
      if bool_decide (stepId ∈ reachable) then bfs fuel' w queue' reachable
      else
        let queue'' :=
          match findStep w stepId with
          | Some step => queue' ++ nextSteps step
          | None => queue'
          end in
        bfs fuel' w queue'' (reachable ∪ {[stepId]})
  | _, _ => reachable
  end.

Definition findReachableSteps (w : Workflow) : gset string :=
  bfs (1 + 5 * length (w_steps w)) w [w_entryStepId w] ∅.

(** [if (cond) errors.push(message)] *)
Definition pushIf (cond : bool) (message : string) (errs : list string) : list string :=
  if cond then errs ++ [message] else errs.

Definition validate (w : Workflow) : ValidationResult :=
  let errs : list string := [] in
  let warns : list string := [] in
  if (length (w_steps w) =? 0)%nat then
    let errs := errs ++ ["Workflow must have at least one step"] in
    {| valid := false; isValid := false; errors := errs; warnings := warns |}
  else
    let errs :=
      pushIf (w_maxSteps w <? Z.of_nat (length (w_steps w)))%Z
        ("Workflow exceeds maximum allowed steps (" +:+ intToString (w_maxSteps w) +:+ ")")
        errs in
    let '(stepIds, duplicateIds) := collectStepIds (w_steps w) in
    let errs :=
      pushIf (0 <? length duplicateIds)%nat
        ("Duplicate step IDs found: " +:+ join ", " duplicateIds) errs in
    let errs :=
      pushIf (negb (setHas stepIds (w_entryStepId w)))
        ("Entry step '" +:+ w_entryStepId w
         +:+ "' referenced by entryStepId not found in workflow steps") errs in
    let errs := fold_left (validateStepReferences stepIds) (w_steps w) errs in
    let circularPaths := detectCircularReferences w in
    let errs :=
      pushIf (0 <? length circularPaths)%nat
        ("circular references detected: " +:+ join ", " circularPaths) errs in
    let reachableSteps := findReachableSteps w in
    let unreachableSteps :=
      List.filter (fun id => negb (bool_decide (id ∈ reachableSteps))) stepIds in
    let errs :=
      pushIf (0 <? length unreachableSteps)%nat
        ("unreachable steps found: " +:+ join ", " unreachableSteps) errs in
    let ok := (length errs =? 0)%nat in
    {| valid := ok; isValid := ok; errors := errs; warnings := warns |}.

(** [validateOrThrow]: the message of the [WorkflowValidationError]. *)
Definition validateOrThrow (w : Workflow) : Result string unit :=
  let result := validate w in
  if negb (valid result)
  then Throw ("Workflow validation failed: " +:+ join "; " (errors result))
  else Ok tt.

(** *** The checks of the validator, one by one

    The errors that each check of [validate] reports when it is run on its
    own, and their concatenation in the order of the checks: what a validator
    that runs every check on every workflow collects. *)

Definition stepCountErrors (w : Workflow) : list string :=
  pushIf (length (w_steps w) =? 0)%nat "Workflow must have at least one step" []
  ++ pushIf (w_maxSteps w <? Z.of_nat (length (w_steps w)))%Z
       ("Workflow exceeds maximum allowed steps (" +:+ intToString (w_maxSteps w) +:+ ")")
       [].

Definition duplicateErrors (w : Workflow) : list string :=
  let duplicateIds := (collectStepIds (w_steps w)).2 in
  pushIf (0 <? length duplicateIds)%nat
    ("Duplicate step IDs found: " +:+ join ", " duplicateIds) [].

Definition entryErrors (w : Workflow) : list string :=
  pushIf (negb (setHas (collectStepIds (w_steps w)).1 (w_entryStepId w)))
    ("Entry step '" +:+ w_entryStepId w
     +:+ "' referenced by entryStepId not found in workflow steps") [].

Definition referenceErrors (w : Workflow) : list string :=
  concat (map (validateStepReferences (collectStepIds (w_steps w)).1 []) (w_steps w)).

Definition cycleErrors (w : Workflow) : list string :=
  pushIf (0 <? length (detectCircularReferences w))%nat
    ("circular references detected: " +:+ join ", " (detectCircularReferences w)) [].

Definition unreachableErrors (w : Workflow) : list string :=
  let unreachableSteps :=
    List.filter (fun id => negb (bool_decide (id ∈ findReachableSteps w)))
      (collectStepIds (w_steps w)).1 in
  pushIf (0 <? length unreachableSteps)%nat
    ("unreachable steps found: " +:+ join ", " unreachableSteps) [].

Definition allCheckErrors (w : Workflow) : list string :=
  stepCountErrors w ++ duplicateErrors w ++ entryErrors w ++ referenceErrors w
  ++ cycleErrors w ++ unreachableErrors w.

(** *** The graph of a workflow

    [edge w a b]: the step that the id [a] denotes (the first step of the
    workflow with this id, as for the executor) refers to [b] by one of its
    fields [nextStepId], [onSuccess] and [onFailure] or, for a step of type
    [CONDITION], by [onTrue] or [onFalse] in its parameters. *)
Inductive edge (w : Workflow) (a b : string) : Prop :=
| edge_next step :
    findStep w a = Some step -> s_nextStepId step = Some b -> b <> EmptyString ->
    edge w a b
| edge_success step :
    findStep w a = Some step -> s_onSuccess step = Some b -> b <> EmptyString ->
    edge w a b
| edge_failure step :
    findStep w a = Some step -> s_onFailure step = Some b -> b <> EmptyString ->
    edge w a b
| edge_true step :
    findStep w a = Some step -> s_type step = "CONDITION" ->
    paramString (s_params step) "onTrue" = Some b -> b <> EmptyString ->
    edge w a b
| edge_false step :
    findStep w a = Some step -> s_type step = "CONDITION" ->
    paramString (s_params step) "onFalse" = Some b -> b <> EmptyString ->
    edge w a b.

(** A cycle can be reached from [a]. *)
Definition reachesCycle (w : Workflow) (a : string) : Prop :=
  exists b, rtc (edge w) a b /\ tc (edge w) b b.

(** A list of step ids in which every id refers to the next one. *)
Fixpoint isWalk (w : Workflow) (p : list string) : Prop :=
  match p with
  | a :: rest =>
      match rest with
      | b :: _ => edge w a b /\ isWalk w rest
      | [] => True
      end
  | [] => True
  end.

(** A walk from the entry step whose last step id occurs earlier in it: the
    walk enters a cycle and follows it once. *)
Definition isCyclePath (w : Workflow) (p : list string) : Prop :=
  exists walk x,
    p = walk ++ [x] /\ x ∈ walk /\ head p = Some (w_entryStepId w) /\ isWalk w p.

(** *** Notions used in the proofs *)

(** The ids for which [findStep] finds a step. *)
Definition stepIdSet (w : Workflow) : gset string :=
  list_to_set (map s_id (w_steps w)).

(** As long as no cycle has been recorded, no cycle can be reached from a
    step that the traversal has left. *)
Definition safe (w : Workflow) (st : DfsState) : Prop :=
  circular st = [] ->
  forall b, b ∈ visited st -> b ∉ recursionStack st -> ~ reachesCycle w b.

(** What has been recorded are cycle paths. *)
Definition recorded (w : Workflow) (st : DfsState) : Prop :=
  Forall (fun s => exists p, s = join " -> " p /\ isCyclePath w p) (circular st).

(** The postcondition of a call [dfs(stepId, path)]. *)
Definition dfsPost (w : Workflow) (x : string) (st st' : DfsState) : Prop :=
  recursionStack st' = recursionStack st
  /\ visited st ⊆ visited st'
  /\ (circular st' = [] -> circular st = [])
  /\ safe w st'
  /\ recorded w st'
  /\ (circular st' = [] -> x ∈ visited st' /\ x ∉ recursionStack st').

End WithNumbers.

End WorkflowValidator.

(** ** models/workflowExecution.ts *)

Module WorkflowExecution.
Import Js.

Inductive ExecutionStatus : Type :=
| Pending | Running | Completed | Failed | Timeout | Cancelled.

Inductive StepStatus : Type :=
| StepPending | StepRunning | StepCompleted | StepFailed | StepSkipped.

(** [execution.error]; the text of [stack] is left out. *)
Record ExecutionError : Type := {
  err_message : string;
  err_code : option string;
  err_stepId : option string
}.

Section WithNumbers.
Context `{JsNumber}.

(** An entry of [execution.stepExecutions].  Optional fields that hold data
    are [VUndefined] when absent; dates are milliseconds since the epoch.
    The optional field [input] is never written and is left out. *)
Record StepExecution : Type := {
  se_stepId : string;
  se_stepType : string;
  se_status : StepStatus;
  se_output : value;
  se_error : option string;
  se_startedAt : option Z;
  se_completedAt : option Z;
  se_durationMs : value;
  se_retryCount : Z
}.

(** [Partial<StepExecution>] as the executor builds it: [None] is a key that
    the object literal does not have; a key that is present is assigned by
    [Object.assign] even when its value is [undefined]. *)
Record StepUpdate : Type := {
  u_status : option StepStatus;
  u_output : option value;
  u_error : option (option string);
  u_startedAt : option Z;
  u_completedAt : option Z;
  u_durationMs : option value
}.

Record Metrics : Type := {
  stepsExecuted : Z;
  llmCallCount : number;
  ragQueryCount : number;
  totalTokensUsed : number
}.

(** [type WorkflowExecution].  The aliases [steps], [output], [input],
    [executionId], [startTime] and [endTime] repeat the fields
    [stepExecutions], [outputPayload], [inputPayload], [id], [startedAt] and
    [completedAt] and are left out; [metrics] is always present in a record
    made by [createWorkflowExecution]. *)
Record WorkflowExecution : Type := {
  ex_id : string;
  ex_workflowId : string;
  ex_workflowVersion : Z;
  ex_organizationId : string;
  ex_subOrganizationId : option string;
  ex_inputPayload : value;
  ex_outputPayload : value;
  ex_status : ExecutionStatus;
  ex_error : option ExecutionError;
  ex_startedAt : option Z;
  ex_completedAt : option Z;
  ex_durationMs : option Z;
  ex_stepExecutions : list StepExecution;
  ex_createdAt : Z;
  ex_metrics : Metrics
}.

Definition setStepExecutions (e : WorkflowExecution) (l : list StepExecution)
  : WorkflowExecution :=
  {| ex_id := ex_id e; ex_workflowId := ex_workflowId e;
     ex_workflowVersion := ex_workflowVersion e;
     ex_organizationId := ex_organizationId e;
     ex_subOrganizationId := ex_subOrganizationId e;
     ex_inputPayload := ex_inputPayload e; ex_outputPayload := ex_outputPayload e;
     ex_status := ex_status e; ex_error := ex_error e;
     ex_startedAt := ex_startedAt e; ex_completedAt := ex_completedAt e;
     ex_durationMs := ex_durationMs e; ex_stepExecutions := l;
     ex_createdAt := ex_createdAt e; ex_metrics := ex_metrics e |}.

Definition setMetrics (e : WorkflowExecution) (m : Metrics) : WorkflowExecution :=
  {| ex_id := ex_id e; ex_workflowId := ex_workflowId e;
     ex_workflowVersion := ex_workflowVersion e;
     ex_organizationId := ex_organizationId e;
     ex_subOrganizationId := ex_subOrganizationId e;
     ex_inputPayload := ex_inputPayload e; ex_outputPayload := ex_outputPayload e;
     ex_status := ex_status e; ex_error := ex_error e;
     ex_startedAt := ex_startedAt e; ex_completedAt := ex_completedAt e;
     ex_durationMs := ex_durationMs e; ex_stepExecutions := ex_stepExecutions e;
     ex_createdAt := ex_createdAt e; ex_metrics := m |}.

(** [createWorkflowExecution]; [id] is the generated identifier and [now] the
    date of creation. *)
Definition createWorkflowExecution (id : string) (now : Z) (workflowId : string)
    (workflowVersion : Z) (organizationId : string) (inputPayload : value)
    (subOrganizationId : option string) : WorkflowExecution :=
  {| ex_id := id; ex_workflowId := workflowId;
     ex_workflowVersion := workflowVersion;
     ex_organizationId := organizationId;
     ex_subOrganizationId := subOrganizationId;
     ex_inputPayload := inputPayload; ex_outputPayload := VUndefined;
     ex_status := Pending; ex_error := None;
     ex_startedAt := None; ex_completedAt := None; ex_durationMs := None;
     ex_stepExecutions := []; ex_createdAt := now;
     ex_metrics := {| stepsExecuted := 0; llmCallCount := num_of_Z 0;
                      ragQueryCount := num_of_Z 0; totalTokensUsed := num_of_Z 0 |} |}.

(** The record that [addStepExecution] pushes. *)
Definition newStepExecution (stepId stepType : string) : StepExecution :=
  {| se_stepId := stepId; se_stepType := stepType; se_status := StepPending;
     se_output := VUndefined; se_error := None; se_startedAt := None;
     se_completedAt := None; se_durationMs := VUndefined; se_retryCount := 0 |}.

Definition addStepExecution (e : WorkflowExecution) (stepId stepType : string)
  : WorkflowExecution :=
  setStepExecutions e (ex_stepExecutions e ++ [newStepExecution stepId stepType]).

(** [Object.assign(stepExecution, updates)] *)
Definition assign (u : StepUpdate) (se : StepExecution) : StepExecution :=
  {| se_stepId := se_stepId se;
     se_stepType := se_stepType se;
     se_status := default (se_status se) (u_status u);
     se_output := default (se_output se) (u_output u);
     se_error := default (se_error se) (u_error u);
     se_startedAt := match u_startedAt u with Some t => Some t | None => se_startedAt se end;
     se_completedAt := match u_completedAt u with Some t => Some t | None => se_completedAt se end;
     se_durationMs := default (se_durationMs se) (u_durationMs u);
     se_retryCount := se_retryCount se |}.

(** [stepExecutions.findIndex((se) => se.stepId === stepId)] *)
Fixpoint findIndex (stepId : string) (l : list StepExecution) : option nat :=
  match l with
  | [] => None
  | se :: rest =>
      if String.eqb (se_stepId se) stepId then Some 0
      else S <$> findIndex stepId rest
  end.

Definition updateStepExecution (e : WorkflowExecution) (stepId : string)
    (updates : StepUpdate) : WorkflowExecution :=
  match findIndex stepId (ex_stepExecutions e) with
  | Some index => setStepExecutions e (alter (assign updates) index (ex_stepExecutions e))
  | None => e
  end.

(** *** Notions used to state properties and in the proofs *)

(** The effect of [updateStepExecution] on the entries. *)
Definition updateEntries (stepId : string) (u : StepUpdate)
    (l : list StepExecution) : list StepExecution :=
  match findIndex stepId l with
  | Some index => alter (assign u) index l
  | None => l
  end.

(** Every entry that is not the first of its step id is as
    [addStepExecution] made it. *)
Definition laterEntriesPending (l : list StepExecution) : Prop :=
  forall j se,
    l !! j = Some se -> findIndex (se_stepId se) l <> Some j ->
    se = newStepExecution (se_stepId se) (se_stepType se).

End WithNumbers.

End WorkflowExecution.

(** ** workflows/stepRegistry.ts and workflows/workflowExecutor.ts *)

Module WorkflowExecutor.
Import Js TemplateEngine Models WorkflowValidator WorkflowExecution.

(** A thrown value: an [Error] object, by its [name] and [message], or any
    other value, by its truthiness and [String(value)]. *)
Inductive Thrown : Type :=
| ThrownError (name message : string)
| ThrownValue (isTruthy : bool) (text : string).

(** [error instanceof Error ? error.message : String(error)] *)
Definition errorText (t : Thrown) : string :=
  match t with
  | ThrownError _ message => message
  | ThrownValue _ text => text
  end.

(** [lastError || new Error('Max retry attempts reached')] *)
Definition orMaxRetry (lastError : option Thrown) : Thrown :=
  match lastError with
  | Some (ThrownError name message) => ThrownError name message
  | Some (ThrownValue true text) => ThrownValue true text
  | _ => ThrownError "Error" "Max retry attempts reached"
  end.

Definition workflowValidationError (message : string) : Thrown :=
  ThrownError "WorkflowValidationError" message.
Definition timeoutError (message : string) : Thrown :=
  ThrownError "TimeoutError" message.
Definition stepExecutionError (message : string) : Thrown :=
  ThrownError "StepExecutionError" message.
Definition configurationError (message : string) : Thrown :=
  ThrownError "ConfigurationError" message.

(** [interface ExecutionOptions] *)
Record ExecutionOptions : Type := {
  opt_maxSteps : option Z;
  opt_timeoutMs : option Z
}.

Section WithNumbers.
Context `{JsNumber}.

(** [interface StepResult] *)
Record ResultError : Type := {
  re_message : string;
  re_code : option string;
  re_recoverable : option bool
}.

Record StepResult : Type := {
  success : bool;
  output : value;
  metadata : value;
  error : option ResultError
}.

(** [interface StepExecutionContext], without the logger. *)
Record StepExecutionContext : Type := {
  sc_organizationId : string;
  sc_subOrganizationId : option string;
  sc_workflowId : string;
  sc_executionId : string;
  sc_templateContext : TemplateContext
}.

(** The promise returned by [handler.execute]. *)
Inductive Outcome : Type :=
| Resolved (result : StepResult)
| Rejected (reason : Thrown).

(** [BaseStepHandler] as the executor uses it.  [h_validateParams] returns
    the value thrown, if any.  A handler may keep state and perform I/O: the
    outcome of [h_execute] is a function of the number of handler calls made
    so far in the run, besides its two arguments. *)
Record Handler : Type := {
  h_validateParams : value -> option Thrown;
  h_execute : nat -> value -> StepExecutionContext -> Outcome
}.

(** What a run reads from its environment: the registry, the successive
    readings of the clock and the identifier generated for the execution
    (the generator of identifiers is not modelled, nor is the reading of the
    clock that it makes). *)
Record World : Type := {
  registry : gmap string Handler;
  clock : nat -> Z;
  generatedId : string
}.

(** [StepRegistry.getHandler] *)
Definition getHandler (reg : gmap string Handler) (type : string)
  : Result Thrown Handler :=
  match reg !! type with
  | Some handler => Ok handler
  | None => Throw (configurationError
                     ("No handler registered for step type '" +:+ type +:+ "'"))
  end.

(** The mutable state of a run: the execution record, the template context,
    and counters for the handler calls made, the clock readings taken and the
    objects allocated; [slept] lists the delays passed to [setTimeout]. *)
Record RunState : Type := {
  execution : WorkflowExecution;
  tctx : TemplateContext;
  calls : nat;
  ticks : nat;
  slept : list Z;
  nextRef : nat
}.

Definition withExecution (st : RunState) (e : WorkflowExecution) : RunState :=
  {| execution := e; tctx := tctx st; calls := calls st; ticks := ticks st;
     slept := slept st; nextRef := nextRef st |}.

(** Computations of the executor: they read and write the run state and
    either return or throw. *)
Definition Run (A : Type) : Type := RunState -> Result Thrown A * RunState.

Definition ret {A} (a : A) : Run A := fun st => (Ok a, st).
Definition throw {A} (t : Thrown) : Run A := fun st => (Throw t, st).
Definition bind {A B} (m : Run A) (k : A -> Run B) : Run B :=
  fun st =>
    match m st with
    | (Ok a, st') => k a st'
    | (Throw t, st') => (Throw t, st')
    end.
Definition tryCatch {A} (body : Run A) (handler : Thrown -> Run A) : Run A :=
  fun st =>
    match body st with
    | (Ok a, st') => (Ok a, st')
    | (Throw t, st') => handler t st'
    end.
Definition liftResult {A} (r : Result Thrown A) : Run A := fun st => (r, st).
Definition getState : Run RunState := fun st => (Ok st, st).
Definition modifyExecution (f : WorkflowExecution -> WorkflowExecution) : Run unit :=
  fun st => (Ok tt, withExecution st (f (execution st))).

Notation "'let*' x ':=' m 'in' k" := (bind m (fun x => k))
  (at level 10, x name, m at level 100, k at level 200).

(** [new Date()] and [Date.now()] *)
Definition readClock (world : World) : Run Z :=
  fun st =>
    (Ok (clock world (ticks st)),
     {| execution := execution st; tctx := tctx st; calls := calls st;
        ticks := S (ticks st); slept := slept st; nextRef := nextRef st |}).

(** [await new Promise((resolve) => setTimeout(resolve, ms))] *)
Definition sleep (ms : Z) : Run unit :=
  fun st =>
    (Ok tt,
     {| execution := execution st; tctx := tctx st; calls := calls st;
        ticks := ticks st; slept := slept st ++ [ms]; nextRef := nextRef st |}).

(** [await handler.execute(step.params, stepContext)] *)
Definition callHandler (handler : Handler) (params : value)
    (sc : StepExecutionContext) : Run StepResult :=
  fun st =>
    let st' := {| execution := execution st; tctx := tctx st; calls := S (calls st);
                  ticks := ticks st; slept := slept st; nextRef := nextRef st |} in
    match h_execute handler (calls st) params sc with
    | Resolved result => (Ok result, st')
    | Rejected reason => (Throw reason, st')
    end.

(** [context.steps[stepId] = { output, metadata }] *)
Definition storeStepOutput (stepId : string) (out meta : value) : Run unit :=
  fun st =>
    let c := tctx st in
    let entry := VObj (nextRef st) [("output", out); ("metadata", meta)] in
    (Ok tt,
     {| execution := execution st;
        tctx := {| ctx_ref := ctx_ref c; input_ref := input_ref c; input := input c;
                   steps_ref := steps_ref c; steps := setProp stepId entry (steps c);
                   context_ref := context_ref c; context := context c |};
        calls := calls st; ticks := ticks st; slept := slept st;
        nextRef := S (nextRef st) |}).

(** The [for] loop of [executeWithRetry].  [remaining] counts the iterations
    still to run, [maxAttempts - attempt + 1]; the loop ends when it is 0. *)
Fixpoint retryLoop (fn : Run StepResult) (remaining : nat) (attempt : Z)
    (maxAttempts backoffMs : Z) (lastError : option Thrown) : Run StepResult :=
  match remaining with
  | O => throw (orMaxRetry lastError)
  | S remaining' =>
      tryCatch fn
        (fun e =>
           let* _ := (if (attempt <? maxAttempts)%Z
                      then sleep (backoffMs * attempt)%Z else ret tt) in
           retryLoop fn remaining' (attempt + 1)%Z maxAttempts backoffMs (Some e))
  end.

Definition executeWithRetry (fn : Run StepResult) (maxAttempts backoffMs : Z)
  : Run StepResult :=
  retryLoop fn (Z.to_nat maxAttempts) 1%Z maxAttempts backoffMs None.

(** [n || fallback] for an optional number. *)
Definition orElse (n : option Z) (fallback : Z) : Z :=
  match n with
  | Some v => if (v =? 0)%Z then fallback else v
  | None => fallback
  end.

(** [v?.[name]] *)
Definition optionalProperty (v : value) (name : string) : value :=
  match v with
  | VUndefined | VNull => VUndefined
  | _ => getProperty v name
  end.

(** [if (typeof n === 'number') total += n] *)
Definition addIfNumber (total : number) (v : value) : number :=
  match v with
  | VNum n => num_add total n
  | _ => total
  end.

Definition accumulateMetrics (meta : value) (m : Metrics) : Metrics :=
  if truthy meta then
    {| stepsExecuted := stepsExecuted m;
       llmCallCount := addIfNumber (llmCallCount m) (getProperty meta "llmCallCount");
       ragQueryCount := addIfNumber (ragQueryCount m) (getProperty meta "ragQueryCount");
       totalTokensUsed := addIfNumber (totalTokensUsed m) (getProperty meta "tokensUsed") |}
  else m.

(** [step.onSuccess || step.nextStepId] *)
Definition successTarget (step : WorkflowStep) : option string :=
  if isSet (s_onSuccess step) then s_onSuccess step else s_nextStepId step.

(** The [stepContext] object built by [executeStep]. *)
Definition stepContextOf (workflow : Workflow) (st : RunState) : StepExecutionContext :=
  {| sc_organizationId := ex_organizationId (execution st);
     sc_subOrganizationId := ex_subOrganizationId (execution st);
     sc_workflowId := w_id workflow;
     sc_executionId := ex_id (execution st);
     sc_templateContext := tctx st |}.

(** The [try] block of [executeStep]. *)
Definition runStep (world : World) (workflow : Workflow) (step : WorkflowStep)
  : Run (option string) :=
  let* handler := liftResult (getHandler (registry world) (s_type step)) in
  match h_validateParams handler (s_params step) with
  | Some thrown => throw thrown
  | None =>
      let* st := getState in
      let stepContext := stepContextOf workflow st in
      let* result := executeWithRetry
                  (callHandler handler (s_params step) stepContext)
                  (orElse (maxAttempts <$> s_retry step) 1)
                  (orElse (backoffMs <$> s_retry step) 1000) in
      let* now := readClock world in
      let* _ := modifyExecution (fun e =>
        updateStepExecution e (s_id step)
          {| u_status := Some (if success result then StepCompleted else StepFailed);
             u_output := Some (output result);
             u_error := Some (re_message <$> error result);
             u_startedAt := None;
             u_completedAt := Some now;
             u_durationMs := Some (optionalProperty (metadata result) "duration") |}) in
      let* _ := storeStepOutput (s_id step) (output result) (metadata result) in
      let* _ := modifyExecution (fun e =>
        setMetrics e (accumulateMetrics (metadata result) (ex_metrics e))) in
      if negb (success result) then ret (s_onFailure step)
      else if String.eqb (s_type step) "CONDITION" && truthy (output result)
      then ret (paramString (output result) "nextStep")
      else ret (successTarget step)
  end.

Definition executeStep (world : World) (workflow : Workflow) (step : WorkflowStep)
  : Run (option string) :=
  let* _ := modifyExecution (fun e => addStepExecution e (s_id step) (s_type step)) in
  let* now := readClock world in
  let* _ := modifyExecution (fun e =>
    updateStepExecution e (s_id step)
      {| u_status := Some StepRunning; u_output := None; u_error := None;
         u_startedAt := Some now; u_completedAt := None; u_durationMs := None |}) in
  tryCatch (runStep world workflow step)
    (fun thrown =>
       let* now := readClock world in
       let* _ := modifyExecution (fun e =>
         updateStepExecution e (s_id step)
           {| u_status := Some StepFailed; u_output := None;
              u_error := Some (Some (errorText thrown));
              u_startedAt := None; u_completedAt := Some now;
              u_durationMs := None |}) in
       if isSet (s_onFailure step) then ret (s_onFailure step)
       else throw (stepExecutionError
                     ("Step '" +:+ s_id step +:+ "' failed: " +:+ errorText thrown))).

(** [if (timeoutMs && Date.now() - startTime > timeoutMs) throw ...] *)
Definition checkTimeout (world : World) (timeoutMs : option Z) (startTime : Z)
  : Run unit :=
  match timeoutMs with
  | Some t =>
      if (t =? 0)%Z then ret tt
      else
        let* now := readClock world in
        if (t <? now - startTime)%Z
        then throw (timeoutError
                      ("Workflow execution exceeded timeout (" +:+ intToString t +:+ "ms)"))
        else ret tt
  | None => ret tt
  end.

Definition exceededMaximumSteps (maxSteps : Z) : Thrown :=
  workflowValidationError ("Exceeded maximum steps (" +:+ intToString maxSteps +:+ ")").

(** The [while (currentStepId)] loop of [executeSteps].  An iteration that
    does not throw increments [stepsExecuted], and the step limit stops the
    loop when [stepsExecuted] reaches [maxSteps]: with
    [Z.to_nat (maxSteps - stepsExecuted)] units of fuel, no fuel is left
    exactly when the step limit is reached. *)
Fixpoint stepLoop (fuel : nat) (world : World) (workflow : Workflow)
    (maxSteps : Z) (timeoutMs : option Z) (startTime : Z)
    (currentStepId : option string) (executed : Z) : Run unit :=
  match currentStepId with
  | None => ret tt
  | Some stepId =>
      if negb (nonEmpty stepId) then ret tt
      else if (maxSteps <=? executed)%Z then throw (exceededMaximumSteps maxSteps)
      else
        match fuel with
        | O => throw (exceededMaximumSteps maxSteps)
        | S fuel' =>
            let* _ := checkTimeout world timeoutMs startTime in
            match findStep workflow stepId with
            | None => throw (workflowValidationError ("Step not found: " +:+ stepId))
            | Some step =>
                let* nextStepId := executeStep world workflow step in
                let* _ := modifyExecution (fun e =>
                  setMetrics e
                    {| stepsExecuted := executed + 1;
                       llmCallCount := llmCallCount (ex_metrics e);
                       ragQueryCount := ragQueryCount (ex_metrics e);
                       totalTokensUsed := totalTokensUsed (ex_metrics e) |}) in
                stepLoop fuel' world workflow maxSteps timeoutMs startTime
                  nextStepId (executed + 1)%Z
            end
        end
  end.

Definition executeSteps (world : World) (workflow : Workflow)
    (options : option ExecutionOptions) : Run unit :=
  let maxSteps := orElse (options ≫= opt_maxSteps) (w_maxSteps workflow) in
  let timeoutMs :=
    match options ≫= opt_timeoutMs with
    | Some t => if (t =? 0)%Z then w_maxExecutionTimeMs workflow else Some t
    | None => w_maxExecutionTimeMs workflow
    end in
  let* startTime := readClock world in
  stepLoop (Z.to_nat maxSteps) world workflow maxSteps timeoutMs startTime
    (Some (w_entryStepId workflow)) 0%Z.

(** The output of the last entry of [stepExecutions], when it is truthy. *)
Definition lastStepOutput (e : WorkflowExecution) : value :=
  match last (ex_stepExecutions e) with
  | Some lastStep =>
      if truthy (se_output lastStep) then se_output lastStep else ex_outputPayload e
  | None => ex_outputPayload e
  end.

Definition finish (e : WorkflowExecution) (status : ExecutionStatus)
    (outputPayload : value) (err : option ExecutionError) (now : Z)
  : WorkflowExecution :=
  {| ex_id := ex_id e; ex_workflowId := ex_workflowId e;
     ex_workflowVersion := ex_workflowVersion e;
     ex_organizationId := ex_organizationId e;
     ex_subOrganizationId := ex_subOrganizationId e;
     ex_inputPayload := ex_inputPayload e;
     ex_outputPayload := outputPayload;
     ex_status := status;
     ex_error := err;
     ex_startedAt := ex_startedAt e;
     ex_completedAt := Some now;
     ex_durationMs :=
       Some (match ex_startedAt e with Some t => now - t | None => 0 end)%Z;
     ex_stepExecutions := ex_stepExecutions e;
     ex_createdAt := ex_createdAt e; ex_metrics := ex_metrics e |}.

Definition start (e : WorkflowExecution) (now : Z) : WorkflowExecution :=
  {| ex_id := ex_id e; ex_workflowId := ex_workflowId e;
     ex_workflowVersion := ex_workflowVersion e;
     ex_organizationId := ex_organizationId e;
     ex_subOrganizationId := ex_subOrganizationId e;
     ex_inputPayload := ex_inputPayload e; ex_outputPayload := ex_outputPayload e;
     ex_status := Running; ex_error := ex_error e;
     ex_startedAt := Some now; ex_completedAt := ex_completedAt e;
     ex_durationMs := ex_durationMs e; ex_stepExecutions := ex_stepExecutions e;
     ex_createdAt := ex_createdAt e; ex_metrics := ex_metrics e |}.

(** The value of [execution.error] after the [catch] block of [execute]. *)
Definition recordError (e : WorkflowExecution) (thrown : Thrown) : option ExecutionError :=
  match thrown with
  | ThrownError name message =>
      Some {| err_message := message; err_code := Some name; err_stepId := None |}
  | ThrownValue _ _ => ex_error e
  end.

(** [WorkflowExecutor.execute].  [inputPayload] is a record, given by the
    identity of the object and its properties; [firstRef] is the first of the
    identities given to the objects that the run allocates.  The result is
    the value of the promise: the execution record, or the value thrown. *)
Definition execute (world : World) (workflow : Workflow) (organizationId : string)
    (inputRef : nat) (inputPayload : list (string * value))
    (subOrganizationId : option string) (options : option ExecutionOptions)
    (firstRef : nat) : Result Thrown WorkflowExecution :=
  match validateOrThrow workflow with
  | Throw message => Throw (workflowValidationError message)
  | Ok _ =>
      let created :=
        createWorkflowExecution (generatedId world) (clock world 0) (w_id workflow)
          (w_version workflow) organizationId (VObj inputRef inputPayload)
          subOrganizationId in
      let started := start created (clock world 1) in
      let context :=
        {| ctx_ref := firstRef;
           input_ref := inputRef; input := inputPayload;
           steps_ref := firstRef + 1; steps := [];
           context_ref := firstRef + 2;
           context := [("workflowId", VStr (w_id workflow));
                       ("executionId", VStr (ex_id created));
                       ("organizationId", VStr organizationId);
                       ("subOrganizationId",
                        match subOrganizationId with
                        | Some s => VStr s
                        | None => VUndefined
                        end)] |} in
      let st0 := {| execution := started; tctx := context; calls := 0; ticks := 2;
                    slept := []; nextRef := firstRef + 3 |} in
      match executeSteps world workflow options st0 with
      | (Ok _, st) =>
          let e := execution st in
          Ok (finish e Completed (lastStepOutput e) (ex_error e) (clock world (ticks st)))
      | (Throw thrown, st) =>
          let e := execution st in
          Ok (finish e Failed (ex_outputPayload e) (recordError e thrown)
                (clock world (ticks st)))
      end
  end.

(** *** Notions used in the proofs *)

(** The entries of the execution record of a run state. *)
Definition stepsOf (st : RunState) : list StepExecution :=
  ex_stepExecutions (execution st).

(** A computation that leaves the execution record alone. *)
Definition keepsExecution {A} (m : Run A) : Prop :=
  forall st r st', m st = (r, st') -> execution st' = execution st.

(** A computation that throws [Error] objects only. *)
Definition isError (t : Thrown) : Prop :=
  exists name message, t = ThrownError name message.

Definition throwsErrors {A} (m : Run A) : Prop :=
  forall st t st', m st = (Throw t, st') -> isError t.

End WithNumbers.

End WorkflowExecutor.

(** ** Data for the examples *)

Module Examples.
Import Js TemplateEngine ExpressionEngine Models WorkflowValidator
  WorkflowExecution WorkflowExecutor.

(** The value of a string of decimal digits. *)
Fixpoint digitsToZ (s : string) (acc : Z) : Z :=
  match s with
  | EmptyString => acc
  | String c s' => digitsToZ s' (10 * acc + Z.of_N (N_of_ascii c) - 48)%Z
  end.

(** The integers as numbers: the operations of [JsNumber] on the doubles that
    are integers.  [parseFloat] is given for strings of decimal digits. *)
Definition IntegerNumber : JsNumber := {|
  number := Z;
  num_of_Z := fun z => z;
  num_add := Z.add;
  num_eqb := Z.eqb;
  num_ltb := Z.ltb;
  num_leb := Z.leb;
  num_truthy := fun z => negb (Z.eqb z 0);
  num_to_string := intToString;
  num_to_json := intToString;
  parseFloat := fun s => digitsToZ s 0
|}.

Section WithNumbers.
Context `{JsNumber}.

(** [{ input: input, steps: stepOutputs, context: {} }] *)
Definition contextOf (inputProps stepOutputs : list (string * value)) : TemplateContext :=
  {| ctx_ref := 0; input_ref := 1; input := inputProps;
     steps_ref := 2; steps := stepOutputs;
     context_ref := 3; context := [] |}.

(** [{ input: { question: 'X' }, steps: {}, context: {} }] *)
Definition questionContext : TemplateContext :=
  contextOf [("question", VStr "X")] [].

(** [steps.s1.output.results] holds two results, each with a [text]. *)
Definition resultsContext : TemplateContext :=
  contextOf []
    [("s1", VObj 4 [("output",
        VObj 5 [("results",
          VArr 6 [VObj 7 [("text", VStr "first")];
                  VObj 8 [("text", VStr "second")]])]);
                    ("metadata", VUndefined)])].

(** A step without parameters and without retry policy. *)
Definition plainStep (id type : string) (nextStepId onFailure : option string)
  : WorkflowStep :=
  {| s_id := id; s_type := type; s_label := id; s_params := VObj 20 [];
     s_nextStepId := nextStepId; s_onSuccess := None; s_onFailure := onFailure;
     s_retry := None |}.

Definition workflowOf (stepList : list WorkflowStep) (entryStepId : string) : Workflow :=
  {| w_id := "wf_test"; w_version := 1; w_entryStepId := entryStepId;
     w_steps := stepList; w_maxSteps := 100; w_maxExecutionTimeMs := Some 30000%Z |}.

(** No step at all; the entry step is [s01]. *)
Definition noSteps : Workflow := workflowOf [] "s01".

(** [a] refers to [b] and, on failure, to [c]; [b] refers back to [a] and
    [c] to itself. *)
Definition twoCycles : Workflow :=
  workflowOf
    [plainStep "a" "LLM" (Some "b") (Some "c");
     plainStep "b" "LLM" (Some "a") None;
     plainStep "c" "LLM" (Some "c") None]
    "a".

(** A successful result and the result of [BaseStepHandler.failure]. *)
Definition okResult : StepResult :=
  {| success := true; output := VObj 30 [("text", VStr "answer")];
     metadata := VObj 31 [("duration", VNum (num_of_Z 5))]; error := None |}.

Definition failedResult : StepResult :=
  {| success := false; output := VNull; metadata := VUndefined;
     error := Some {| re_message := "Collection not found"; re_code := None;
                      re_recoverable := Some false |} |}.

(** A handler that throws at its first two calls and succeeds afterwards. *)
Definition flakyHandler : Handler :=
  {| h_validateParams := fun _ => None;
     h_execute := fun n _ _ =>
       if (n <? 2)%nat then Rejected (ThrownError "Error" "Temporary failure")
       else Resolved okResult |}.

(** A handler that catches its errors and returns a failure result. *)
Definition failingHandler : Handler :=
  {| h_validateParams := fun _ => None;
     h_execute := fun _ _ _ => Resolved failedResult |}.

(** A handler for condition steps that sends the run back to the step
    [check] once, and then to no step. *)
Definition loopHandler : Handler :=
  {| h_validateParams := fun _ => None;
     h_execute := fun n _ _ =>
       Resolved {| success := true;
                   output := VObj 40 [("nextStep",
                                       if (n =? 0)%nat then VStr "check" else VUndefined)];
                   metadata := VUndefined; error := None |} |}.

Definition worldOf (type : string) (handler : Handler) : World :=
  {| registry := {[type := handler]};
     clock := fun n => Z.of_nat (1000 + n);
     generatedId := "exec_1" |}.

(** One step [s1] with [retry: { maxAttempts: 3, backoffMs: 100 }]. *)
Definition retryStep : WorkflowStep :=
  {| s_id := "s1"; s_type := "LLM"; s_label := "s1"; s_params := VObj 20 [];
     s_nextStepId := None; s_onSuccess := None; s_onFailure := None;
     s_retry := Some {| maxAttempts := 3; backoffMs := 100 |} |}.

Definition retryWorkflow : Workflow := workflowOf [retryStep] "s1".

(** One step [s1] without failure edge and without retry policy. *)
Definition oneStep : Workflow := workflowOf [plainStep "s1" "LLM" None None] "s1".

(** One condition step [check] without branch targets. *)
Definition loopWorkflow : Workflow :=
  workflowOf [plainStep "check" "CONDITION" None None] "check".

(** What the caller of [execute] reads in its result: the status of the
    run, whether an error is recorded and, for every entry, the step id, the
    status and the retry count; [None] when [execute] throws. *)
Definition summary (r : Result Thrown WorkflowExecution)
  : option (ExecutionStatus * bool * list (string * StepStatus * Z)) :=
  match r with
  | Ok e =>
      Some (ex_status e,
            match ex_error e with Some _ => true | None => false end,
            map (fun se => (se_stepId se, se_status se, se_retryCount se))
              (ex_stepExecutions e))
  | Throw _ => None
  end.

(** The only step of [loopWorkflow]. *)
Definition checkStep : WorkflowStep := plainStep "check" "CONDITION" None None.

(** A state of a run of [loopWorkflow] in which the step [check] has been
    executed once. *)
Definition secondVisitState : RunState :=
  {| execution :=
       setStepExecutions
         (createWorkflowExecution "exec_1" 1000 "wf_test" 1 "org_test" (VObj 1 []) None)
         [{| se_stepId := "check"; se_stepType := "CONDITION";
             se_status := StepCompleted;
             se_output := VObj 40 [("nextStep", VStr "check")];
             se_error := None; se_startedAt := Some 1004%Z;
             se_completedAt := Some 1005%Z; se_durationMs := VUndefined;
             se_retryCount := 0 |}];
     tctx := contextOf [] []; calls := 1; ticks := 6; slept := []; nextRef := 11 |}.

(** The state of a run of [retryWorkflow] before its first step. *)
Definition startState : RunState :=
  {| execution :=
       createWorkflowExecution "exec_1" 1000 "wf_test" 1 "org_test" (VObj 1 []) None;
     tctx := contextOf [] []; calls := 0; ticks := 2; slept := []; nextRef := 10 |}.

End WithNumbers.

End Examples.

(** ** utils/templateEngine.ts: the variables of a template *)

Module TemplateVariables.
Import Js TemplateEngine.

(** [/\{\{[^}]+\}\}/.test(str)]: the pattern is tried at every position of
    [str], from left to right. *)
Fixpoint hasTemplateVariables (str : string) : bool :=
  match matchPlaceholder str with
  | Some _ => true
  | None =>
      match str with
      | EmptyString => false
      | String _ str' => hasTemplateVariables str'
      end
  end.

(** The [while ((match = pattern.exec(str)) !== null)] loop of
    [extractTemplateVariables]; [s] is the text from [pattern.lastIndex] on.
    A search that fails at a position goes on at the next one, a match is
    followed by a search after it: [String.length s] units of fuel are
    enough. *)
Fixpoint extractLoop (fuel : nat) (s : string) : list string :=
  match fuel with
  | O => []
  | S fuel' =>
      match matchPlaceholder s with
      | Some (path, rest) => trim path :: extractLoop fuel' rest
      | None =>
          match s with
          | EmptyString => []
          | String _ s' => extractLoop fuel' s'
          end
      end
  end.

Definition extractTemplateVariables (str : string) : list string :=
  extractLoop (String.length str) str.

(** A text without dot and without opening bracket: what [parsePath] reads
    as one property name, when it is not empty. *)
Definition isName (s : string) : bool :=
  negb (occurs "." s) && negb (occurs "[" s).

(** The loop of [parsePath] with the fuel that [parsePath] supplies for what
    is left of the path. *)
Definition parseRest (path rest current : string) (parts : list PathPart)
  : Result string (list PathPart) :=
  parsePathLoop (String.length rest) path rest current parts.

End TemplateVariables.


(** ** utils/expressionEngine.ts: the text of a comparison *)

Module ExpressionTokens.
Import Js TemplateEngine ExpressionEngine.

(** A character that [tokenize] adds to the current token outside a string
    literal: no white space, no quote, none of the characters of the
    operators and no parenthesis. *)
Definition isPlainChar (c : ascii) : bool :=
  negb (isWhiteSpace c) && negb (isQuote c)
  && negb (Ascii.eqb c "&") && negb (Ascii.eqb c "|") && negb (Ascii.eqb c "=")
  && negb (Ascii.eqb c "!") && negb (Ascii.eqb c ">") && negb (Ascii.eqb c "<")
  && negb (Ascii.eqb c "(") && negb (Ascii.eqb c ")").

Fixpoint allPlain (s : string) : bool :=
  match s with
  | EmptyString => true
  | String c s' => isPlainChar c && allPlain s'
  end.

(** A text that [tokenize] reads as one token. *)
Definition isPlain (s : string) : bool := nonEmpty s && allPlain s.

(** The elements of [comparisonOps]. *)
Definition operatorText (operator : ComparisonOperator) : string :=
  match operator with
  | OpEq => "=="
  | OpNe => "!="
  | OpGe => ">="
  | OpLe => "<="
  | OpGt => ">"
  | OpLt => "<"
  | OpContains => "contains"
  | OpStartsWith => "startsWith"
  | OpEndsWith => "endsWith"
  end.

(** A string literal: a text between two quotes of the same kind. *)
Definition quoted (q : ascii) (s : string) : string :=
  String q (s +:+ String q EmptyString).

End ExpressionTokens.


(** ** workflows/workflowExecutor.ts: notions used to state properties *)

Module ExecutorNotions.
Import Js TemplateEngine Models WorkflowValidator WorkflowExecution WorkflowExecutor.

Section WithNumbers.
Context `{JsNumber}.

(** The run state after [k] more handler calls and the delays [delays]. *)
Definition afterAttempts (st : RunState) (k : nat) (delays : list Z) : RunState :=
  {| execution := execution st; tctx := tctx st; calls := calls st + k;
     ticks := ticks st; slept := slept st ++ delays; nextRef := nextRef st |}.

(** The delays after the failed attempts [first], [first + 1], ... ([k] of
    them), in the order in which they are slept. *)
Definition backoffDelays (backoffMs first : Z) (k : nat) : list Z :=
  map (fun i => (backoffMs * (first + Z.of_nat i))%Z) (seq 0 k).

(** [options?.maxSteps || workflow.maxSteps] *)
Definition effectiveMaxSteps (workflow : Workflow) (options : option ExecutionOptions) : Z :=
  orElse (options ≫= opt_maxSteps) (w_maxSteps workflow).

(** A character of an identifier: a letter, a digit, [_] or [-]. *)
Definition isIdChar (c : ascii) : bool :=
  let n := nat_of_ascii c in
  isDigit c || ((65 <=? n)%nat && (n <=? 90)%nat) || ((97 <=? n)%nat && (n <=? 122)%nat)
  || Ascii.eqb c "_" || Ascii.eqb c "-".

Fixpoint allIdChars (s : string) : bool :=
  match s with
  | EmptyString => true
  | String c s' => isIdChar c && allIdChars s'
  end.

Definition isIdentifier (s : string) : bool := nonEmpty s && allIdChars s.

(** A computation that leaves a part [f] of the execution record as it is. *)
Definition preserves {A B} (f : WorkflowExecution -> B) (m : Run A) : Prop :=
  forall st r st', m st = (r, st') -> f (execution st') = f (execution st).

(** The entry of a step that has failed before its handler was called. *)
Definition failedEntry (step : WorkflowStep) (message : string) (startedAt completedAt : Z)
  : StepExecution :=
  {| se_stepId := s_id step; se_stepType := s_type step; se_status := StepFailed;
     se_output := VUndefined; se_error := Some message;
     se_startedAt := Some startedAt; se_completedAt := Some completedAt;
     se_durationMs := VUndefined; se_retryCount := 0 |}.

(** What [executeStep] returns or throws when the [try] block has thrown
    [thrown]. *)
Definition failureOutcome (step : WorkflowStep) (thrown : Thrown)
  : Result Thrown (option string) :=
  if isSet (s_onFailure step) then Ok (s_onFailure step)
  else Throw (stepExecutionError
                ("Step '" +:+ s_id step +:+ "' failed: " +:+ errorText thrown)).

(** The path under which the output of a step is stored in the context. *)
Definition outputPath (stepId : string) : string := "steps." +:+ stepId +:+ ".output".

(** An entry of a step that has succeeded. *)
Definition completed (se : StepExecution) : Prop := se_status se = StepCompleted.

(** What [executeStep] returns when the handler has returned [result]. *)
Definition nextOf (step : WorkflowStep) (result : StepResult) : option string :=
  if negb (success result) then s_onFailure step
  else if String.eqb (s_type step) "CONDITION" && truthy (output result)
       then paramString (output result) "nextStep"
       else successTarget step.

(** A handler that returns a successful result at every call and, for a
    step of type [CONDITION], names as next step one to which the step
    refers, or none. *)
Definition alwaysSucceeds (workflow : Workflow) (step : WorkflowStep) (handler : Handler)
  : Prop :=
  forall n sc,
    exists result,
      h_execute handler n (s_params step) sc = Resolved result
      /\ success result = true
      /\ (String.eqb (s_type step) "CONDITION" && truthy (output result) = true ->
          forall next, paramString (output result) "nextStep" = Some next ->
            next <> EmptyString -> edge workflow (s_id step) next).

(** [options?.timeoutMs || workflow.maxExecutionTimeMs] *)
Definition effectiveTimeout (workflow : Workflow) (options : option ExecutionOptions)
  : option Z :=
  match options ≫= opt_timeoutMs with
  | Some t => if (t =? 0)%Z then w_maxExecutionTimeMs workflow else Some t
  | None => w_maxExecutionTimeMs workflow
  end.

(** A part of the execution record that depends neither on the entries of
    the steps nor on the three counters that the steps add to. *)
Definition stepIndependent {C} (f : WorkflowExecution -> C) : Prop :=
  (forall e l, f (setStepExecutions e l) = f e)
  /\ (forall e meta, f (setMetrics e (accumulateMetrics meta (ex_metrics e))) = f e).

(** What identifies a run and its start: the fields of the execution record
    that are set before the first step. *)
Definition header (e : WorkflowExecution) :=
  (ex_id e, ex_workflowId e, ex_workflowVersion e, ex_organizationId e,
   ex_subOrganizationId e, ex_inputPayload e, ex_createdAt e, ex_startedAt e).

End WithNumbers.

End ExecutorNotions.


(** ** [Map<string, V>] *)

Module JsMap.

Section WithValues.
Context {V : Type}.

(** The entries of a map, in insertion order; no two entries have the same
    key. *)
Definition t : Type := list (string * V).

(** [map.get(key)]; [None] is [undefined]. *)
Fixpoint get (m : t) (key : string) : option V :=
  match m with
  | [] => None
  | (k, v) :: rest => if String.eqb k key then Some v else get rest key
  end.

(** [map.has(key)] *)
Definition has (m : t) (key : string) : bool :=
  match get m key with Some _ => true | None => false end.

(** [map.set(key, value)]: the entry of a key that the map has keeps its
    place, a new key is added at the end. *)
Fixpoint set (m : t) (key : string) (value : V) : t :=
  match m with
  | [] => [(key, value)]
  | (k, v) :: rest =>
      if String.eqb k key then (k, value) :: rest else (k, v) :: set rest key value
  end.

(** The map after [map.delete(key)]; the call returns [map.has(key)]. *)
Definition delete (m : t) (key : string) : t :=
  List.filter (fun entry => negb (String.eqb entry.1 key)) m.

(** [Array.from(map.keys())] and [Array.from(map.values())] *)
Definition keys (m : t) : list string := map fst m.
Definition values (m : t) : list V := map snd m.

(** [map.size] *)
Definition size (m : t) : nat := length m.

End WithValues.

Arguments t V : clear implicits.

End JsMap.

(** ** workflows/stepRegistry.ts *)

Module StepRegistry.
Import Js WorkflowExecutor.

Section WithHandlers.
(** The handlers, with their field [type]. *)
Context {H : Type} (typeOf : H -> string).

(** [private handlers = new Map<string, BaseStepHandler>()].  A value of the
    map is [None] when [register(type)] was called without handler:
    [handler!] is then [undefined]. *)
Definition Registry : Type := JsMap.t (option H).

Definition empty : Registry := [].

(** The first argument of [register]: a step type or a handler. *)
Inductive HandlerOrType : Type :=
| OfType (type : string)
| OfHandler (handler : H).

Definition register (r : Registry) (handlerOrType : HandlerOrType) (handler : option H)
  : Registry :=
  match handlerOrType with
  | OfType type => JsMap.set r type handler
  | OfHandler handlerInstance => JsMap.set r (typeOf handlerInstance) (Some handlerInstance)
  end.

(** [get(type)]; [None] is [undefined]. *)
Definition get (r : Registry) (type : string) : option H :=
  match JsMap.get r type with
  | Some stored => stored
  | None => None
  end.

Definition noHandler (type : string) : Thrown :=
  configurationError ("No handler registered for step type '" +:+ type +:+ "'").

Definition getHandler (r : Registry) (type : string) : Result Thrown H :=
  match get r type with
  | Some handler => Ok handler
  | None => Throw (noHandler type)
  end.

Definition has (r : Registry) (type : string) : bool := JsMap.has r type.
Definition hasHandler (r : Registry) (type : string) : bool := JsMap.has r type.

Definition listHandlers (r : Registry) : list (option H) := JsMap.values r.
Definition getRegisteredTypes (r : Registry) : list string := JsMap.keys r.
Definition getAllTypes (r : Registry) : list string := JsMap.keys r.

(** [unregister(type)]: what the call returns, and the registry after it. *)
Definition unregister (r : Registry) (type : string) : bool * Registry :=
  (JsMap.has r type, JsMap.delete r type).

Definition clear (r : Registry) : Registry := [].

(** The key under which [register] stores. *)
Definition registeredType (handlerOrType : HandlerOrType) : string :=
  match handlerOrType with
  | OfType type => type
  | OfHandler handler => typeOf handler
  end.

End WithHandlers.

Section WithNumbers.
Context `{JsNumber}.

(** The registry as the executor reads it: the handler of each type that has
    one. *)
Definition handlersOf (r : Registry (H:=Handler)) : gmap string Handler :=
  list_to_map (omap (fun entry : string * option Handler => pair entry.1 <$> entry.2) r).

End WithNumbers.

End StepRegistry.


(** ** utils/cache.ts *)

Module Cache.
Import Js WorkflowExecutor.

Section WithValues.
(** The values cached; none of them is [undefined]. *)
Context {T : Type}.

(** [interface CacheEntry<T>]; dates and durations are whole numbers of
    milliseconds, [hits] is a counter. *)
Record CacheEntry : Type := {
  value : T;
  expiresAt : Z;
  createdAt : Z;
  hits : Z
}.

(** [class Cache<T>]: the map [store] and the two settings. *)
Record Cache : Type := {
  store : JsMap.t CacheEntry;
  ttlMs : Z;
  maxSize : Z
}.

Definition withStore (c : Cache) (entries : JsMap.t CacheEntry) : Cache :=
  {| store := entries; ttlMs := ttlMs c; maxSize := maxSize c |}.

(** [new Cache(options)] *)
Definition create (optionsTtlMs optionsMaxSize : option Z) : Cache :=
  {| store := []; ttlMs := orElse optionsTtlMs 300000;
     maxSize := orElse optionsMaxSize 1000 |}.

(** [entry.hits++] *)
Definition hit (entry : CacheEntry) : CacheEntry :=
  {| value := value entry; expiresAt := expiresAt entry;
     createdAt := createdAt entry; hits := hits entry + 1 |}.

(** [Date.now() > entry.expiresAt] *)
Definition expired (now : Z) (entry : CacheEntry) : bool := (expiresAt entry <? now)%Z.

(** [get(key)], when [Date.now()] is [now]: what the call returns, [None]
    being [undefined], and the cache after it. *)
Definition get (c : Cache) (key : string) (now : Z) : option T * Cache :=
  match JsMap.get (store c) key with
  | None => (None, c)
  | Some entry =>
      if expired now entry then (None, withStore c (JsMap.delete (store c) key))
      else (Some (value entry), withStore c (JsMap.set (store c) key (hit entry)))
  end.

(** The body of the loop of [evictLRU].  The two variables [lruKey] and
    [lruHits] are assigned together; [None] is their initial state,
    [undefined] and [Infinity]. *)
Definition lruStep (acc : option (string * Z)) (entry : string * CacheEntry)
  : option (string * Z) :=
  match acc with
  | None => Some (entry.1, hits entry.2)
  | Some (_, lruHits) =>
      if (hits entry.2 <? lruHits)%Z then Some (entry.1, hits entry.2) else acc
  end.

(** The value of [lruKey] after the loop. *)
Definition lruKey (c : Cache) : option string :=
  fst <$> fold_left lruStep (store c) None.

Definition evictLRU (c : Cache) : Cache :=
  match lruKey c with
  | Some key => if nonEmpty key then withStore c (JsMap.delete (store c) key) else c
  | None => c
  end.

(** [set(key, value, ttlMs)], when [Date.now()] is [now]. *)
Definition set (c : Cache) (key : string) (v : T) (ttl : option Z) (now : Z) : Cache :=
  let c1 :=
    if (maxSize c <=? Z.of_nat (JsMap.size (store c)))%Z && negb (JsMap.has (store c) key)
    then evictLRU c else c in
  let entry := {| value := v; expiresAt := now + orElse ttl (ttlMs c1);
                  createdAt := now; hits := 0 |} in
  withStore c1 (JsMap.set (store c1) key entry).

(** [delete(key)]: what the call returns, and the cache after it. *)
Definition delete (c : Cache) (key : string) : bool * Cache :=
  (JsMap.has (store c) key, withStore c (JsMap.delete (store c) key)).

Definition clear (c : Cache) : Cache := withStore c [].

(** [has(key)]: [this.get(key) !== undefined], with the effect of [get]. *)
Definition has (c : Cache) (key : string) (now : Z) : bool * Cache :=
  let '(v, c') := get c key now in
  (match v with Some _ => true | None => false end, c').

Definition size (c : Cache) : nat := JsMap.size (store c).
Definition keys (c : Cache) : list string := JsMap.keys (store c).

(** The body of the loop of [cleanup].  The loop goes over the entries of the
    map; their keys are distinct, so that an entry is still in the map when
    the loop comes to it. *)
Definition cleanupStep (now : Z) (acc : nat * JsMap.t CacheEntry)
    (entry : string * CacheEntry) : nat * JsMap.t CacheEntry :=
  if expired now entry.2 then (S acc.1, JsMap.delete acc.2 entry.1) else acc.

(** [cleanup()], when [Date.now()] is [now]: the number returned and the
    cache after the call. *)
Definition cleanup (c : Cache) (now : Z) : nat * Cache :=
  let r := fold_left (cleanupStep now) (store c) (0, store c) in
  (r.1, withStore c r.2).

End WithValues.

Arguments CacheEntry T : clear implicits.
Arguments Cache T : clear implicits.

(** [class WorkflowCache<TWorkflow>] *)
Section WorkflowCache.
Context {TWorkflow : Type}.

Definition newWorkflowCache : Cache TWorkflow := create (Some 600000%Z) (Some 500%Z).

(** [`workflow:${workflowId}:${version}`], for a version that is a whole
    number. *)
Definition workflowKey (workflowId : string) (version : Z) : string :=
  "workflow:" +:+ workflowId +:+ ":" +:+ intToString version.

Definition getWorkflow (c : Cache TWorkflow) (workflowId : string) (version : Z)
    (now : Z) : option TWorkflow * Cache TWorkflow :=
  get c (workflowKey workflowId version) now.

Definition setWorkflow (c : Cache TWorkflow) (workflowId : string) (version : Z)
    (workflow : TWorkflow) (now : Z) : Cache TWorkflow :=
  set c (workflowKey workflowId version) workflow None now.

(** [`workflow:${workflowId}:`] *)
Definition workflowPrefix (workflowId : string) : string :=
  "workflow:" +:+ workflowId +:+ ":".

(** [invalidateWorkflow]: the loop over the keys that the cache has when it
    starts. *)
Definition invalidateWorkflow (c : Cache TWorkflow) (workflowId : string)
  : Cache TWorkflow :=
  fold_left
    (fun acc key =>
       if startsWith key (workflowPrefix workflowId) then (delete acc key).2 else acc)
    (keys c) c.

End WorkflowCache.

End Cache.


(** ** workflows/handlers/conditionStepHandler.ts *)

Module ConditionStepHandler.
Import Js TemplateEngine ExpressionEngine Models WorkflowExecutor.

Section WithNumbers.
Context `{JsNumber}.

(** [ConditionStepParamsSchema.parse(params)]: an object whose [expression]
    and [onTrue] are strings and whose [onFalse] is a string or absent;
    [None] when the schema rejects [params]. *)
Definition parseConditionParams (params : value)
  : option (string * string * option string) :=
  match params with
  | VObj _ _ =>
      match getProperty params "expression", getProperty params "onTrue",
            getProperty params "onFalse" with
      | VStr expression, VStr onTrue, VStr onFalse => Some (expression, onTrue, Some onFalse)
      | VStr expression, VStr onTrue, VUndefined => Some (expression, onTrue, None)
      | _, _, _ => None
      end
  | _ => None
  end.

(** What the handler takes from its environment: the error that the schema
    throws for parameters that it rejects and the text of this error in a
    template literal, and, for each call, the identities of the two objects
    of the result and the duration measured. *)
Variables (zodError : value -> Thrown) (zodText : value -> string)
  (outputRef metadataRef : nat -> nat) (duration : nat -> number).

(** The value of an optional string. *)
Definition optionalString (o : option string) : value :=
  match o with
  | Some s => VStr s
  | None => VUndefined
  end.

(** The result of [execute] for parameters that the schema accepts, at the
    call number [n]. *)
Definition conditionResult (n : nat) (expression onTrue : string)
    (onFalse : option string) (c : TemplateContext) : StepResult :=
  let conditionMet := evaluateExpression expression c in
  let nextStep := if conditionMet then VStr onTrue else optionalString onFalse in
  {| success := true;
     output := VObj (outputRef n)
                 [("conditionMet", VBool conditionMet);
                  ("result", VBool conditionMet);
                  ("nextStep", nextStep);
                  ("nextStepIdOverride", nextStep);
                  ("expression", VStr expression)];
     metadata := VObj (metadataRef n) [("duration", VNum (duration n))];
     error := None |}.

(** [class ConditionStepHandler] *)
Definition conditionHandler : Handler :=
  {| h_validateParams := fun params =>
       match parseConditionParams params with
       | Some _ => None
       | None =>
           Some (stepExecutionError
                   ("Invalid CONDITION step parameters: " +:+ zodText params))
       end;
     h_execute := fun n params sc =>
       match parseConditionParams params with
       | None => Rejected (zodError params)
       | Some (expression, onTrue, onFalse) =>
           Resolved (conditionResult n expression onTrue onFalse (sc_templateContext sc))
       end |}.

End WithNumbers.

End ConditionStepHandler.

(** ** workflows/workflowBuilder.ts *)

Module WorkflowBuilder.
Import Js Models WorkflowValidator WorkflowExecutor.

Section WithNumbers.
Context `{JsNumber}.

(** [class WorkflowBuilder]: the fields of [this.workflow] that the
    validator and the executor read, and [this.steps]. *)
Record Builder : Type := {
  b_id : string;
  b_entryStepId : option string;
  b_maxSteps : Z;
  b_maxExecutionTimeMs : option Z;
  b_steps : list WorkflowStep
}.

(** The constructor; [generatedId] is what [nanoid(10)] returns. *)
Definition create (generatedId : string) : Builder :=
  {| b_id := "wf_" +:+ generatedId; b_entryStepId := None; b_maxSteps := 100;
     b_maxExecutionTimeMs := None; b_steps := [] |}.

Definition withSteps (b : Builder) (stepList : list WorkflowStep) : Builder :=
  {| b_id := b_id b; b_entryStepId := b_entryStepId b; b_maxSteps := b_maxSteps b;
     b_maxExecutionTimeMs := b_maxExecutionTimeMs b; b_steps := stepList |}.

Definition withEntryStep (b : Builder) (entryStepId : option string) : Builder :=
  {| b_id := b_id b; b_entryStepId := entryStepId; b_maxSteps := b_maxSteps b;
     b_maxExecutionTimeMs := b_maxExecutionTimeMs b; b_steps := b_steps b |}.

Definition setEntryStep (b : Builder) (stepId : string) : Builder :=
  withEntryStep b (Some stepId).

Definition setMaxSteps (b : Builder) (maxSteps : Z) : Builder :=
  {| b_id := b_id b; b_entryStepId := b_entryStepId b; b_maxSteps := maxSteps;
     b_maxExecutionTimeMs := b_maxExecutionTimeMs b; b_steps := b_steps b |}.

Definition setMaxExecutionTime (b : Builder) (timeoutMs : Z) : Builder :=
  {| b_id := b_id b; b_entryStepId := b_entryStepId b; b_maxSteps := b_maxSteps b;
     b_maxExecutionTimeMs := Some timeoutMs; b_steps := b_steps b |}.

(** [this.steps.push(step)] *)
Definition addStep (b : Builder) (step : WorkflowStep) : Builder :=
  withSteps b (b_steps b ++ [step]).

(** The argument of [addConditionStep]. *)
Record ConditionConfig : Type := {
  c_id : string;
  c_label : string;
  c_expression : string;
  c_onTrue : string;
  c_onFalse : string
}.

(** The step that [addConditionStep] makes; [paramsRef] is the identity of
    its new [params] object. *)
Definition conditionStep (config : ConditionConfig) (paramsRef : nat) : WorkflowStep :=
  {| s_id := c_id config; s_type := "CONDITION"; s_label := c_label config;
     s_params := VObj paramsRef [("expression", VStr (c_expression config))];
     s_nextStepId := None;
     s_onSuccess := Some (c_onTrue config);
     s_onFailure := Some (c_onFalse config);
     s_retry := None |}.

Definition addConditionStep (b : Builder) (config : ConditionConfig) (paramsRef : nat)
  : Builder :=
  addStep b (conditionStep config paramsRef).

(** [const lastStep = this.steps[this.steps.length - 1]; if (lastStep) ...]:
    nothing changes when there is no step. *)
Definition updateLastStep (f : WorkflowStep -> WorkflowStep) (b : Builder) : Builder :=
  withSteps b (alter f (pred (length (b_steps b))) (b_steps b)).

(** [withRetry(maxAttempts, backoffMs = 1000)]; [None] is an argument that
    is not given. *)
Definition withRetry (b : Builder) (attempts : Z) (backoff : option Z) : Builder :=
  updateLastStep
    (fun step =>
       {| s_id := s_id step; s_type := s_type step; s_label := s_label step;
          s_params := s_params step; s_nextStepId := s_nextStepId step;
          s_onSuccess := s_onSuccess step; s_onFailure := s_onFailure step;
          s_retry := Some {| maxAttempts := attempts;
                             backoffMs := default 1000%Z backoff |} |})
    b.

Definition withErrorHandler (b : Builder) (onFailure : string) : Builder :=
  updateLastStep
    (fun step =>
       {| s_id := s_id step; s_type := s_type step; s_label := s_label step;
          s_params := s_params step; s_nextStepId := s_nextStepId step;
          s_onSuccess := s_onSuccess step; s_onFailure := Some onFailure;
          s_retry := s_retry step |})
    b.

(** [if (!this.workflow.entryStepId && this.steps.length > 0)
       this.workflow.entryStepId = this.steps[0]!.id] *)
Definition withDefaultEntryStep (b : Builder) : Builder :=
  match b_steps b with
  | first :: _ =>
      if isSet (b_entryStepId b) then b else withEntryStep b (Some (s_id first))
  | [] => b
  end.

(** [this.workflow as Workflow].  The entry step is undefined only when the
    builder has no step, and [validate] then returns before it reads the
    field; the empty string stands for it. *)
Definition workflowOfBuilder (b : Builder) : Workflow :=
  {| w_id := b_id b; w_version := 1;
     w_entryStepId := default EmptyString (b_entryStepId b);
     w_steps := b_steps b; w_maxSteps := b_maxSteps b;
     w_maxExecutionTimeMs := b_maxExecutionTimeMs b |}.

Definition newline : string := String (ascii_of_nat 10) EmptyString.

(** [build()]: the workflow, or the error thrown, and the builder after the
    call. *)
Definition build (b : Builder) : Result Thrown Workflow * Builder :=
  let b' := withDefaultEntryStep b in
  let workflow := workflowOfBuilder b' in
  let validationResult := validate workflow in
  if isValid validationResult then (Ok workflow, b')
  else (Throw (ThrownError "Error"
                 ("Workflow validation failed:" +:+ newline
                  +:+ join newline (errors validationResult))),
        b').

(** Steps of which each refers to the next one and to no other step. *)
Fixpoint isPipeline (stepList : list WorkflowStep) : Prop :=
  match stepList with
  | [] => True
  | step :: rest =>
      nextSteps step = match rest with
                       | next :: _ => [s_id next]
                       | [] => []
                       end
      /\ isPipeline rest
  end.

(** The step at the position [i] of [stepList] has the id [x]. *)
Definition stepIdAt (stepList : list WorkflowStep) (i : nat) (x : string) : Prop :=
  exists step, stepList !! i = Some step /\ s_id step = x.

End WithNumbers.

End WorkflowBuilder.

(** ** More example data *)

Module MoreExamples.
Import Js TemplateEngine ExpressionEngine Models WorkflowValidator WorkflowExecution
  WorkflowExecutor Examples ExecutorNotions ConditionStepHandler WorkflowBuilder.

Section WithNumbers.
Context `{JsNumber}.

(** A handler that succeeds at every call. *)
Definition steadyHandler : Handler :=
  {| h_validateParams := fun _ => None;
     h_execute := fun _ _ _ => Resolved okResult |}.

(** A world whose clock stops after a hundred readings. *)
Definition steadyWorld : World :=
  {| registry := {["LLM" := steadyHandler]};
     clock := fun n => Z.of_nat (1000 + Nat.min n 100);
     generatedId := "exec_1" |}.

(** Two steps: [a] refers to [b]. *)
Definition firstOfTwo : WorkflowStep := plainStep "a" "LLM" (Some "b") None.
Definition secondOfTwo : WorkflowStep := plainStep "b" "LLM" None None.
Definition twoSteps : Workflow := workflowOf [firstOfTwo; secondOfTwo] "a".

(** A step whose type has no handler in [worldOf "LLM" flakyHandler]; it has
    a failure edge. *)
Definition searchStep : WorkflowStep := plainStep "s1" "RAG" None (Some "fallback").

(** The only step of [oneStep]. *)
Definition onlyStep : WorkflowStep := plainStep "s1" "LLM" None None.

(** The handler of condition steps, with a schema error whose text is
    [Required], with objects numbered from 100 and a duration of 0. *)
Definition sampleConditionHandler : Handler :=
  conditionHandler
    (fun _ => ThrownError "ZodError" "Required") (fun _ => "ZodError: Required")
    (fun n => 100 + 2 * n) (fun n => 101 + 2 * n) (fun _ => num_of_Z 0).

(** A condition step written by hand, with its branch targets in its
    parameters. *)
Definition branchStep : WorkflowStep :=
  {| s_id := "check"; s_type := "CONDITION"; s_label := "check";
     s_params := VObj 21 [("expression", VStr "input.question == 'X'");
                          ("onTrue", VStr "yes"); ("onFalse", VStr "no")];
     s_nextStepId := None; s_onSuccess := None; s_onFailure := None;
     s_retry := None |}.

(** The argument of [addConditionStep] for the same condition. *)
Definition branchConfig : ConditionConfig :=
  {| c_id := "check"; c_label := "check"; c_expression := "input.question == 'X'";
     c_onTrue := "yes"; c_onFalse := "no" |}.

(** The state of a run with the input [{ question: 'X' }] before its first
    step. *)
Definition questionState : RunState :=
  {| execution :=
       createWorkflowExecution "exec_1" 1000 "wf_test" 1 "org_test"
         (VObj 1 [("question", VStr "X")]) None;
     tctx := questionContext; calls := 0; ticks := 2; slept := []; nextRef := 10 |}.

(** A registry with one handler, registered under [LLM]. *)
Definition sampleRegistry : @StepRegistry.Registry Handler :=
  StepRegistry.register (fun _ : Handler => "LLM") StepRegistry.empty
    (StepRegistry.OfHandler flakyHandler) None.

End WithNumbers.

(** A cache of strings for two entries that is full: [a] has been read
    twice, [b] never. *)
Definition sampleCache : @Cache.Cache string :=
  {| Cache.store :=
       [("a", {| Cache.value := "first"; Cache.expiresAt := 2000;
                 Cache.createdAt := 1000; Cache.hits := 2 |});
        ("b", {| Cache.value := "second"; Cache.expiresAt := 1500;
                 Cache.createdAt := 1100; Cache.hits := 0 |})];
     Cache.ttlMs := 1000; Cache.maxSize := 2 |}.

End MoreExamples.

(** * Properties of the template engine *)

Section TemplateEngineProofs.
Import Js TemplateEngine Examples.
Context `{JsNumber}.

Lemma append_cons (c : ascii) (s t : string) :
  String c s +:+ t = String c (s +:+ t).
Proof. reflexivity. Qed.

Lemma append_empty_l (t : string) : EmptyString +:+ t = t.
Proof. reflexivity. Qed.

Lemma length_append (s t : string) :
  String.length (s +:+ t) = String.length s + String.length t.
Proof.
  induction s as [|c s IH]; [reflexivity|].
  rewrite append_cons. simpl. now rewrite IH.
Qed.

Lemma append_assoc (s t u : string) : (s +:+ t) +:+ u = s +:+ (t +:+ u).
Proof.
  induction s as [|c s IH]; [reflexivity|].
  rewrite !append_cons. now rewrite IH.
Qed.

(** The group [[^}]+] stops at the first closing brace. *)
Lemma spanNotClosingBrace_group (path rest : string) :
  occurs "}" path = false ->
  spanNotClosingBrace (path +:+ String "}" rest) = (path, String "}" rest).
Proof.
  induction path as [|c path IH]; intros Hocc.
  - rewrite append_empty_l. reflexivity.
  - cbn [occurs] in Hocc. apply orb_false_elim in Hocc as [Hc Hrest].
    rewrite append_cons. cbn [spanNotClosingBrace].
    rewrite Ascii.eqb_sym, Hc, (IH Hrest). reflexivity.
Qed.

Lemma spanNotClosingBrace_length (s a b : string) :
  spanNotClosingBrace s = (a, b) ->
  String.length s = String.length a + String.length b.
Proof.
  revert a b. induction s as [|c s IH]; cbn [spanNotClosingBrace]; intros a b Hs.
  - injection Hs as <- <-. reflexivity.
  - destruct (Ascii.eqb c "}").
    + injection Hs as <- <-. reflexivity.
    + destruct (spanNotClosingBrace s) as [a' b'].
      injection Hs as <- <-. simpl. now rewrite (IH a' b').
Qed.

(** A placeholder is matched as a whole, and its group is captured. *)
Lemma matchPlaceholder_placeholder (path rest : string) :
  isGroup path = true ->
  matchPlaceholder (placeholder path +:+ rest) = Some (path, rest).
Proof.
  unfold isGroup, placeholder. intros [Hne Hocc]%andb_prop.
  apply negb_true_iff in Hocc.
  rewrite !append_assoc, !append_cons, !append_empty_l. cbn [matchPlaceholder].
  rewrite !Ascii.eqb_refl. cbn [andb].
  rewrite (spanNotClosingBrace_group _ _ Hocc).
  destruct path; [discriminate|]. rewrite !Ascii.eqb_refl. reflexivity.
Qed.

(** A match consumes at least four characters. *)
Lemma matchPlaceholder_shorter (s path rest : string) :
  matchPlaceholder s = Some (path, rest) ->
  String.length rest < String.length s.
Proof.
  unfold matchPlaceholder.
  destruct s as [|c1 [|c2 s]]; try discriminate.
  destruct (Ascii.eqb c1 "{" && Ascii.eqb c2 "{"); [|discriminate].
  destruct (spanNotClosingBrace s) as [a b] eqn:Hspan.
  apply spanNotClosingBrace_length in Hspan.
  destruct a as [|ca a]; [discriminate|].
  destruct b as [|d1 [|d2 b]]; try discriminate.
  destruct (Ascii.eqb d1 "}" && Ascii.eqb d2 "}"); [|discriminate].
  intros [= <- <-]. cbn [String.length] in *. lia.
Qed.

(** More fuel than the length of the text changes nothing. *)
Lemma replaceAll_fuel (c : TemplateContext) (fuel : nat) (s : string) :
  String.length s <= fuel ->
  replaceAll fuel c s = replaceAll (String.length s) c s.
Proof.
  revert s. induction fuel as [fuel IH] using lt_wf_ind. intros s Hfuel.
  destruct fuel as [|fuel].
  - destruct s; simpl in *; [reflexivity | lia].
  - destruct s as [|ch s]; [reflexivity|].
    cbn [replaceAll String.length] in *.
    destruct (matchPlaceholder (String ch s)) as [[path rest]|] eqn:Hm.
    + apply matchPlaceholder_shorter in Hm. cbn [String.length] in Hm.
      rewrite (IH fuel) by lia. rewrite (IH (String.length s)) by lia.
      reflexivity.
    + rewrite (IH fuel) by lia. reflexivity.
Qed.

Lemma matchPlaceholder_other (ch : ascii) (s : string) :
  Ascii.eqb "{" ch = false -> matchPlaceholder (String ch s) = None.
Proof.
  intros Hch. unfold matchPlaceholder. destruct s; [reflexivity|].
  now rewrite Ascii.eqb_sym, Hch.
Qed.

(** Text without an opening brace is copied. *)
Lemma resolveTemplate_text (c : TemplateContext) (pre s : string) :
  occurs "{" pre = false ->
  resolveTemplate (pre +:+ s) c = pre +:+ resolveTemplate s c.
Proof.
  unfold resolveTemplate. induction pre as [|ch pre IH]; intros Hpre.
  - reflexivity.
  - cbn [occurs] in Hpre. apply orb_false_elim in Hpre as [Hch Hpre].
    rewrite !append_cons. cbn [String.length replaceAll].
    rewrite (matchPlaceholder_other _ _ Hch), (IH Hpre). reflexivity.
Qed.

(** A placeholder is replaced by what the callback returns for its group. *)
Lemma resolveTemplate_placeholder (c : TemplateContext) (path post : string) :
  isGroup path = true ->
  resolveTemplate (placeholder path +:+ post) c
  = replacePlaceholder c path +:+ resolveTemplate post c.
Proof.
  intros Hgroup. unfold resolveTemplate.
  pose proof (matchPlaceholder_placeholder path post Hgroup) as Hm.
  pose proof (matchPlaceholder_shorter _ _ _ Hm) as Hlen.
  destruct (String.length (placeholder path +:+ post)) as [|n] eqn:Hn; [lia|].
  cbn [replaceAll]. rewrite Hm.
  rewrite (replaceAll_fuel c n post) by lia. reflexivity.
Qed.

Lemma splitAtClosingBracket_shorter (s a b : string) :
  splitAtClosingBracket s = Some (a, b) -> String.length b < String.length s.
Proof.
  revert a b. induction s as [|c s IH]; cbn [splitAtClosingBracket]; intros a b Hs.
  - discriminate.
  - destruct (Ascii.eqb c "]").
    + injection Hs as <- <-. simpl. lia.
    + destruct (splitAtClosingBracket s) as [[a' b']|]; [|discriminate].
      injection Hs as <- <-. specialize (IH a' b' eq_refl). simpl. lia.
Qed.

(** More fuel than the length of the path changes nothing. *)
Lemma parsePathLoop_fuel (fuel : nat) (path rest current : string)
    (parts : list PathPart) :
  String.length rest <= fuel ->
  parsePathLoop fuel path rest current parts
  = parsePathLoop (String.length rest) path rest current parts.
Proof.
  revert rest current parts.
  induction fuel as [fuel IH] using lt_wf_ind. intros rest current parts Hfuel.
  destruct rest as [|char rest].
  - destruct fuel; reflexivity.
  - destruct fuel as [|fuel]; cbn [String.length] in Hfuel; [lia|].
    cbn [parsePathLoop String.length].
    destruct (Ascii.eqb char ".").
    + apply IH; lia.
    + destruct (Ascii.eqb char "[").
      * destruct (splitAtClosingBracket rest) as [[indexStr after]|] eqn:Hsplit;
          [|reflexivity].
        apply splitAtClosingBracket_shorter in Hsplit.
        destruct (parseInt indexStr); [|reflexivity].
        rewrite (IH fuel) by lia. rewrite (IH (String.length rest)) by lia.
        reflexivity.
      * apply IH; lia.
Qed.

(** A failing step makes the whole walk fail. *)
Lemma resolveParts_app (before after : list PathPart) (v : value) :
  resolveParts (before ++ after) v
  = match resolveParts before v with
    | Ok current => resolveParts after current
    | Throw e => Throw e
    end.
Proof.
  revert v. induction before as [|part before IH]; intros v; [reflexivity|].
  cbn [app resolveParts]. destruct (resolvePart v part); [apply IH | reflexivity].
Qed.


(** A placeholder whose path resolves is replaced by the formatted value. *)
Lemma resolveTemplate_resolved (c : TemplateContext) (pre path post : string)
    (v : value) :
  occurs "{" pre = false ->
  isGroup path = true ->
  resolvePath (trim path) c = Ok v ->
  resolveTemplate (pre +:+ placeholder path +:+ post) c
  = pre +:+ formatValue v +:+ resolveTemplate post c.
Proof.
  intros Hpre Hgroup Hv.
  rewrite (resolveTemplate_text c pre _ Hpre).
  rewrite (resolveTemplate_placeholder c path post Hgroup).
  unfold replacePlaceholder. now rewrite Hv.
Qed.


End TemplateEngineProofs.

(** * Properties of the expression engine *)

Section ExpressionEngineProofs.
Import Js TemplateEngine ExpressionEngine Examples.
Context `{JsNumber}.

(** [parseValue] removes one token. *)
Lemma parseValue_rest (tokens rest : list string) (v : Value) :
  parseValue tokens = Ok (v, rest) -> length tokens = S (length rest).
Proof.
  destruct tokens as [|token tokens]; [discriminate|].
  unfold parseValue.
  repeat match goal with |- context [if ?b then _ else _] => destruct b end;
    intros [= <- <-]; reflexivity.
Qed.

Lemma headIs_length (token : string) (tokens : list string) :
  headIs token tokens = true -> length tokens = S (length (tail tokens)).
Proof. destruct tokens; [discriminate | reflexivity]. Qed.



Lemma parseComparisonWith_consumes p n :
  consumes p n -> consumes (parseComparisonWith p) (S n).
Proof.
  intros Hp tokens e rest Hlen. unfold parseComparisonWith.
  destruct (headIs "(" tokens) eqn:Hparen.
  - apply headIs_length in Hparen.
    destruct (p (tail tokens)) as [[expr rest']|] eqn:Hinner; [|discriminate].
    apply Hp in Hinner; [|lia].
    destruct (headIs ")" rest') eqn:Hclose.
    + apply headIs_length in Hclose. intros [= <- <-]. lia.
    + intros [= <- <-]. lia.
  - destruct (parseValue tokens) as [[lhs rest1]|] eqn:Hleft; [|discriminate].
    apply parseValue_rest in Hleft.
    destruct rest1 as [|token rest1]; [intros [= <- <-]; lia|].
    destruct (comparisonOperatorOf token); [|intros [= <- <-]; lia].
    destruct (parseValue rest1) as [[rhs rest2]|] eqn:Hright; [|discriminate].
    apply parseValue_rest in Hright. intros [= <- <-]. simpl in *. lia.
Qed.

Lemma parseNotWith_consumes p n :
  consumes p n -> consumes (parseNotWith p) (S n).
Proof.
  intros Hp tokens e rest Hlen. unfold parseNotWith.
  pose proof (parseComparisonWith_consumes p n Hp) as Hc.
  destruct (headIs "!" tokens) eqn:Hnot.
  - apply headIs_length in Hnot.
    destruct (parseComparisonWith p (tail tokens)) as [[expr rest']|] eqn:Hinner;
      [|discriminate].
    apply Hc in Hinner; [|lia]. intros [= <- <-]. lia.
  - intros Hr. apply Hc in Hr; lia.
Qed.

Lemma parseComparisonWith_agree p q n tokens :
  agree p q n -> length tokens <= S n ->
  parseComparisonWith p tokens = parseComparisonWith q tokens.
Proof.
  intros Hpq Hlen. unfold parseComparisonWith.
  destruct (headIs "(" tokens) eqn:Hparen; [|reflexivity].
  apply headIs_length in Hparen. rewrite (Hpq (tail tokens)) by lia. reflexivity.
Qed.

Lemma parseNotWith_agree p q n tokens :
  agree p q n -> length tokens <= S n ->
  parseNotWith p tokens = parseNotWith q tokens.
Proof.
  intros Hpq Hlen. unfold parseNotWith.
  destruct (headIs "!" tokens) eqn:Hnot.
  - apply headIs_length in Hnot.
    rewrite (parseComparisonWith_agree p q n (tail tokens) Hpq) by lia. reflexivity.
  - now rewrite (parseComparisonWith_agree p q n tokens Hpq).
Qed.

(** The loop of [parseLogical]: what it leaves is no longer than what it
    gets, and fuel beyond the number of tokens changes nothing. *)
Lemma parseLogicalLoop_spec pn q n :
  consumes pn n -> agree pn q n ->
  forall fuel fuel' lhs tokens,
    length tokens <= n -> length tokens <= fuel -> length tokens <= fuel' ->
    parseLogicalLoop pn fuel lhs tokens = parseLogicalLoop q fuel' lhs tokens
    /\ (forall e rest, parseLogicalLoop pn fuel lhs tokens = Ok (e, rest) ->
        length rest <= length tokens).
Proof.
  intros Hpn Hagree fuel.
  induction fuel as [fuel IH] using lt_wf_ind.
  intros fuel' lhs tokens Hn Hfuel Hfuel'.
  destruct tokens as [|token tokens].
  { destruct fuel, fuel'; cbn [parseLogicalLoop]; split; try reflexivity;
      intros e rest [= <- <-]; lia. }
  destruct fuel as [|fuel]; [simpl in Hfuel; lia|].
  destruct fuel' as [|fuel']; [simpl in Hfuel'; lia|].
  cbn [parseLogicalLoop].
  destruct (logicalOperatorOf token) as [operator|];
    [|split; [reflexivity | intros e rest [= <- <-]; lia]].
  simpl in Hn, Hfuel, Hfuel'.
  rewrite <- (Hagree tokens) by lia.
  destruct (pn tokens) as [[rhs rest']|] eqn:Hright; [|split; [reflexivity | discriminate]].
  apply Hpn in Hright; [|lia].
  destruct (IH fuel ltac:(lia) fuel' (Logical lhs operator rhs) rest'
              ltac:(lia) ltac:(lia) ltac:(lia)) as [Heq Hrest].
  split; [exact Heq|].
  intros e rest Hr. apply Hrest in Hr. simpl. lia.
Qed.

(** [parseLogical] removes at least one token, and fuel beyond the number of
    tokens changes nothing. *)
Lemma parseLogical_spec (fuel : nat) :
  consumes (parseLogical fuel) fuel
  /\ forall fuel', fuel <= fuel' -> agree (parseLogical fuel) (parseLogical fuel') fuel.
Proof.
  induction fuel as [fuel IH] using lt_wf_ind.
  set (inner := match fuel with
                | O => fun _ : list string => Throw (A:=Expression * list string) "Unexpected end of expression"
                | S fuel0 => parseLogical fuel0
                end).
  assert (Hinner : consumes inner (pred fuel)).
  { destruct fuel as [|fuel0]; [intros ? ? ? ?; discriminate|].
    apply (IH fuel0); lia. }
  assert (Hnot : consumes (parseNotWith inner) fuel).
  { destruct fuel as [|fuel0].
    - intros tokens e rest Hlen. destruct tokens; [|simpl in Hlen; lia].
      discriminate.
    - apply parseNotWith_consumes, Hinner. }
  assert (Hunfold : forall tokens,
             parseLogical fuel tokens
             = match parseNotWith inner tokens with
               | Throw e => Throw e
               | Ok (lhs, rest) =>
                   parseLogicalLoop (parseNotWith inner) (length rest) lhs rest
               end).
  { intros tokens. destruct fuel; reflexivity. }
  split.
  - intros tokens e rest Hlen. rewrite Hunfold.
    destruct (parseNotWith inner tokens) as [[lhs rest1]|] eqn:Hfirst; [|discriminate].
    pose proof (Hnot _ _ _ Hlen Hfirst) as Hshort.
    intros Hloop.
    eapply (proj2 (parseLogicalLoop_spec (parseNotWith inner) (parseNotWith inner) fuel
                     Hnot ltac:(intros ? ?; reflexivity) (length rest1) (length rest1)
                     lhs rest1 ltac:(lia) ltac:(lia) ltac:(lia))) in Hloop.
    lia.
  - intros fuel' Hle tokens Hlen.
    set (inner' := match fuel' with
                   | O => fun _ : list string => Throw (A:=Expression * list string) "Unexpected end of expression"
                   | S fuel0 => parseLogical fuel0
                   end).
    assert (Hunfold' : forall tokens,
               parseLogical fuel' tokens
               = match parseNotWith inner' tokens with
                 | Throw e => Throw e
                 | Ok (lhs, rest) =>
                     parseLogicalLoop (parseNotWith inner') (length rest) lhs rest
                 end).
    { intros ts. destruct fuel'; reflexivity. }
    assert (Hagree : agree inner inner' (pred fuel)).
    { destruct fuel as [|fuel0].
      - intros ts Hts. destruct ts; [|simpl in Hts; lia].
        destruct fuel' as [|fuel0']; [reflexivity|].
        unfold inner, inner'. destruct fuel0'; reflexivity.
      - destruct fuel' as [|fuel0']; [lia|].
        unfold inner, inner'. apply (IH fuel0); lia. }
    assert (Hagree_not : agree (parseNotWith inner) (parseNotWith inner') fuel).
    { intros ts Hts. destruct fuel as [|fuel0].
      - destruct ts; [reflexivity | simpl in Hts; lia].
      - apply (parseNotWith_agree inner inner' fuel0); [exact Hagree | exact Hts]. }
    rewrite Hunfold, Hunfold'. rewrite <- (Hagree_not tokens Hlen).
    destruct (parseNotWith inner tokens) as [[lhs rest1]|] eqn:Hfirst; [|reflexivity].
    pose proof (Hnot _ _ _ Hlen Hfirst) as Hshort.
    apply (parseLogicalLoop_spec (parseNotWith inner) (parseNotWith inner') fuel Hnot Hagree_not);
      lia.
Qed.

(** The fuel that [parseExpression] supplies is enough. *)
Lemma parseLogical_fuel (fuel : nat) (tokens : list string) :
  length tokens <= fuel ->
  parseLogical fuel tokens = parseLogical (length tokens) tokens.
Proof.
  intros Hlen. symmetry.
  apply (proj2 (parseLogical_spec (length tokens)) fuel Hlen tokens). lia.
Qed.


(** C7: [>], [<], [>=] and [<=] are the comparisons of numbers when both
    operands are numbers, and [false] when an operand is not a number; [==]
    and [!=] are strict equality and its negation: operands of different
    types are not equal, [null] is equal to [null] only, and booleans,
    numbers and strings are equal when their values are. *)
Theorem C7_comparisons :
  (forall a b : number,
     evaluateComparison (VNum a) OpGt (VNum b) = num_ltb b a
     /\ evaluateComparison (VNum a) OpLt (VNum b) = num_ltb a b
     /\ evaluateComparison (VNum a) OpGe (VNum b) = num_leb b a
     /\ evaluateComparison (VNum a) OpLe (VNum b) = num_leb a b)
  /\ (forall (l r : value) (operator : ComparisonOperator),
        In operator [OpGt; OpLt; OpGe; OpLe] ->
        isNumber l && isNumber r = false ->
        evaluateComparison l operator r = false)
  /\ (forall l r : value,
        evaluateComparison l OpEq r = strictEquals l r
        /\ evaluateComparison l OpNe r = negb (strictEquals l r))
  /\ (forall l r : value, typeOf l <> typeOf r -> strictEquals l r = false)
  /\ (forall v : value, strictEquals VNull v = true <-> v = VNull)
  /\ (forall v : value, strictEquals v VNull = true <-> v = VNull)
  /\ (forall a b : bool, strictEquals (VBool a) (VBool b) = true <-> a = b)
  /\ (forall a b : string, strictEquals (VStr a) (VStr b) = true <-> a = b)
  /\ (forall a b : number, strictEquals (VNum a) (VNum b) = num_eqb a b).
Proof.
  split; [intros a b; repeat split|].
  split.
  { intros l r operator Hop Hnum.
    destruct Hop as [<-|[<-|[<-|[<-|[]]]]];
      destruct l; try reflexivity; destruct r; try reflexivity; discriminate. }
  split; [intros l r; split; reflexivity|].
  split.
  { intros l r Htype. destruct l, r; try reflexivity; now contradict Htype. }
  split; [intros v; destruct v; split; (discriminate || reflexivity)|].
  split; [intros v; destruct v; split; (discriminate || reflexivity)|].
  split; [intros a b; destruct a, b; split; (discriminate || reflexivity)|].
  split; [|reflexivity].
  intros a b. cbn [strictEquals]. rewrite String.eqb_eq. split; congruence.
Qed.

End ExpressionEngineProofs.

(** * Properties of the workflow validator *)

Section ValidatorProofs.
Import Js Models WorkflowValidator Examples.
Context `{JsNumber}.

Lemma pushIf_app (cond : bool) (message : string) (errs : list string) :
  pushIf cond message errs = errs ++ pushIf cond message [].
Proof. destruct cond; simpl; [reflexivity | now rewrite app_nil_r]. Qed.

Lemma checkReference_app stepIds ref message (errs : list string) :
  checkReference stepIds ref message errs
  = errs ++ checkReference stepIds ref message [].
Proof.
  unfold checkReference. destruct ref as [target|]; [|now rewrite app_nil_r].
  destruct (nonEmpty target && negb (setHas stepIds target));
    [reflexivity | now rewrite app_nil_r].
Qed.

Lemma validateStepReferences_app stepIds (errs : list string) step :
  validateStepReferences stepIds errs step
  = errs ++ validateStepReferences stepIds [] step.
Proof.
  unfold validateStepReferences.
  destruct (String.eqb (s_type step) "CONDITION");
    repeat (rewrite (checkReference_app _ _ _ (checkReference _ _ _ _)));
    rewrite (checkReference_app _ _ _ errs);
    rewrite (checkReference_app _ _ _ []);
    rewrite ?app_assoc, ?app_nil_l; reflexivity.
Qed.

(** The second loop of [validate] appends the errors of every step. *)
Lemma fold_validateStepReferences stepIds (stepList : list WorkflowStep)
    (errs : list string) :
  fold_left (validateStepReferences stepIds) stepList errs
  = errs ++ concat (map (validateStepReferences stepIds []) stepList).
Proof.
  revert errs. induction stepList as [|step stepList IH]; intros errs; simpl.
  - now rewrite app_nil_r.
  - rewrite IH, (validateStepReferences_app stepIds errs step), app_assoc.
    reflexivity.
Qed.

(** With at least one step, the errors of [validate] are those of all its
    checks. *)
Lemma validate_errors (w : Workflow) :
  w_steps w <> [] -> errors (validate w) = allCheckErrors w.
Proof.
  unfold validate, allCheckErrors, stepCountErrors, duplicateErrors, entryErrors,
    referenceErrors, cycleErrors, unreachableErrors.
  destruct (w_steps w) as [|step stepList] eqn:Hsteps; [congruence|].
  intros _. cbn [length Nat.eqb].
  destruct (collectStepIds (step :: stepList)) as [stepIds duplicateIds].
  cbn [fst snd errors].
  rewrite (pushIf_app _ _ (pushIf _ _ (fold_left _ _ _))).
  rewrite (pushIf_app _ _ (fold_left _ _ _)).
  rewrite fold_validateStepReferences.
  rewrite (pushIf_app _ _ (pushIf _ _ (pushIf _ _ _))).
  rewrite (pushIf_app _ _ (pushIf _ _ [])).
  cbn [pushIf app]. rewrite <- !app_assoc. reflexivity.
Qed.

Lemma validate_valid (w : Workflow) :
  valid (validate w) = true <-> errors (validate w) = [].
Proof.
  unfold validate.
  destruct (w_steps w) as [|step stepList]; [cbn; split; congruence|].
  cbn [length Nat.eqb].
  destruct (collectStepIds (step :: stepList)) as [stepIds duplicateIds].
  cbn [errors valid].
  match goal with |- context [length ?l =? 0] => destruct l end; cbn; split; congruence.
Qed.

(** C8, as amended.  On a workflow that has at least one step [validate]
    runs all its checks (step count, duplicate ids, entry step, references,
    cycles, unreachable steps) and collects the errors of all of them, in
    this order; on a workflow without steps it returns at once, with the
    single error that a workflow must have at least one step.  In both cases
    the result is valid exactly when the list of errors is empty, and the
    list of warnings, which is always empty, plays no part in it. *)
Theorem C8_validate_collects_all_errors (w : Workflow) :
  (w_steps w <> [] -> errors (validate w) = allCheckErrors w)
  /\ (w_steps w = [] ->
      errors (validate w) = ["Workflow must have at least one step"])
  /\ (valid (validate w) = true <-> errors (validate w) = [])
  /\ isValid (validate w) = valid (validate w)
  /\ warnings (validate w) = [].
Proof.
  split; [apply validate_errors|].
  split; [intros Hsteps; unfold validate; now rewrite Hsteps|].
  split; [apply validate_valid|].
  unfold validate.
  destruct (w_steps w) as [|step stepList]; [split; reflexivity|].
  cbn [length Nat.eqb].
  destruct (collectStepIds (step :: stepList)) as [stepIds duplicateIds].
  split; reflexivity.
Qed.

(** *** Cycle detection *)


Lemma findStep_stepIdSet (w : Workflow) (x : string) (step : WorkflowStep) :
  findStep w x = Some step -> x ∈ stepIdSet w.
Proof.
  unfold findStep, stepIdSet. intros Hfind.
  apply find_some in Hfind as [Hin Heq].
  apply String.eqb_eq in Heq. subst x.
  apply elem_of_list_to_set, list_elem_of_In, in_map, Hin.
Qed.

Lemma stepIdSet_size (w : Workflow) : size (stepIdSet w) <= length (w_steps w).
Proof.
  unfold stepIdSet. rewrite <- (length_map s_id (w_steps w)).
  generalize (map s_id (w_steps w)) as ids. intros ids.
  induction ids as [|x ids IH].
  - rewrite list_to_set_nil, size_empty. reflexivity.
  - rewrite list_to_set_cons, size_union_alt, size_singleton. simpl.
    assert (size (list_to_set ids ∖ {[x]} : gset string)
            <= size (list_to_set ids : gset string)) as Hle.
    { apply subseteq_size. set_solver. }
    lia.
Qed.

Lemma pushIfSet_elem (ref : option string) (b : string) :
  b ∈ pushIfSet ref <-> ref = Some b /\ b <> EmptyString.
Proof.
  unfold pushIfSet. destruct ref as [target|].
  - destruct target as [|c target]; cbn [nonEmpty].
    + split; [intros []%elem_of_nil | intros [[= <-] Hne]; now contradict Hne].
    + rewrite list_elem_of_singleton. split.
      * intros ->. split; [reflexivity | discriminate].
      * now intros [[= <-] _].
  - split; [intros []%elem_of_nil | intros [[=] _]].
Qed.

(** The edges of the graph are the references that the traversals follow. *)
Lemma edge_nextSteps (w : Workflow) (a b : string) :
  edge w a b <-> exists step, findStep w a = Some step /\ b ∈ nextSteps step.
Proof.
  unfold nextSteps. split.
  - intros [step Hf Hr Hb|step Hf Hr Hb|step Hf Hr Hb|step Hf Ht Hr Hb|step Hf Ht Hr Hb];
      exists step; (split; [exact Hf|]);
      rewrite !elem_of_app, ?Ht, ?String.eqb_refl, ?elem_of_app, !pushIfSet_elem;
      tauto.
  - intros (step & Hf & Hb).
    rewrite !elem_of_app in Hb.
    destruct Hb as [Hb|[Hb|[Hb|Hb]]].
    + apply pushIfSet_elem in Hb as [Hr Hne]. now apply (edge_next w a b step).
    + apply pushIfSet_elem in Hb as [Hr Hne]. now apply (edge_success w a b step).
    + apply pushIfSet_elem in Hb as [Hr Hne]. now apply (edge_failure w a b step).
    + destruct (String.eqb_spec (s_type step) "CONDITION") as [Ht|Ht];
        [|now apply elem_of_nil in Hb].
      apply elem_of_app in Hb as [Hb|Hb]; apply pushIfSet_elem in Hb as [Hr Hne].
      * now apply (edge_true w a b step).
      * now apply (edge_false w a b step).
Qed.

(** A step from which a cycle can be reached refers to such a step. *)
Lemma reachesCycle_successor (w : Workflow) (a : string) :
  reachesCycle w a -> exists b, edge w a b /\ reachesCycle w b.
Proof.
  intros (y & Hpath & Hcycle).
  destruct Hpath as [a | a b y Hedge Hpath].
  - assert (Hfirst : exists b, edge w a b /\ rtc (edge w) b a).
    { clear -Hcycle. generalize Hcycle. generalize a at 2 4 as z.
      intros z Hz. destruct Hz as [a z Hedge | a b z Hedge Hrest].
      - exists z. split; [exact Hedge | apply rtc_refl].
      - exists b. split; [exact Hedge | apply tc_rtc, Hrest]. }
    destruct Hfirst as (b & Hedge & Hback).
    exists b. split; [exact Hedge|]. exists a. split; assumption.
  - exists b. split; [exact Hedge|]. exists y. split; assumption.
Qed.

Lemma isWalk_snoc (w : Workflow) (p : list string) (a b : string) :
  isWalk w (p ++ [a]) -> edge w a b -> isWalk w ((p ++ [a]) ++ [b]).
Proof.
  intros Hwalk Hedge. induction p as [|c p IH]; cbn.
  - split; [exact Hedge | exact I].
  - cbn in Hwalk. destruct (p ++ [a]) as [|d q] eqn:Hq.
    + now destruct p.
    + destruct Hwalk as [Hcd Hwalk]. cbn. split; [exact Hcd|]. apply IH, Hwalk.
Qed.

Lemma head_snoc (p : list string) (a b : string) :
  head ((p ++ [a]) ++ [b]) = head (p ++ [a]).
Proof. destruct p; reflexivity. Qed.




Lemma dfs_unfold (fuel : nat) (w : Workflow) (x : string) (path : list string)
    (st : DfsState) :
  dfs fuel w x path st
  = if bool_decide (x ∈ recursionStack st) then
      {| visited := visited st; recursionStack := recursionStack st;
         circular := circular st ++ [join " -> " (path ++ [x])] |}
    else if bool_decide (x ∈ visited st) then st
    else
      let st1 := {| visited := visited st ∪ {[x]};
                    recursionStack := recursionStack st ∪ {[x]};
                    circular := circular st |} in
      let st2 :=
        match findStep w x, fuel with
        | Some step, S fuel' =>
            fold_left (fun acc nextStep => dfs fuel' w nextStep (path ++ [x]) acc)
              (nextSteps step) st1
        | _, _ => st1
        end in
      {| visited := visited st2; recursionStack := recursionStack st2 ∖ {[x]};
         circular := circular st2 |}.
Proof. destruct fuel; reflexivity. Qed.

(** The [for] loop over the successors of [x], given the property of the
    calls that it makes. *)
Lemma dfs_successors (fuel : nat) (w : Workflow) (x : string) (path : list string) :
  (forall s st,
     size (stepIdSet w ∖ visited st) <= fuel ->
     recursionStack st = list_to_set (path ++ [x]) ->
     edge w x s -> safe w st -> recorded w st ->
     dfsPost w s st (dfs fuel w s (path ++ [x]) st)) ->
  forall (succs : list string) (st : DfsState),
    (forall s, s ∈ succs -> edge w x s) ->
    size (stepIdSet w ∖ visited st) <= fuel ->
    recursionStack st = list_to_set (path ++ [x]) ->
    safe w st -> recorded w st ->
    let st' := fold_left (fun acc s => dfs fuel w s (path ++ [x]) acc) succs st in
    recursionStack st' = recursionStack st
    /\ visited st ⊆ visited st'
    /\ (circular st' = [] -> circular st = [])
    /\ safe w st'
    /\ recorded w st'
    /\ (circular st' = [] ->
        forall s, s ∈ succs -> s ∈ visited st' /\ s ∉ recursionStack st').
Proof.
  intros Hcall succs.
  induction succs as [|s succs IH]; intros st Hedges Hsize Hstack Hsafe Hrec; cbn.
  - split_and!; try done. intros _ s0 []%elem_of_nil.
  - destruct (Hcall s st Hsize Hstack (Hedges s ltac:(left)) Hsafe Hrec)
      as (Hstack1 & Hvis1 & Hcirc1 & Hsafe1 & Hrec1 & Hblack1).
    set (st1 := dfs fuel w s (path ++ [x]) st) in *.
    assert (Hsize1 : size (stepIdSet w ∖ visited st1) <= fuel).
    { etrans; [apply subseteq_size|exact Hsize]. set_solver. }
    destruct (IH st1 ltac:(intros; apply Hedges; now right) Hsize1
                ltac:(congruence) Hsafe1 Hrec1)
      as (Hstack2 & Hvis2 & Hcirc2 & Hsafe2 & Hrec2 & Hblack2).
    split; [congruence|].
    split; [set_solver|].
    split; [tauto|].
    split; [exact Hsafe2|].
    split; [exact Hrec2|].
    intros Hempty s' [->|Hs']%elem_of_cons.
    + destruct (Hblack1 (Hcirc2 Hempty)) as [Hin Hnotin].
      split; [set_solver | congruence].
    + now apply Hblack2.
Qed.

(** The traversal: the depth-first search either records a cycle path or
    leaves behind only steps from which no cycle can be reached. *)
Lemma dfs_spec (w : Workflow) (fuel : nat) :
  forall (x : string) (path : list string) (st : DfsState),
    size (stepIdSet w ∖ visited st) <= fuel ->
    recursionStack st = list_to_set path ->
    head (path ++ [x]) = Some (w_entryStepId w) ->
    isWalk w (path ++ [x]) ->
    safe w st -> recorded w st ->
    dfsPost w x st (dfs fuel w x path st).
Proof.
  induction fuel as [fuel IH] using lt_wf_ind.
  intros x path st Hsize Hstack Hhead Hwalk Hsafe Hrec.
  rewrite dfs_unfold. unfold dfsPost.
  case_bool_decide as Hinstack.
  { (* the step is on the recursion stack: a cycle path is recorded *)
    cbn. split_and!; try done.
    - intros Hnil. now apply app_eq_nil in Hnil as [_ ?].
    - intros Hnil. now apply app_eq_nil in Hnil as [_ ?].
    - apply Forall_app. split; [exact Hrec|]. apply Forall_singleton.
      exists (path ++ [x]). split; [reflexivity|].
      exists path, x. split_and!; try done.
      rewrite Hstack in Hinstack. now apply elem_of_list_to_set in Hinstack.
    - intros Hnil. now apply app_eq_nil in Hnil as [_ ?]. }
  case_bool_decide as Hvisited.
  { split_and!; try done. }
  set (st1 := {| visited := visited st ∪ {[x]};
                 recursionStack := recursionStack st ∪ {[x]};
                 circular := circular st |}).
  assert (Hsafe1 : safe w st1).
  { intros Hnil b Hb Hnb. apply (Hsafe Hnil b); cbn in *; set_solver. }
  assert (Hstack1 : recursionStack st1 = list_to_set (path ++ [x])).
  { cbn. rewrite Hstack, list_to_set_app_L. set_solver. }
  assert (Hloop :
    exists st2,
      match findStep w x, fuel with
      | Some step, S fuel' =>
          fold_left (fun acc nextStep => dfs fuel' w nextStep (path ++ [x]) acc)
            (nextSteps step) st1
      | _, _ => st1
      end = st2
      /\ recursionStack st2 = recursionStack st1
      /\ visited st1 ⊆ visited st2
      /\ (circular st2 = [] -> circular st1 = [])
      /\ safe w st2 /\ recorded w st2
      /\ (circular st2 = [] ->
          forall s, edge w x s -> s ∈ visited st2 /\ s ∉ recursionStack st2)).
  { destruct (findStep w x) as [step|] eqn:Hfind.
    2:{ exists st1. split_and!; try done.
        intros _ s Hedge. apply edge_nextSteps in Hedge as (step & Hf & _).
        congruence. }
    destruct fuel as [|fuel'].
    { exfalso. apply findStep_stepIdSet in Hfind.
      assert (Hpos : size (stepIdSet w ∖ visited st) <> 0); [|lia].
      apply size_non_empty_iff. set_solver. }
    eexists. split; [reflexivity|].
    assert (Hsize1 : size (stepIdSet w ∖ visited st1) <= fuel').
    { apply findStep_stepIdSet in Hfind.
      assert (size (stepIdSet w ∖ visited st1) < size (stepIdSet w ∖ visited st)); [|lia].
      apply subset_size. cbn. set_solver. }
    destruct (dfs_successors fuel' w x path
                ltac:(intros s st0 Hs0 Hst0 He0 Hsafe0 Hrec0;
                      apply (IH fuel'); [lia | exact Hs0 | exact Hst0 | | | exact Hsafe0 | exact Hrec0];
                      [now rewrite head_snoc | now apply isWalk_snoc])
                (nextSteps step) st1
                ltac:(intros s Hs; apply edge_nextSteps; eauto)
                Hsize1 Hstack1 Hsafe1 Hrec)
      as (Hstack2 & Hvis2 & Hcirc2 & Hsafe2 & Hrec2 & Hblack2).
    split_and!; try done.
    intros Hnil s Hedge. apply Hblack2; [exact Hnil|].
    apply edge_nextSteps in Hedge as (step' & Hf & Hs). congruence. }
  destruct Hloop as (st2 & -> & Hstack2 & Hvis2 & Hcirc2 & Hsafe2 & Hrec2 & Hblack2).
  cbn in Hstack2, Hvis2, Hcirc2. cbn.
  split; [rewrite Hstack2; set_solver|].
  split; [set_solver|].
  split; [exact Hcirc2|].
  split.
  { intros Hnil b Hb Hnb. cbn in *.
    destruct (decide (b = x)) as [->|Hbx].
    - intros Hbad. apply reachesCycle_successor in Hbad as (s & Hedge & Hbad).
      destruct (Hblack2 Hnil s Hedge) as [Hs Hns].
      now apply (Hsafe2 Hnil s).
    - apply (Hsafe2 Hnil b Hb). rewrite Hstack2. set_solver. }
  split; [exact Hrec2|].
  intros Hnil. split; [set_solver | rewrite Hstack2; set_solver].
Qed.

(** *** The fuel of the traversals *)

Lemma dfs_visited (w : Workflow) (fuel : nat) :
  forall x path st, visited st ⊆ visited (dfs fuel w x path st).
Proof.
  induction fuel as [fuel IH] using lt_wf_ind. intros x path st.
  rewrite dfs_unfold.
  case_bool_decide; [done|]. case_bool_decide; [done|]. cbn.
  destruct (findStep w x) as [step|]; [|set_solver].
  destruct fuel as [|fuel']; [set_solver|].
  assert (Hfold : forall succs st1,
             visited st1
             ⊆ visited (fold_left (fun acc s => dfs fuel' w s (path ++ [x]) acc) succs st1)).
  { induction succs as [|s succs IHs]; intros st1; cbn; [done|].
    etrans; [|apply IHs]. apply IH. lia. }
  etrans; [|apply Hfold]. cbn. set_solver.
Qed.

(** Fuel beyond the number of steps not yet visited changes nothing: the
    fuel that [detectCircularReferences] supplies is enough. *)
Lemma dfs_fuel (w : Workflow) (fuel : nat) :
  forall fuel' x path st,
    size (stepIdSet w ∖ visited st) <= fuel ->
    size (stepIdSet w ∖ visited st) <= fuel' ->
    dfs fuel w x path st = dfs fuel' w x path st.
Proof.
  induction fuel as [fuel IH] using lt_wf_ind. intros fuel' x path st Hfuel Hfuel'.
  rewrite !dfs_unfold.
  case_bool_decide; [done|]. case_bool_decide as Hvisited; [done|]. cbn zeta.
  destruct (findStep w x) as [step|] eqn:Hfind; [|done].
  apply findStep_stepIdSet in Hfind.
  assert (Hpos : size (stepIdSet w ∖ visited st) <> 0).
  { apply size_non_empty_iff. set_solver. }
  destruct fuel as [|fuel0]; [lia|]. destruct fuel' as [|fuel0']; [lia|].
  set (st1 := {| visited := visited st ∪ {[x]};
                 recursionStack := recursionStack st ∪ {[x]};
                 circular := circular st |}).
  assert (Hsize1 : size (stepIdSet w ∖ visited st1) < size (stepIdSet w ∖ visited st)).
  { apply subset_size. cbn. set_solver. }
  assert (Hfold : forall succs st2,
             size (stepIdSet w ∖ visited st2) <= fuel0 ->
             size (stepIdSet w ∖ visited st2) <= fuel0' ->
             fold_left (fun acc s => dfs fuel0 w s (path ++ [x]) acc) succs st2
             = fold_left (fun acc s => dfs fuel0' w s (path ++ [x]) acc) succs st2).
  { induction succs as [|s succs IHs]; intros st2 H2 H2'; cbn; [done|].
    rewrite <- (IH fuel0 ltac:(lia) fuel0' s (path ++ [x]) st2 H2 H2').
    apply IHs.
    - etrans; [apply subseteq_size|exact H2].
      pose proof (dfs_visited w fuel0 s (path ++ [x]) st2). set_solver.
    - etrans; [apply subseteq_size|exact H2'].
      pose proof (dfs_visited w fuel0 s (path ++ [x]) st2). set_solver. }
  rewrite (Hfold (nextSteps step) st1) by lia. reflexivity.
Qed.

Lemma pushIfSet_length (ref : option string) : length (pushIfSet ref) <= 1.
Proof. destruct ref as [[|c s]|]; cbn; lia. Qed.

Lemma nextSteps_length (step : WorkflowStep) : length (nextSteps step) <= 5.
Proof.
  unfold nextSteps. rewrite !length_app.
  pose proof (pushIfSet_length (s_nextStepId step)).
  pose proof (pushIfSet_length (s_onSuccess step)).
  pose proof (pushIfSet_length (s_onFailure step)).
  destruct (String.eqb (s_type step) "CONDITION"); [|cbn; lia].
  rewrite length_app.
  pose proof (pushIfSet_length (paramString (s_params step) "onTrue")).
  pose proof (pushIfSet_length (paramString (s_params step) "onFalse")).
  lia.
Qed.

(** An iteration of the loop of [findReachableSteps] lowers the length of
    the queue plus five times the number of steps not yet reached; fuel
    beyond this number changes nothing, and the fuel that
    [findReachableSteps] supplies is enough. *)
Lemma bfs_fuel (w : Workflow) (fuel : nat) :
  forall fuel' queue reachable,
    length queue + 5 * size (stepIdSet w ∖ reachable) <= fuel ->
    length queue + 5 * size (stepIdSet w ∖ reachable) <= fuel' ->
    bfs fuel w queue reachable = bfs fuel' w queue reachable.
Proof.
  induction fuel as [|fuel IH]; intros fuel' queue reachable Hfuel Hfuel';
    destruct queue as [|x queue]; cbn [length] in *;
    try lia; try (destruct fuel'; reflexivity).
  destruct fuel' as [|fuel']; [lia|]. cbn [bfs].
  case_bool_decide as Hreached; [apply IH; lia|].
  destruct (findStep w x) as [step|] eqn:Hfind.
  - apply findStep_stepIdSet in Hfind.
    assert (size (stepIdSet w ∖ (reachable ∪ {[x]})) < size (stepIdSet w ∖ reachable)).
    { apply subset_size. set_solver. }
    pose proof (nextSteps_length step).
    apply IH; rewrite length_app; lia.
  - assert (size (stepIdSet w ∖ (reachable ∪ {[x]})) <= size (stepIdSet w ∖ reachable)).
    { apply subseteq_size. set_solver. }
    apply IH; lia.
Qed.

Lemma findReachableSteps_fuel (w : Workflow) (fuel : nat) :
  1 + 5 * length (w_steps w) <= fuel ->
  bfs fuel w [w_entryStepId w] ∅ = findReachableSteps w.
Proof.
  intros Hfuel. unfold findReachableSteps.
  assert (size (stepIdSet w ∖ ∅) <= length (w_steps w)).
  { etrans; [apply subseteq_size | apply stepIdSet_size]. set_solver. }
  apply bfs_fuel; cbn [length]; lia.
Qed.

Lemma detectCircularReferences_fuel (w : Workflow) (fuel : nat) :
  length (w_steps w) <= fuel ->
  circular (dfs fuel w (w_entryStepId w) []
              {| visited := ∅; recursionStack := ∅; circular := [] |})
  = detectCircularReferences w.
Proof.
  intros Hfuel. unfold detectCircularReferences.
  assert (size (stepIdSet w ∖ ∅) <= length (w_steps w)).
  { etrans; [apply subseteq_size | apply stepIdSet_size]. set_solver. }
  f_equal. apply dfs_fuel; cbn [visited]; lia.
Qed.

(** C9: when a cycle can be reached from the entry step along the
    references of the steps ([nextStepId], [onSuccess], [onFailure] and, for
    a condition step, [onTrue] and [onFalse]), the result of [validate] is
    not valid and its errors contain the cycle error, which lists the paths
    that the traversal has recorded: there is at least one, and each of them
    is a walk from the entry step that ends by coming back to a step already
    on it.  The traversal is a total function: it records a path and goes
    on, as on [twoCycles], where it records a path for each of two cycles. *)
Theorem C9_reachable_cycle_is_reported (w : Workflow) :
  reachesCycle w (w_entryStepId w) ->
  valid (validate w) = false
  /\ detectCircularReferences w <> []
  /\ Forall (fun s => exists p, s = join " -> " p /\ isCyclePath w p)
       (detectCircularReferences w)
  /\ In ("circular references detected: " +:+ join ", " (detectCircularReferences w))
       (errors (validate w))
  /\ detectCircularReferences twoCycles = ["a -> b -> a"; "a -> c -> c"].
Proof.
  intros Hcycle.
  assert (Hsteps : w_steps w <> []).
  { apply reachesCycle_successor in Hcycle as (b & Hedge & _).
    apply edge_nextSteps in Hedge as (step & Hfind & _).
    unfold findStep in Hfind. intros Hnil. rewrite Hnil in Hfind. discriminate. }
  pose (st0 := {| visited := ∅; recursionStack := ∅; circular := [] |}).
  destruct (dfs_spec w (length (w_steps w)) (w_entryStepId w) [] st0)
    as (_ & _ & _ & Hsafe & Hrec & Hblack).
  { etrans; [apply subseteq_size | apply stepIdSet_size]. set_solver. }
  { reflexivity. }
  { reflexivity. }
  { exact I. }
  { intros _ b Hb. cbn in Hb. set_solver. }
  { apply Forall_nil_2. }
  fold (detectCircularReferences w) in Hrec.
  assert (Hfound : detectCircularReferences w <> []).
  { intros Hnil. destruct (Hblack Hnil) as [Hin Hnotin].
    now apply (Hsafe Hnil (w_entryStepId w)). }
  assert (Hin : In ("circular references detected: "
                    +:+ join ", " (detectCircularReferences w))
                   (errors (validate w))).
  { rewrite (validate_errors w Hsteps). unfold allCheckErrors, cycleErrors.
    rewrite !in_app_iff. do 4 right. left.
    destruct (detectCircularReferences w); [congruence | now left]. }
  split_and!; try done.
  destruct (valid (validate w)) eqn:Hvalid; [|reflexivity].
  apply validate_valid in Hvalid. rewrite Hvalid in Hin. destruct Hin.
Qed.

End ValidatorProofs.

(** * Properties of the execution record and of the executor *)

Section ExecutorProofs.
Import Js TemplateEngine Models WorkflowValidator WorkflowExecution WorkflowExecutor
  Examples.
Context `{JsNumber}.



Lemma updateStepExecution_entries (e : WorkflowExecution) stepId u :
  ex_stepExecutions (updateStepExecution e stepId u)
  = updateEntries stepId u (ex_stepExecutions e).
Proof.
  unfold updateStepExecution, updateEntries.
  destruct (findIndex stepId (ex_stepExecutions e)); reflexivity.
Qed.

(** [findIndex] gives the first entry with the step id. *)
Lemma findIndex_Some (stepId : string) (l : list StepExecution) (i : nat) :
  findIndex stepId l = Some i <->
  (exists se, l !! i = Some se /\ se_stepId se = stepId)
  /\ (forall j se, j < i -> l !! j = Some se -> se_stepId se <> stepId).
Proof.
  revert i. induction l as [|se l IH]; intros i; cbn [findIndex].
  - split; [discriminate | intros [(se & Hse & _) _]; discriminate].
  - destruct (String.eqb_spec (se_stepId se) stepId) as [Heq|Hne].
    + split.
      * intros [= <-]. split; [now exists se | intros j se' Hj; lia].
      * intros [_ Hfirst]. destruct i as [|i]; [reflexivity|].
        now destruct (Hfirst 0 se ltac:(lia) eq_refl).
    + destruct i as [|i].
      * split.
        -- intros (k & _ & [=])%fmap_Some.
        -- intros [(se' & Hat & Hid) _]. cbn in Hat. congruence.
      * assert (S <$> findIndex stepId l = Some (S i) <-> findIndex stepId l = Some i)
          as ->.
        { destruct (findIndex stepId l); cbn; split; congruence. }
        rewrite IH. split.
        -- intros [Hat Hfirst]. split; [exact Hat|].
           intros [|j] se' Hj; cbn.
           ++ now intros [= <-].
           ++ apply Hfirst. lia.
        -- intros [Hat Hfirst]. split; [exact Hat|].
           intros j se' Hj. apply (Hfirst (S j)). lia.
Qed.

Lemma findIndex_lt (stepId : string) (l : list StepExecution) (i : nat) :
  findIndex stepId l = Some i -> i < length l.
Proof.
  intros [(se & Hse & _) _]%findIndex_Some. now apply lookup_lt_Some in Hse.
Qed.

(** [Object.assign] does not change the step id of an entry, so an update
    does not change what [findIndex] finds. *)
Lemma findIndex_alter (stepId : string) (u : StepUpdate) (i : nat)
    (l : list StepExecution) :
  findIndex stepId (alter (assign u) i l) = findIndex stepId l.
Proof.
  revert i. induction l as [|se l IH]; intros i; [reflexivity|].
  destruct i as [|i]; cbn [alter list_alter findIndex assign se_stepId].
  - reflexivity.
  - now rewrite IH.
Qed.

Lemma findIndex_updateEntries (stepId stepId' : string) (u : StepUpdate)
    (l : list StepExecution) :
  findIndex stepId (updateEntries stepId' u l) = findIndex stepId l.
Proof.
  unfold updateEntries. destruct (findIndex stepId' l); [|reflexivity].
  apply findIndex_alter.
Qed.

Lemma findIndex_app (stepId : string) (l : list StepExecution) (se : StepExecution) :
  findIndex stepId (l ++ [se])
  = match findIndex stepId l with
    | Some i => Some i
    | None => if String.eqb (se_stepId se) stepId then Some (length l) else None
    end.
Proof.
  induction l as [|se' l IH]; cbn [app findIndex length].
  - destruct (String.eqb (se_stepId se) stepId); reflexivity.
  - destruct (String.eqb (se_stepId se') stepId); [reflexivity|].
    rewrite IH. destruct (findIndex stepId l); [reflexivity|].
    destruct (String.eqb (se_stepId se) stepId); reflexivity.
Qed.


Lemma laterEntriesPending_push (l : list StepExecution) (stepId stepType : string) :
  laterEntriesPending l ->
  laterEntriesPending (l ++ [newStepExecution stepId stepType]).
Proof.
  intros Hinv j se Hj Hfirst.
  destruct (decide (j < length l)) as [Hlt|Hge].
  - rewrite lookup_app_l in Hj by exact Hlt. apply (Hinv j se Hj).
    intros Hfound. apply Hfirst. rewrite findIndex_app, Hfound. reflexivity.
  - rewrite lookup_app_r in Hj by lia.
    destruct (j - length l) as [|k]; cbn in Hj; [|destruct k; discriminate].
    injection Hj as <-. reflexivity.
Qed.

Lemma laterEntriesPending_update (l : list StepExecution) (stepId : string)
    (u : StepUpdate) :
  laterEntriesPending l -> laterEntriesPending (updateEntries stepId u l).
Proof.
  intros Hinv j se Hj Hfirst. rewrite findIndex_updateEntries in Hfirst.
  unfold updateEntries in Hj.
  destruct (findIndex stepId l) as [i|] eqn:Hi; [|now apply (Hinv j)].
  destruct (decide (i = j)) as [->|Hne].
  - rewrite list_lookup_alter_eq in Hj.
    destruct (l !! j) as [se0|] eqn:Hse0; [|discriminate].
    injection Hj as <-. cbn [assign se_stepId] in Hfirst.
    pose proof Hi as [(se1 & Hse1 & Hid) _]%findIndex_Some.
    assert (se1 = se0) as -> by congruence. now rewrite Hid in Hfirst.
  - rewrite list_lookup_alter_ne in Hj by exact Hne. now apply (Hinv j).
Qed.

(** *** Computations that leave the execution record alone *)


Lemma keeps_ret {A} (a : A) : keepsExecution (ret a).
Proof. intros st r st' [= _ <-]. reflexivity. Qed.

Lemma keeps_throw {A} (t : Thrown) : keepsExecution (throw (A:=A) t).
Proof. intros st r st' [= _ <-]. reflexivity. Qed.

Lemma keeps_bind {A B} (m : Run A) (k : A -> Run B) :
  keepsExecution m -> (forall a, keepsExecution (k a)) -> keepsExecution (bind m k).
Proof.
  intros Hm Hk st r st'. unfold bind.
  destruct (m st) as [[a|t] st1] eqn:Hrun.
  - intros Hk'. apply Hk in Hk'. apply Hm in Hrun. congruence.
  - intros [= _ <-]. now apply Hm in Hrun.
Qed.

Lemma keeps_tryCatch {A} (body : Run A) (handler : Thrown -> Run A) :
  keepsExecution body -> (forall t, keepsExecution (handler t)) ->
  keepsExecution (tryCatch body handler).
Proof.
  intros Hm Hk st r st'. unfold tryCatch.
  destruct (body st) as [[a|t] st1] eqn:Hrun.
  - intros [= _ <-]. now apply Hm in Hrun.
  - intros Hk'. apply Hk in Hk'. apply Hm in Hrun. congruence.
Qed.

Lemma keeps_sleep (ms : Z) : keepsExecution (sleep ms).
Proof. intros st r st' [= _ <-]. reflexivity. Qed.

Lemma keeps_readClock (world : World) : keepsExecution (readClock world).
Proof. intros st r st' [= _ <-]. reflexivity. Qed.

Lemma keeps_callHandler handler params sc :
  keepsExecution (callHandler handler params sc).
Proof.
  intros st r st'. unfold callHandler.
  destruct (h_execute handler (calls st) params sc); intros [= _ <-]; reflexivity.
Qed.

Lemma keeps_retryLoop (fn : Run StepResult) remaining attempt maxAttempts backoffMs lastError :
  keepsExecution fn ->
  keepsExecution (retryLoop fn remaining attempt maxAttempts backoffMs lastError).
Proof.
  intros Hfn. revert attempt lastError.
  induction remaining as [|remaining IH]; intros attempt lastError; cbn [retryLoop].
  - apply keeps_throw.
  - apply keeps_tryCatch; [exact Hfn|]. intros t.
    apply keeps_bind; [|intros _; apply IH].
    destruct (attempt <? maxAttempts)%Z; [apply keeps_sleep | apply keeps_ret].
Qed.

(** *** What a computation throws *)



Lemma throwsErrors_bind {A B} (m : Run A) (k : A -> Run B) :
  throwsErrors m -> (forall a, throwsErrors (k a)) -> throwsErrors (bind m k).
Proof.
  intros Hm Hk st t st'. unfold bind.
  destruct (m st) as [[a|t'] st1] eqn:Hrun.
  - apply Hk.
  - intros [= <- <-]. now apply Hm in Hrun.
Qed.

Lemma throwsErrors_total {A} (m : Run A) :
  (forall st, exists a st', m st = (Ok a, st')) -> throwsErrors m.
Proof. intros Hm st t st' Hrun. destruct (Hm st) as (a & st1 & Heq). congruence. Qed.

Lemma throwsErrors_throw {A} (name message : string) :
  throwsErrors (throw (A:=A) (ThrownError name message)).
Proof. intros st t st' [= <- _]. now exists name, message. Qed.

(** [executeStep] throws a [StepExecutionError] only. *)
Lemma executeStep_throws world workflow step :
  throwsErrors (executeStep world workflow step).
Proof.
  unfold executeStep.
  apply throwsErrors_bind; [apply throwsErrors_total; intros st; now eexists _, _|].
  intros _. apply throwsErrors_bind; [apply throwsErrors_total; intros st; now eexists _, _|].
  intros time. apply throwsErrors_bind; [apply throwsErrors_total; intros st; now eexists _, _|].
  intros _ st t st'. unfold tryCatch.
  destruct (runStep world workflow step st) as [[next|thrown] st1]; [discriminate|].
  revert st1 t st'.
  apply throwsErrors_bind; [apply throwsErrors_total; intros st0; now eexists _, _|].
  intros time'. apply throwsErrors_bind; [apply throwsErrors_total; intros st0; now eexists _, _|].
  intros _. destruct (isSet (s_onFailure step)).
  - apply throwsErrors_total. intros st0. now eexists _, _.
  - apply throwsErrors_throw.
Qed.

Lemma stepLoop_throws fuel world workflow maxSteps timeoutMs startTime current executed :
  throwsErrors
    (stepLoop fuel world workflow maxSteps timeoutMs startTime current executed).
Proof.
  revert current executed.
  induction fuel as [|fuel IH]; intros current executed;
    destruct current as [stepId|]; cbn [stepLoop];
    try (apply throwsErrors_total; intros st; now eexists _, _);
    (destruct (negb (nonEmpty stepId));
       [apply throwsErrors_total; intros st; now eexists _, _|]);
    (destruct (maxSteps <=? executed)%Z; [apply throwsErrors_throw|]).
  - apply throwsErrors_throw.
  - apply throwsErrors_bind.
    { unfold checkTimeout. destruct timeoutMs as [t|];
        [|apply throwsErrors_total; intros st; now eexists _, _].
      destruct (t =? 0)%Z; [apply throwsErrors_total; intros st; now eexists _, _|].
      apply throwsErrors_bind; [apply throwsErrors_total; intros st; now eexists _, _|].
      intros time. destruct (t <? time - startTime)%Z;
        [apply throwsErrors_throw | apply throwsErrors_total; intros st; now eexists _, _]. }
    intros _. destruct (findStep workflow stepId) as [step|];
      [|apply throwsErrors_throw].
    apply throwsErrors_bind; [apply executeStep_throws|].
    intros next. apply throwsErrors_bind;
      [apply throwsErrors_total; intros st; now eexists _, _ | intros _; apply IH].
Qed.

Lemma executeSteps_throws world workflow options :
  throwsErrors (executeSteps world workflow options).
Proof.
  unfold executeSteps.
  apply throwsErrors_bind; [apply throwsErrors_total; intros st; now eexists _, _|].
  intros startTime. apply stepLoop_throws.
Qed.

(** *** The entries written by one step *)

(** The [try] block either throws before it has touched the execution
    record, or applies one update to the entries: the one that marks the step
    completed or failed. *)
Lemma runStep_effect world workflow step (st : RunState) r st' :
  runStep world workflow step st = (r, st') ->
  (exists t, r = Throw t /\ execution st' = execution st)
  \/ (exists next u,
        r = Ok next
        /\ (u_status u = Some StepCompleted \/ u_status u = Some StepFailed)
        /\ stepsOf st' = updateEntries (s_id step) u (stepsOf st)).
Proof.
  unfold runStep, bind at 1, liftResult.
  destruct (getHandler (registry world) (s_type step)) as [handler|t];
    [|intros [= <- <-]; left; now exists t].
  destruct (h_validateParams handler (s_params step)) as [thrown|];
    [intros [= <- <-]; left; now exists thrown|].
  unfold bind at 1, getState. unfold bind at 1.
  destruct (executeWithRetry _ _ _ st) as [[result|t] st1] eqn:Hretry.
  2:{ intros [= <- <-]. left. exists t. split; [reflexivity|].
      eapply keeps_retryLoop; [|exact Hretry]. apply keeps_callHandler. }
  assert (Hkeep : execution st1 = execution st).
  { eapply keeps_retryLoop; [|exact Hretry]. apply keeps_callHandler. }
  intros Hrest. right.
  exists (if negb (success result) then s_onFailure step
          else if String.eqb (s_type step) "CONDITION" && truthy (output result)
               then paramString (output result) "nextStep"
               else successTarget step).
  eexists {| u_status := Some (if success result then StepCompleted else StepFailed) |}.
  unfold bind, readClock, modifyExecution, storeStepOutput, withExecution in Hrest.
  cbn in Hrest.
  destruct (negb (success result));
    [|destruct (String.eqb (s_type step) "CONDITION" && truthy (output result))];
    injection Hrest as <- <-; (split; [reflexivity|]);
    (split; [cbn; destruct (success result); auto|]);
    unfold stepsOf; cbn; rewrite updateStepExecution_entries, Hkeep; reflexivity.
Qed.

(** [executeStep] appends a pending entry for the step and then applies two
    updates, both addressed to the step id: the one that marks the step
    running and the one that marks it completed or failed. *)
Lemma executeStep_entries world workflow step (st : RunState) r st' :
  executeStep world workflow step st = (r, st') ->
  exists u1 u2,
    u_status u1 = Some StepRunning
    /\ (u_status u2 = Some StepCompleted \/ u_status u2 = Some StepFailed)
    /\ stepsOf st'
       = updateEntries (s_id step) u2
           (updateEntries (s_id step) u1
              (stepsOf st ++ [newStepExecution (s_id step) (s_type step)])).
Proof.
  unfold executeStep, bind at 1 2 3, modifyExecution, readClock. cbn.
  set (st0 := withExecution _ _).
  set (u1 := {| u_status := Some StepRunning; u_output := None; u_error := None;
                u_startedAt := Some (clock world (ticks st));
                u_completedAt := None; u_durationMs := None |}) in *.
  assert (Hst0 : stepsOf st0
                 = updateEntries (s_id step) u1
                     (stepsOf st ++ [newStepExecution (s_id step) (s_type step)])).
  { unfold stepsOf, st0. cbn. now rewrite updateStepExecution_entries. }
  unfold tryCatch.
  destruct (runStep world workflow step st0) as [[next|thrown] st1] eqn:Hrun;
    apply runStep_effect in Hrun as [(t & Ht & Hkeep)|(next' & u & Hr & Hu & Hsteps)];
    try discriminate.
  - intros [= <- <-]. exists u1, u. split; [reflexivity|]. split; [exact Hu|].
    now rewrite Hsteps, Hst0.
  - unfold bind, readClock, modifyExecution. cbn.
    intros Hrest.
    exists u1. eexists {| u_status := Some StepFailed |}.
    split; [reflexivity|]. split; [right; reflexivity|].
    rewrite <- Hst0.
    destruct (isSet (s_onFailure step)); injection Hrest as <- <-;
      unfold stepsOf; cbn; rewrite updateStepExecution_entries, Hkeep; reflexivity.
Qed.

Lemma executeStep_later_entries world workflow step (st : RunState) r st' :
  executeStep world workflow step st = (r, st') ->
  laterEntriesPending (stepsOf st) -> laterEntriesPending (stepsOf st').
Proof.
  intros (u1 & u2 & _ & _ & ->)%executeStep_entries Hinv.
  now apply laterEntriesPending_update, laterEntriesPending_update,
    laterEntriesPending_push.
Qed.

Lemma keeps_checkTimeout world timeoutMs startTime :
  keepsExecution (checkTimeout world timeoutMs startTime).
Proof.
  unfold checkTimeout. destruct timeoutMs as [t|]; [|apply keeps_ret].
  destruct (t =? 0)%Z; [apply keeps_ret|].
  apply keeps_bind; [apply keeps_readClock|]. intros time.
  destruct (t <? time - startTime)%Z; [apply keeps_throw | apply keeps_ret].
Qed.

Lemma stepLoop_later_entries fuel world workflow maxSteps timeoutMs startTime :
  forall current executed (st : RunState) r st',
    stepLoop fuel world workflow maxSteps timeoutMs startTime current executed st
    = (r, st') ->
    laterEntriesPending (stepsOf st) -> laterEntriesPending (stepsOf st').
Proof.
  induction fuel as [|fuel IH]; intros current executed st r st';
    (destruct current as [stepId|]; cbn [stepLoop]; unfold ret, throw;
       [|intros [= _ <-]; tauto]);
    (destruct (negb (nonEmpty stepId)); [intros [= _ <-]; tauto|]);
    (destruct (maxSteps <=? executed)%Z; [intros [= _ <-]; tauto|]).
  - intros [= _ <-]; tauto.
  - unfold bind at 1.
    destruct (checkTimeout world timeoutMs startTime st) as [[[]|t] st1] eqn:Htimeout;
      apply keeps_checkTimeout in Htimeout; unfold stepsOf at 1; rewrite <- Htimeout.
    2:{ now intros [= _ <-]. }
    destruct (findStep workflow stepId) as [step|]; [|now intros [= _ <-]].
    unfold bind at 1.
    destruct (executeStep world workflow step st1) as [[next|t] st2] eqn:Hstep;
      pose proof (executeStep_later_entries _ _ _ _ _ _ Hstep) as Hentries.
    + unfold bind at 1, modifyExecution. intros Hloop Hinv.
      eapply IH; [exact Hloop|]. apply Hentries, Hinv.
    + intros [= _ <-]. exact Hentries.
Qed.


Lemma bind_ext {A B} (m : Run A) (k k' : A -> Run B) (st : RunState) :
  (forall a st', k a st' = k' a st') -> bind m k st = bind m k' st.
Proof. intros Hk. unfold bind. destruct (m st) as [[a|t] st']; [apply Hk | reflexivity]. Qed.

(** Fuel beyond the number of steps that may still run changes nothing:
    the fuel that [executeSteps] supplies is enough. *)
Lemma stepLoop_fuel world workflow maxSteps timeoutMs startTime (fuel : nat) :
  forall fuel' current executed (st : RunState),
    Z.to_nat (maxSteps - executed) <= fuel ->
    Z.to_nat (maxSteps - executed) <= fuel' ->
    stepLoop fuel world workflow maxSteps timeoutMs startTime current executed st
    = stepLoop fuel' world workflow maxSteps timeoutMs startTime current executed st.
Proof.
  induction fuel as [|fuel IH]; intros fuel' current executed st Hfuel Hfuel';
    (destruct current as [stepId|]; [|destruct fuel'; reflexivity]);
    destruct fuel' as [|fuel']; cbn [stepLoop]; try reflexivity;
    (destruct (negb (nonEmpty stepId)); [reflexivity|]);
    (destruct (maxSteps <=? executed)%Z eqn:Hlimit; [reflexivity|]);
    apply Z.leb_gt in Hlimit; try lia.
  apply bind_ext. intros [] st1.
  destruct (findStep workflow stepId) as [step|]; [|reflexivity].
  apply bind_ext. intros next st2. apply bind_ext. intros [] st3.
  apply IH; lia.
Qed.


(** The context given to the handler is the one of the state in which the
    step starts. *)
Lemma stepContextOf_withExecution workflow (st : RunState) (e : WorkflowExecution) :
  ex_organizationId e = ex_organizationId (execution st) ->
  ex_subOrganizationId e = ex_subOrganizationId (execution st) ->
  ex_id e = ex_id (execution st) ->
  stepContextOf workflow (withExecution st e) = stepContextOf workflow st.
Proof. unfold stepContextOf. cbn. now intros -> -> ->. Qed.

Lemma updateStepExecution_identity (e : WorkflowExecution) stepId u :
  ex_organizationId (updateStepExecution e stepId u) = ex_organizationId e
  /\ ex_subOrganizationId (updateStepExecution e stepId u) = ex_subOrganizationId e
  /\ ex_id (updateStepExecution e stepId u) = ex_id e.
Proof.
  unfold updateStepExecution.
  destruct (findIndex stepId (ex_stepExecutions e)); repeat split.
Qed.

(** An update addressed to a step id without earlier entry changes the
    entry that has just been appended. *)
Lemma updateEntries_last (l : list StepExecution) (se : StepExecution) stepId u :
  findIndex stepId l = None -> se_stepId se = stepId ->
  updateEntries stepId u (l ++ [se]) = l ++ [assign u se].
Proof.
  intros Hnone Hid. unfold updateEntries.
  rewrite findIndex_app, Hnone, Hid, String.eqb_refl.
  rewrite <- (Nat.add_0_r (length l)). now rewrite alter_app_r.
Qed.

(** Two rejections and then a result: three calls and two sleeps. *)
Lemma executeWithRetry_third_attempt handler params sc (delay : Z)
    first second result (st : RunState) :
  h_execute handler (calls st) params sc = Rejected first ->
  h_execute handler (S (calls st)) params sc = Rejected second ->
  h_execute handler (S (S (calls st))) params sc = Resolved result ->
  executeWithRetry (callHandler handler params sc) 3 delay st
  = (Ok result,
     {| execution := execution st; tctx := tctx st; calls := 3 + calls st;
        ticks := ticks st; slept := slept st ++ [(delay * 1)%Z; (delay * 2)%Z];
        nextRef := nextRef st |}).
Proof.
  intros Hfirst Hsecond Hthird. unfold executeWithRetry.
  change (Z.to_nat 3) with 3%nat. cbn [retryLoop].
  unfold tryCatch, bind, callHandler, sleep, ret. cbn.
  rewrite Hfirst. cbn. rewrite Hsecond. cbn.
  change (1 + 1)%Z with 2%Z. change (2 <? 3)%Z with true. cbn.
  rewrite Hthird. now rewrite <- app_assoc.
Qed.


End ExecutorProofs.
(** * The properties at concrete inputs *)

Section Instances.
Import Js TemplateEngine ExpressionEngine Models WorkflowValidator
  WorkflowExecution WorkflowExecutor Examples.
#[local] Existing Instance IntegerNumber.



(** C2, on the code: the handler of the only step of [oneStep], which has no
    failure edge, returns a result with [success: false].  The entry of the
    step is marked failed, and the run ends with the status [completed] and
    without error, where the specification asks for the status [failed] and an error
    that carries the id of the step. *)
Lemma C2_failed_result_without_failure_edge_completes_run :
  summary (execute (worldOf "LLM" failingHandler) oneStep "org_test" 1 [] None None 10)
  = Some (Completed, false, [("s1", StepFailed, 0%Z)]).
Proof. vm_compute. reflexivity. Qed.






Lemma C7_witness_string_against_number :
  evaluateComparison (VStr "10") OpGt (VNum 3%Z) = false.
Proof.
  destruct C7_comparisons as (_ & Hother & _).
  apply Hother; [left; reflexivity | reflexivity].
Defined.

(** On a workflow without steps only the first check reports: the entry
    step, which does not exist, is not reported. *)
Lemma C8_counterexample_no_steps :
  errors (validate noSteps) = ["Workflow must have at least one step"]
  /\ entryErrors noSteps
     = ["Entry step 's01' referenced by entryStepId not found in workflow steps"]
  /\ errors (validate noSteps) <> allCheckErrors noSteps.
Proof. split; [reflexivity|]. split; [reflexivity|]. discriminate. Defined.

Lemma C8_witness_all_checks :
  errors (validate twoCycles) = allCheckErrors twoCycles.
Proof.
  destruct (C8_validate_collects_all_errors twoCycles) as (Hall & _).
  apply Hall. discriminate.
Defined.

Lemma C9_witness_two_cycles :
  valid (validate twoCycles) = false
  /\ detectCircularReferences twoCycles <> []
  /\ Forall (fun s => exists p, s = join " -> " p /\ isCyclePath twoCycles p)
       (detectCircularReferences twoCycles)
  /\ In ("circular references detected: "
         +:+ join ", " (detectCircularReferences twoCycles))
       (errors (validate twoCycles))
  /\ detectCircularReferences twoCycles = ["a -> b -> a"; "a -> c -> c"].
Proof.
  apply (C9_reachable_cycle_is_reported twoCycles).
  exists "c". split.
  - apply rtc_once.
    apply (edge_failure twoCycles "a" "c" (plainStep "a" "LLM" (Some "b") (Some "c")));
      (reflexivity || discriminate).
  - apply tc_once.
    apply (edge_next twoCycles "c" "c" (plainStep "c" "LLM" (Some "c") None));
      (reflexivity || discriminate).
Defined.


End Instances.


(** * More properties of the workflow validator *)

Section ValidatorChecks.
Import Js Models WorkflowValidator.
Context `{JsNumber}.

Lemma setHas_elem (s : list string) (x : string) : setHas s x = true <-> x ∈ s.
Proof.
  unfold setHas. rewrite existsb_exists. split.
  - intros (y & Hin & Heq). apply String.eqb_eq in Heq. subst y.
    now apply list_elem_of_In.
  - intros Hin. exists x. split; [now apply list_elem_of_In | apply String.eqb_refl].
Qed.

Lemma setAdd_elem (s : list string) (x y : string) :
  y ∈ setAdd s x <-> y ∈ s \/ y = x.
Proof.
  unfold setAdd. destruct (setHas s x) eqn:Hhas.
  - apply setHas_elem in Hhas. split; [tauto | intros [?| ->]; assumption].
  - rewrite elem_of_app, list_elem_of_singleton. reflexivity.
Qed.

Lemma setAdd_NoDup (s : list string) (x : string) : NoDup s -> NoDup (setAdd s x).
Proof.
  intros Hs. unfold setAdd. destruct (setHas s x) eqn:Hhas; [exact Hs|].
  apply NoDup_app. split; [exact Hs|]. split; [|apply NoDup_singleton].
  intros y Hy ->%list_elem_of_singleton.
  apply setHas_elem in Hy. congruence.
Qed.

(** The first loop of [validate], from any state of its two variables: the
    set gets the ids of the steps, and an id is pushed to the duplicates each
    time it is met while already in the set. *)
Lemma collect_spec (stepList : list WorkflowStep) (stepIds duplicateIds : list string) :
  let r := fold_left
             (fun '(stepIds, duplicateIds) step =>
                (setAdd stepIds (s_id step),
                 if setHas stepIds (s_id step)
                 then duplicateIds ++ [s_id step] else duplicateIds))
             stepList (stepIds, duplicateIds) in
  (forall x, x ∈ r.1 <-> x ∈ stepIds \/ x ∈ map s_id stepList)
  /\ (NoDup stepIds -> NoDup r.1)
  /\ (exists more,
        r.2 = duplicateIds ++ more
        /\ (more = [] <->
            NoDup (map s_id stepList)
            /\ forall x, x ∈ map s_id stepList -> x ∉ stepIds)).
Proof.
  revert stepIds duplicateIds.
  induction stepList as [|step stepList IH]; intros stepIds duplicateIds; cbn zeta.
  - cbn. split; [|split].
    + intros x. rewrite elem_of_nil. tauto.
    + auto.
    + exists []. split; [now rewrite app_nil_r|].
      split; [|reflexivity]. intros _. split; [apply NoDup_nil_2|].
      intros x []%elem_of_nil.
  - cbn [fold_left map].
    destruct (IH (setAdd stepIds (s_id step))
                (if setHas stepIds (s_id step)
                 then duplicateIds ++ [s_id step] else duplicateIds))
      as (Hin & Hnd & more & Hdup & Hmore).
    cbn zeta in Hin, Hnd, Hdup. split; [|split].
    + intros x. rewrite Hin, setAdd_elem, elem_of_cons. tauto.
    + intros Hs. apply Hnd, setAdd_NoDup, Hs.
    + destruct (setHas stepIds (s_id step)) eqn:Hhas.
      * exists (s_id step :: more). split.
        { rewrite Hdup, <- app_assoc. reflexivity. }
        split; [discriminate|]. intros [_ Hfresh]. exfalso.
        apply setHas_elem in Hhas. apply (Hfresh (s_id step)); [now left | exact Hhas].
      * exists more. split; [exact Hdup|]. rewrite Hmore, NoDup_cons.
        assert (Hnot : s_id step ∉ stepIds).
        { intros Hx. apply setHas_elem in Hx. congruence. }
        split.
        { intros [Hnodup Hfresh]. split.
          - split; [|exact Hnodup]. intros Hx.
            apply (Hfresh _ Hx), setAdd_elem. now right.
          - intros x [->|Hx]%elem_of_cons; [exact Hnot|].
            intros Hxs. apply (Hfresh x Hx), setAdd_elem. now left. }
        { intros [[Hhead Hnodup] Hfresh]. split; [exact Hnodup|].
          intros x Hx [Hxs| ->]%setAdd_elem.
          - apply (Hfresh x); [now right | exact Hxs].
          - contradiction. }
Qed.

(** The set of step ids that [validate] builds has the ids of the steps and
    nothing else, each once. *)
Lemma collectStepIds_ids (stepList : list WorkflowStep) (x : string) :
  x ∈ (collectStepIds stepList).1 <-> x ∈ map s_id stepList.
Proof.
  destruct (collect_spec stepList [] []) as (Hin & _ & _).
  unfold collectStepIds. rewrite Hin, elem_of_nil. tauto.
Qed.

Lemma collectStepIds_NoDup (stepList : list WorkflowStep) :
  NoDup (collectStepIds stepList).1.
Proof.
  destruct (collect_spec stepList [] []) as (_ & Hnd & _).
  apply Hnd, NoDup_nil_2.
Qed.

Lemma collectStepIds_duplicates (stepList : list WorkflowStep) :
  (collectStepIds stepList).2 = [] <-> NoDup (map s_id stepList).
Proof.
  destruct (collect_spec stepList [] []) as (_ & _ & more & Hdup & Hmore).
  unfold collectStepIds. cbn zeta in Hdup. rewrite Hdup, app_nil_l, Hmore.
  split; [tauto|]. intros Hnd. split; [exact Hnd|]. intros x _ []%elem_of_nil.
Qed.

Lemma pushIf_nil (cond : bool) (message : string) :
  pushIf cond message [] = [] <-> cond = false.
Proof. destruct cond; cbn; split; congruence. Qed.

Lemma length_pos_nil {A} (l : list A) : (0 <? length l)%nat = false <-> l = [].
Proof. destruct l; cbn; split; congruence. Qed.

Lemma duplicateErrors_nil (w : Workflow) :
  duplicateErrors w = [] <-> NoDup (map s_id (w_steps w)).
Proof.
  unfold duplicateErrors. cbn zeta.
  rewrite pushIf_nil, length_pos_nil. apply collectStepIds_duplicates.
Qed.

Lemma findStep_Some_iff (w : Workflow) (x : string) :
  (exists step, findStep w x = Some step) <-> x ∈ map s_id (w_steps w).
Proof.
  unfold findStep. split.
  - intros (step & Hfind). apply find_some in Hfind as [Hin Heq].
    apply String.eqb_eq in Heq. subst x.
    apply list_elem_of_In, in_map, Hin.
  - intros Hx. apply list_elem_of_In, in_map_iff in Hx as (step & Hid & Hin).
    destruct (find (fun s => String.eqb (s_id s) x) (w_steps w)) as [found|] eqn:Hfind;
      [now exists found|].
    exfalso. apply (find_none _ _ Hfind) in Hin.
    rewrite Hid, String.eqb_refl in Hin. discriminate.
Qed.

Lemma entryErrors_nil (w : Workflow) :
  entryErrors w = [] <-> exists step, findStep w (w_entryStepId w) = Some step.
Proof.
  unfold entryErrors. rewrite pushIf_nil, negb_false_iff, setHas_elem,
    collectStepIds_ids. symmetry. apply findStep_Some_iff.
Qed.

Lemma checkReference_nil (stepIds : list string) (ref : option string)
    (message : string -> string) :
  checkReference stepIds ref message [] = []
  <-> forall t, t ∈ pushIfSet ref -> t ∈ stepIds.
Proof.
  unfold checkReference, pushIfSet. destruct ref as [target|].
  - destruct (nonEmpty target); cbn [andb].
    + destruct (setHas stepIds target) eqn:Hhas; cbn [negb].
      * apply setHas_elem in Hhas. split; [|reflexivity].
        intros _ t ->%list_elem_of_singleton. exact Hhas.
      * split; [discriminate|]. intros Hall. exfalso.
        assert (Hin : target ∈ stepIds) by (apply Hall; now left).
        apply setHas_elem in Hin. congruence.
    + split; [|reflexivity]. intros _ t []%elem_of_nil.
  - split; [|reflexivity]. intros _ t []%elem_of_nil.
Qed.

Lemma validateStepReferences_nil (stepIds : list string) (step : WorkflowStep) :
  validateStepReferences stepIds [] step = []
  <-> forall t, t ∈ nextSteps step -> t ∈ stepIds.
Proof.
  unfold validateStepReferences, nextSteps.
  destruct (String.eqb (s_type step) "CONDITION").
  - rewrite (checkReference_app _ _ _ (checkReference _ _ _ _)).
    rewrite (checkReference_app _ _ _ (checkReference _ _ _ _)).
    rewrite (checkReference_app _ _ _ (checkReference _ _ _ _)).
    rewrite (checkReference_app _ _ _ (checkReference _ _ _ _)).
    rewrite !app_nil, !checkReference_nil.
    setoid_rewrite elem_of_app. setoid_rewrite elem_of_app.
    setoid_rewrite elem_of_app. setoid_rewrite elem_of_app.
    split.
    + intros ((((H1 & H2) & H3) & H4) & H5) t [?|[?|[?|[?|?]]]]; auto.
    + intros Hall. repeat split; intros t Ht; apply Hall; tauto.
  - rewrite (checkReference_app _ _ _ (checkReference _ _ _ _)).
    rewrite (checkReference_app _ _ _ (checkReference _ _ _ _)).
    rewrite !app_nil, !checkReference_nil.
    setoid_rewrite elem_of_app. setoid_rewrite elem_of_app.
    setoid_rewrite elem_of_app.
    split.
    + intros ((H1 & H2) & H3) t [?|[?|[?|[]%elem_of_nil]]]; auto.
    + intros Hall. repeat split; intros t Ht; apply Hall; tauto.
Qed.

Lemma concat_nil_iff {A} (ls : list (list A)) :
  concat ls = [] <-> forall l, l ∈ ls -> l = [].
Proof.
  induction ls as [|l ls IH]; cbn.
  - split; [intros _ l []%elem_of_nil | reflexivity].
  - rewrite app_nil, IH. split.
    + intros [-> Hall] l' [->|Hin]%elem_of_cons; auto.
    + intros Hall. split; [apply Hall; now left|].
      intros l' Hin. apply Hall. now right.
Qed.

Lemma referenceErrors_nil (w : Workflow) :
  referenceErrors w = []
  <-> forall step t,
        step ∈ w_steps w -> t ∈ nextSteps step -> t ∈ map s_id (w_steps w).
Proof.
  unfold referenceErrors. rewrite concat_nil_iff. split.
  - intros Hall step t Hstep Ht.
    apply collectStepIds_ids.
    apply (proj1 (validateStepReferences_nil _ step)); [|exact Ht].
    apply Hall, list_elem_of_fmap. now exists step.
  - intros Hall l (step & -> & Hstep)%list_elem_of_fmap.
    apply validateStepReferences_nil. intros t Ht.
    apply collectStepIds_ids. now apply (Hall step).
Qed.

End ValidatorChecks.

Section ValidatorGraph.
Import Js Models WorkflowValidator.
Context `{JsNumber}.

(** The loop of [findReachableSteps]: what it returns has the ids already
    reached and those of the queue, and is closed under the references of the
    steps when the ids already reached refer to ids reached or queued; not
    more than that, since these three ways of entering the result preserve
    every property [P] that the references of the steps preserve. *)
Lemma bfs_spec (w : Workflow) (fuel : nat) :
  forall queue reachable,
    length queue + 5 * size (stepIdSet w ∖ reachable) <= fuel ->
    let r := bfs fuel w queue reachable in
    reachable ⊆ r
    /\ (forall x, x ∈ queue -> x ∈ r)
    /\ ((forall a b, a ∈ reachable -> edge w a b -> b ∈ reachable \/ b ∈ queue) ->
        forall a b, a ∈ r -> edge w a b -> b ∈ r)
    /\ (forall P : string -> Prop,
          (forall a b, P a -> edge w a b -> P b) ->
          (forall x, x ∈ reachable -> P x) -> (forall x, x ∈ queue -> P x) ->
          forall x, x ∈ r -> P x).
Proof.
  induction fuel as [|fuel IH]; intros queue reachable Hfuel;
    destruct queue as [|x queue]; cbn [length] in Hfuel; try lia; cbn [bfs] in *.
  - split_and!; try done.
    + intros x []%elem_of_nil.
    + intros Hclosed a b Ha Hedge.
      destruct (Hclosed a b Ha Hedge) as [Hb|[]%elem_of_nil]. exact Hb.
  - split_and!; try done.
    + intros x []%elem_of_nil.
    + intros Hclosed a b Ha Hedge.
      destruct (Hclosed a b Ha Hedge) as [Hb|[]%elem_of_nil]. exact Hb.
  - case_bool_decide as Hreached.
    + destruct (IH queue reachable ltac:(lia)) as (Hsub & Hqueue & Hclosed & Hleast).
      split_and!.
      * exact Hsub.
      * intros y [->|Hy]%elem_of_cons; [now apply Hsub | now apply Hqueue].
      * intros Hinv. apply Hclosed. intros a b Ha Hedge.
        destruct (Hinv a b Ha Hedge) as [Hb|[->|Hb]%elem_of_cons]; auto.
      * intros P Hstep Hr Hq. apply Hleast; [exact Hstep | exact Hr |].
        intros y Hy. apply Hq. now right.
    + set (queue' := match findStep w x with
                     | Some step => queue ++ nextSteps step
                     | None => queue
                     end).
      assert (Hmeasure : length queue' + 5 * size (stepIdSet w ∖ (reachable ∪ {[x]}))
                         <= fuel).
      { unfold queue'. destruct (findStep w x) as [step|] eqn:Hfind.
        - apply findStep_stepIdSet in Hfind.
          assert (size (stepIdSet w ∖ (reachable ∪ {[x]}))
                  < size (stepIdSet w ∖ reachable)).
          { apply subset_size. set_solver. }
          pose proof (nextSteps_length step). rewrite length_app. lia.
        - assert (size (stepIdSet w ∖ (reachable ∪ {[x]}))
                  <= size (stepIdSet w ∖ reachable)).
          { apply subseteq_size. set_solver. }
          lia. }
      destruct (IH queue' (reachable ∪ {[x]}) Hmeasure)
        as (Hsub & Hqueue & Hclosed & Hleast).
      assert (Hqq : forall y, y ∈ queue -> y ∈ queue').
      { intros y Hy. unfold queue'. destruct (findStep w x); [|exact Hy].
        apply elem_of_app. now left. }
      split_and!.
      * set_solver.
      * intros y [->|Hy]%elem_of_cons; [set_solver | apply Hqueue, Hqq, Hy].
      * intros Hinv. apply Hclosed. intros a b [Ha| ->%elem_of_singleton]%elem_of_union Hedge.
        { destruct (Hinv a b Ha Hedge) as [Hb|[->|Hb]%elem_of_cons];
            [left; set_solver | left; set_solver | right; apply Hqq, Hb]. }
        { right. apply edge_nextSteps in Hedge as (step & Hfind & Hb).
          unfold queue'. rewrite Hfind. apply elem_of_app. now right. }
      * intros P Hstep Hr Hq. apply Hleast; [exact Hstep | |].
        { intros y [Hy| ->%elem_of_singleton]%elem_of_union;
            [now apply Hr | apply Hq; now left]. }
        { intros y Hy. unfold queue' in Hy.
          destruct (findStep w x) as [step|] eqn:Hfind.
          - apply elem_of_app in Hy as [Hy|Hy]; [apply Hq; now right|].
            apply (Hstep x y); [apply Hq; now left|].
            apply edge_nextSteps. now exists step.
          - apply Hq. now right. }
Qed.

(** [findReachableSteps] returns the step ids to which the references lead
    from the entry step. *)
Lemma findReachableSteps_spec (w : Workflow) (x : string) :
  x ∈ findReachableSteps w <-> rtc (edge w) (w_entryStepId w) x.
Proof.
  unfold findReachableSteps.
  destruct (bfs_spec w (1 + 5 * length (w_steps w)) [w_entryStepId w] ∅)
    as (_ & Hqueue & Hclosed & Hleast).
  { assert (size (stepIdSet w ∖ ∅) <= length (w_steps w)).
    { etrans; [apply subseteq_size | apply stepIdSet_size]. set_solver. }
    cbn [length]. lia. }
  split.
  - apply (Hleast (fun y => rtc (edge w) (w_entryStepId w) y)).
    + intros a b Ha Hedge. eapply rtc_r; eassumption.
    + intros y Hy. set_solver.
    + intros y ->%list_elem_of_singleton. apply rtc_refl.
  - revert x. apply rtc_ind_r.
    + apply Hqueue. now left.
    + intros b c _ Hedge Hb. apply (Hclosed ltac:(set_solver) b c Hb Hedge).
Qed.

(** A walk from [a] to [b], its two ends included. *)
Lemma isWalk_rtc (w : Workflow) (p : list string) (a b : string) :
  isWalk w (a :: p ++ [b]) -> rtc (edge w) a b.
Proof.
  revert a. induction p as [|c p IH]; intros a; cbn.
  - intros [Hedge _]. now apply rtc_once.
  - intros [Hedge Hwalk]. eapply rtc_l; [exact Hedge|]. apply IH, Hwalk.
Qed.

Lemma isWalk_tc (w : Workflow) (p : list string) (a b : string) :
  isWalk w (a :: p ++ [b]) -> tc (edge w) a b.
Proof.
  revert a. induction p as [|c p IH]; intros a; cbn.
  - intros [Hedge _]. now apply tc_once.
  - intros [Hedge Hwalk]. eapply tc_l; [exact Hedge|]. apply IH, Hwalk.
Qed.

Lemma isWalk_app_r (w : Workflow) (p q : list string) :
  isWalk w (p ++ q) -> isWalk w q.
Proof.
  induction p as [|a p IH]; [auto|]. cbn [app isWalk].
  destruct (p ++ q) as [|b r] eqn:Hpq.
  - destruct q; [auto|]. now destruct p.
  - intros [_ Hwalk]. now apply IH.
Qed.

Lemma isWalk_app_l (w : Workflow) (p q : list string) :
  isWalk w (p ++ q) -> isWalk w p.
Proof.
  induction p as [|a p IH]; [now cbn|].
  destruct p as [|b p']; [now cbn|].
  change (isWalk w (a :: (b :: p') ++ q)) with (edge w a b /\ isWalk w ((b :: p') ++ q)).
  change (isWalk w (a :: b :: p')) with (edge w a b /\ isWalk w (b :: p')).
  intros [Hedge Hwalk]. split; [exact Hedge|]. apply IH, Hwalk.
Qed.

(** A cycle path shows a cycle that can be reached from the entry step. *)
Lemma isCyclePath_reachesCycle (w : Workflow) (p : list string) :
  isCyclePath w p -> reachesCycle w (w_entryStepId w).
Proof.
  intros (walk & x & -> & Hx & Hhead & Hwalk).
  apply list_elem_of_split in Hx as (before & after & ->).
  exists x. split.
  - destruct before as [|a before]; cbn in Hhead.
    + injection Hhead as ->. apply rtc_refl.
    + injection Hhead as Ha. rewrite <- Ha.
      apply (isWalk_rtc w before).
      apply (isWalk_app_l w _ (after ++ [x])).
      rewrite <- !app_assoc in Hwalk. cbn [app] in Hwalk |- *.
      rewrite <- app_assoc. exact Hwalk.
  - apply (isWalk_tc w after).
    rewrite <- app_assoc in Hwalk. apply isWalk_app_r in Hwalk. exact Hwalk.
Qed.

(** The traversal from the entry step, with the fuel that
    [detectCircularReferences] supplies. *)
Lemma detectCircularReferences_spec (w : Workflow) :
  Forall (fun s => exists p, s = join " -> " p /\ isCyclePath w p)
    (detectCircularReferences w)
  /\ (detectCircularReferences w = [] <-> ~ reachesCycle w (w_entryStepId w)).
Proof.
  pose (st0 := {| visited := ∅; recursionStack := ∅; circular := [] |}).
  destruct (dfs_spec w (length (w_steps w)) (w_entryStepId w) [] st0)
    as (_ & _ & _ & Hsafe & Hrec & Hblack).
  { etrans; [apply subseteq_size | apply stepIdSet_size]. set_solver. }
  { reflexivity. }
  { reflexivity. }
  { exact I. }
  { intros _ b Hb. cbn in Hb. set_solver. }
  { apply Forall_nil_2. }
  unfold recorded in Hrec.
  change (circular _) with (detectCircularReferences w) in Hrec.
  split; [exact Hrec|]. split.
  - intros Hnil. destruct (Hblack Hnil) as [Hin Hnotin].
    now apply (Hsafe Hnil (w_entryStepId w)).
  - intros Hnone.
    destruct (detectCircularReferences w) as [|s l] eqn:Hd; [reflexivity|].
    exfalso. apply Hnone.
    apply Forall_cons in Hrec as [(p & _ & Hp) _].
    now apply (isCyclePath_reachesCycle w p).
Qed.

Lemma cycleErrors_nil (w : Workflow) :
  cycleErrors w = [] <-> ~ reachesCycle w (w_entryStepId w).
Proof.
  unfold cycleErrors. rewrite pushIf_nil, length_pos_nil.
  apply detectCircularReferences_spec.
Qed.

Lemma filter_nil_iff {A} (f : A -> bool) (l : list A) :
  List.filter f l = [] <-> forall x, x ∈ l -> f x = false.
Proof.
  induction l as [|a l IH]; cbn.
  - split; [intros _ x []%elem_of_nil | reflexivity].
  - destruct (f a) eqn:Hfa.
    + split; [discriminate|]. intros Hall.
      rewrite (Hall a) in Hfa by now left. discriminate.
    + rewrite IH. split.
      * intros Hall x [->|Hx]%elem_of_cons; auto.
      * intros Hall x Hx. apply Hall. now right.
Qed.

Lemma unreachableErrors_nil (w : Workflow) :
  unreachableErrors w = []
  <-> forall step, step ∈ w_steps w -> rtc (edge w) (w_entryStepId w) (s_id step).
Proof.
  unfold unreachableErrors. cbn zeta.
  rewrite pushIf_nil, length_pos_nil, filter_nil_iff. split.
  - intros Hall step Hstep. apply findReachableSteps_spec.
    assert (Hid : s_id step ∈ (collectStepIds (w_steps w)).1).
    { apply collectStepIds_ids, list_elem_of_fmap. now exists step. }
    apply Hall in Hid. apply negb_false_iff, bool_decide_eq_true in Hid. exact Hid.
  - intros Hall x Hx. apply collectStepIds_ids, list_elem_of_fmap in Hx as (step & -> & Hstep).
    apply negb_false_iff, bool_decide_eq_true, findReachableSteps_spec, Hall, Hstep.
Qed.

Lemma stepCountErrors_nil (w : Workflow) :
  stepCountErrors w = []
  <-> w_steps w <> [] /\ (Z.of_nat (length (w_steps w)) <= w_maxSteps w)%Z.
Proof.
  unfold stepCountErrors. rewrite app_nil, !pushIf_nil, Z.ltb_ge, Nat.eqb_neq.
  destruct (w_steps w); cbn; split; intros []; split; (congruence || lia).
Qed.

(** When [validate] accepts a workflow. *)
Lemma validate_valid_iff (w : Workflow) :
  valid (validate w) = true
  <-> w_steps w <> []
      /\ (Z.of_nat (length (w_steps w)) <= w_maxSteps w)%Z
      /\ NoDup (map s_id (w_steps w))
      /\ (exists step, findStep w (w_entryStepId w) = Some step)
      /\ (forall step t,
            step ∈ w_steps w -> t ∈ nextSteps step -> t ∈ map s_id (w_steps w))
      /\ ~ reachesCycle w (w_entryStepId w)
      /\ (forall step, step ∈ w_steps w ->
            rtc (edge w) (w_entryStepId w) (s_id step)).
Proof.
  rewrite validate_valid.
  destruct (w_steps w) as [|step0 stepList] eqn:Hsteps.
  - unfold validate. rewrite Hsteps. cbn. split; [discriminate | intros [? _]; congruence].
  - rewrite validate_errors by congruence.
    unfold allCheckErrors.
    rewrite !app_nil, stepCountErrors_nil, duplicateErrors_nil, entryErrors_nil,
      referenceErrors_nil, cycleErrors_nil, unreachableErrors_nil, Hsteps.
    tauto.
Qed.


(** X2: [findReachableSteps] returns the ids to which the references of the
    steps lead from the entry step, this id included, and no other; the
    error about unreachable steps is absent exactly when every step is among
    them. *)
Theorem reachable_steps_are_those_the_references_lead_to (w : Workflow) :
  (forall x, x ∈ findReachableSteps w <-> rtc (edge w) (w_entryStepId w) x)
  /\ (unreachableErrors w = []
      <-> forall step, step ∈ w_steps w -> s_id step ∈ findReachableSteps w).
Proof.
  split; [apply findReachableSteps_spec|].
  rewrite unreachableErrors_nil.
  split; intros Hall step Hstep; apply findReachableSteps_spec, Hall, Hstep.
Qed.

(** X3: [detectCircularReferences] raises no false alarm: it returns a path
    only when a cycle of references can be reached from the entry step, and
    the error about circular references is absent exactly when there is no
    such cycle. *)
Theorem cycle_is_reported_only_when_there_is_one (w : Workflow) :
  (detectCircularReferences w = [] <-> ~ reachesCycle w (w_entryStepId w))
  /\ (cycleErrors w = [] <-> ~ reachesCycle w (w_entryStepId w))
  /\ (forall s, s ∈ detectCircularReferences w -> reachesCycle w (w_entryStepId w)).
Proof.
  destruct (detectCircularReferences_spec w) as [Hpaths Hnil].
  split; [exact Hnil|]. split; [apply cycleErrors_nil|].
  intros s Hs. rewrite Forall_forall in Hpaths.
  destruct (Hpaths s Hs) as (p & _ & Hp).
  now apply (isCyclePath_reachesCycle w p).
Qed.


End ValidatorGraph.

(** * More properties of the template engine *)

Section TemplateVariablesProofs.
Import Js TemplateEngine TemplateVariables.
Context `{JsNumber}.

Lemma extractLoop_fuel (fuel : nat) (s : string) :
  String.length s <= fuel -> extractLoop fuel s = extractLoop (String.length s) s.
Proof.
  revert s. induction fuel as [fuel IH] using lt_wf_ind. intros s Hfuel.
  destruct fuel as [|fuel].
  - destruct s; simpl in *; [reflexivity | lia].
  - destruct s as [|ch s]; [reflexivity|].
    cbn [extractLoop String.length] in *.
    destruct (matchPlaceholder (String ch s)) as [[path rest]|] eqn:Hm.
    + apply matchPlaceholder_shorter in Hm. cbn [String.length] in Hm.
      rewrite (IH fuel) by lia. rewrite (IH (String.length s)) by lia.
      reflexivity.
    + rewrite (IH fuel) by lia. reflexivity.
Qed.

(** The equations of the three scans of a text for placeholders. *)
Lemma extractTemplateVariables_unfold (s : string) :
  extractTemplateVariables s
  = match matchPlaceholder s with
    | Some (path, rest) => trim path :: extractTemplateVariables rest
    | None =>
        match s with
        | EmptyString => []
        | String _ s' => extractTemplateVariables s'
        end
    end.
Proof.
  unfold extractTemplateVariables. destruct s as [|ch s]; [reflexivity|].
  cbn [String.length extractLoop].
  destruct (matchPlaceholder (String ch s)) as [[path rest]|] eqn:Hm; [|reflexivity].
  apply matchPlaceholder_shorter in Hm. cbn [String.length] in Hm.
  rewrite (extractLoop_fuel (String.length s) rest) by lia. reflexivity.
Qed.

Lemma resolveTemplate_unfold (c : TemplateContext) (s : string) :
  resolveTemplate s c
  = match matchPlaceholder s with
    | Some (path, rest) => replacePlaceholder c path +:+ resolveTemplate rest c
    | None =>
        match s with
        | EmptyString => EmptyString
        | String ch s' => String ch (resolveTemplate s' c)
        end
    end.
Proof.
  unfold resolveTemplate. destruct s as [|ch s]; [reflexivity|].
  cbn [String.length replaceAll].
  destruct (matchPlaceholder (String ch s)) as [[path rest]|] eqn:Hm; [|reflexivity].
  apply matchPlaceholder_shorter in Hm. cbn [String.length] in Hm.
  rewrite (replaceAll_fuel c (String.length s) rest) by lia. reflexivity.
Qed.

Lemma hasTemplateVariables_unfold (s : string) :
  hasTemplateVariables s
  = match matchPlaceholder s with
    | Some _ => true
    | None =>
        match s with
        | EmptyString => false
        | String _ s' => hasTemplateVariables s'
        end
    end.
Proof. destruct s; reflexivity. Qed.

(** Induction on a text along the scan: a text is empty, or starts with a
    placeholder and goes on after it, or starts with a character at which
    there is no placeholder. *)
Lemma scan_ind (P : string -> Prop) :
  P EmptyString ->
  (forall s path rest, matchPlaceholder s = Some (path, rest) -> P rest -> P s) ->
  (forall ch s, matchPlaceholder (String ch s) = None -> P s -> P (String ch s)) ->
  forall s, P s.
Proof.
  intros Hempty Hmatch Hchar s.
  remember (String.length s) as n eqn:Hn. revert s Hn.
  induction n as [n IH] using lt_wf_ind. intros s Hn.
  destruct (matchPlaceholder s) as [[path rest]|] eqn:Hm.
  - apply (Hmatch s path rest Hm).
    apply matchPlaceholder_shorter in Hm.
    apply (IH (String.length rest)); [lia | reflexivity].
  - destruct s as [|ch s]; [exact Hempty|].
    apply (Hchar ch s Hm). cbn [String.length] in Hn.
    apply (IH (String.length s)); [lia | reflexivity].
Qed.

Lemma hasTemplateVariables_extract (s : string) :
  hasTemplateVariables s = true <-> extractTemplateVariables s <> [].
Proof.
  induction s as [|s path rest Hm IH|ch s Hm IH] using scan_ind.
  - cbn. split; [discriminate | congruence].
  - rewrite hasTemplateVariables_unfold, extractTemplateVariables_unfold, Hm.
    split; [discriminate | reflexivity].
  - rewrite hasTemplateVariables_unfold, extractTemplateVariables_unfold, Hm.
    exact IH.
Qed.

Lemma resolveTemplate_without_variables (c : TemplateContext) (s : string) :
  hasTemplateVariables s = false -> resolveTemplate s c = s.
Proof.
  induction s as [|s path rest Hm IH|ch s Hm IH] using scan_ind.
  - reflexivity.
  - rewrite hasTemplateVariables_unfold, Hm. discriminate.
  - rewrite hasTemplateVariables_unfold, resolveTemplate_unfold, Hm.
    intros Hs. now rewrite IH.
Qed.

(** The result of [resolveTemplate] depends on the context through the
    variables of the template only. *)
Lemma resolveTemplate_depends_on_variables (c1 c2 : TemplateContext) (s : string) :
  (forall path, path ∈ extractTemplateVariables s ->
     resolvePath path c1 = resolvePath path c2) ->
  resolveTemplate s c1 = resolveTemplate s c2.
Proof.
  induction s as [|s path rest Hm IH|ch s Hm IH] using scan_ind.
  - reflexivity.
  - rewrite extractTemplateVariables_unfold, (resolveTemplate_unfold c1 s),
      (resolveTemplate_unfold c2 s), Hm.
    intros Hsame. rewrite IH by (intros p Hp; apply Hsame; now right).
    unfold replacePlaceholder. rewrite (Hsame (trim path)) by now left.
    reflexivity.
  - rewrite extractTemplateVariables_unfold, (resolveTemplate_unfold c1 (String ch s)),
      (resolveTemplate_unfold c2 (String ch s)), Hm.
    intros Hsame. now rewrite IH.
Qed.

(** X5: text without placeholder is returned as it is, and a template has a
    placeholder exactly when [extractTemplateVariables] finds a variable in
    it. *)
Theorem template_without_variables_is_unchanged :
  (forall s, hasTemplateVariables s = true <-> extractTemplateVariables s <> [])
  /\ (forall (c : TemplateContext) s,
        hasTemplateVariables s = false -> resolveTemplate s c = s)
  /\ (forall (c : TemplateContext) s,
        extractTemplateVariables s = [] -> resolveTemplate s c = s).
Proof.
  split; [exact hasTemplateVariables_extract|].
  split; [exact resolveTemplate_without_variables|].
  intros c s Hnone. apply resolveTemplate_without_variables.
  destruct (hasTemplateVariables s) eqn:Hhas; [|reflexivity].
  now apply hasTemplateVariables_extract in Hhas.
Qed.


End TemplateVariablesProofs.

Section ParsePathProofs.
Import Js TemplateEngine TemplateVariables.
Context `{JsNumber}.

Lemma append_empty_r (s : string) : s +:+ EmptyString = s.
Proof. induction s as [|c s IH]; [reflexivity|]. now rewrite append_cons, IH. Qed.

Lemma occurs_append (c : ascii) (s t : string) :
  occurs c (s +:+ t) = occurs c s || occurs c t.
Proof.
  induction s as [|d s IH]; [reflexivity|].
  rewrite append_cons. cbn [occurs]. now rewrite IH, orb_assoc.
Qed.

Lemma parsePath_parseRest (path : string) :
  parsePath path = parseRest path path EmptyString [].
Proof. reflexivity. Qed.

Lemma parseRest_end (path current : string) (parts : list PathPart) :
  parseRest path EmptyString current parts = Ok (parts ++ flush current).
Proof. reflexivity. Qed.

Lemma parseRest_dot (path rest current : string) (parts : list PathPart) :
  parseRest path (String "." rest) current parts
  = parseRest path rest EmptyString (parts ++ flush current).
Proof. reflexivity. Qed.

Lemma parseRest_char (path rest current : string) (parts : list PathPart) (c : ascii) :
  Ascii.eqb c "." = false -> Ascii.eqb c "[" = false ->
  parseRest path (String c rest) current parts
  = parseRest path rest (current +:+ String c EmptyString) parts.
Proof.
  intros Hdot Hbracket. unfold parseRest. cbn [String.length parsePathLoop].
  now rewrite Hdot, Hbracket.
Qed.

Lemma parseRest_bracket (path rest current : string) (parts : list PathPart) :
  parseRest path (String "[" rest) current parts
  = match splitAtClosingBracket rest with
    | None => Throw ("Missing closing bracket in path: " +:+ path)
    | Some (indexStr, after) =>
        match parseInt indexStr with
        | None => Throw ("Invalid array index: " +:+ indexStr)
        | Some index =>
            parseRest path after EmptyString ((parts ++ flush current) ++ [Index index])
        end
    end.
Proof.
  unfold parseRest. cbn [String.length parsePathLoop Ascii.eqb].
  change (Ascii.eqb "[" ".") with false. change (Ascii.eqb "[" "[") with true.
  cbn match.
  destruct (splitAtClosingBracket rest) as [[indexStr after]|] eqn:Hsplit; [|reflexivity].
  destruct (parseInt indexStr) as [index|]; [|reflexivity].
  apply splitAtClosingBracket_shorter in Hsplit.
  apply parsePathLoop_fuel. lia.
Qed.

(** A name is read into [current]. *)
Lemma parseRest_name (path name rest current : string) (parts : list PathPart) :
  isName name = true ->
  parseRest path (name +:+ rest) current parts
  = parseRest path rest (current +:+ name) parts.
Proof.
  unfold isName. revert current.
  induction name as [|c name IH]; intros current Hname.
  - now rewrite append_empty_l, append_empty_r.
  - cbn [occurs] in Hname.
    apply andb_prop in Hname as [Hdot Hbracket].
    apply negb_true_iff, orb_false_elim in Hdot as [Hdot Hdots].
    apply negb_true_iff, orb_false_elim in Hbracket as [Hbracket Hbrackets].
    rewrite append_cons, parseRest_char by (now rewrite Ascii.eqb_sym).
    rewrite IH by (now rewrite Hdots, Hbrackets).
    now rewrite append_assoc.
Qed.

(** The names of a dotted path, one property each; an empty name, between
    two dots or at an end of the path, is skipped. *)
Lemma parseRest_names (path : string) (names : list string) (parts : list PathPart) :
  Forall (fun name => isName name = true) names ->
  parseRest path (join "." names) EmptyString parts
  = Ok (parts ++ map Property (List.filter nonEmpty names)).
Proof.
  revert parts. induction names as [|name names IH]; intros parts Hnames.
  - cbn. now rewrite app_nil_r.
  - apply Forall_cons in Hnames as [Hname Hnames].
    destruct names as [|name' names].
    + cbn [join]. rewrite <- (append_empty_r name) at 1.
      rewrite parseRest_name, parseRest_end, append_empty_l by exact Hname.
      cbn. unfold flush. now destruct (nonEmpty name).
    + change (join "." (name :: name' :: names))
        with (name +:+ String "." (join "." (name' :: names))).
      rewrite parseRest_name, parseRest_dot, append_empty_l by exact Hname.
      rewrite IH by exact Hnames.
      cbn [List.filter]. unfold flush.
      destruct (nonEmpty name); cbn [map app]; now rewrite <- ?app_assoc.
Qed.

(** Dots and names before the first opening bracket are read without
    error. *)
Lemma parseRest_before_bracket (path pre rest current : string)
    (parts : list PathPart) :
  occurs "[" pre = false ->
  exists current' parts',
    parseRest path (pre +:+ rest) current parts = parseRest path rest current' parts'.
Proof.
  revert current parts. induction pre as [|c pre IH]; intros current parts Hpre.
  - now exists current, parts.
  - cbn [occurs] in Hpre. apply orb_false_elim in Hpre as [Hc Hpre].
    rewrite append_cons. destruct (Ascii.eqb c ".") eqn:Hdot.
    + apply Ascii.eqb_eq in Hdot. subst c. rewrite parseRest_dot. apply IH, Hpre.
    + rewrite parseRest_char by (assumption || now rewrite Ascii.eqb_sym).
      apply IH, Hpre.
Qed.

Lemma splitAtClosingBracket_none (s : string) :
  occurs "]" s = false -> splitAtClosingBracket s = None.
Proof.
  induction s as [|c s IH]; [reflexivity|]. cbn [occurs splitAtClosingBracket].
  intros [Hc Hs]%orb_false_elim. rewrite Ascii.eqb_sym, Hc, (IH Hs). reflexivity.
Qed.

Lemma splitAtClosingBracket_some (s rest : string) :
  occurs "]" s = false ->
  splitAtClosingBracket (s +:+ String "]" rest) = Some (s, rest).
Proof.
  induction s as [|c s IH]; [reflexivity|]. rewrite append_cons.
  cbn [occurs splitAtClosingBracket].
  intros [Hc Hs]%orb_false_elim. rewrite Ascii.eqb_sym, Hc, (IH Hs). reflexivity.
Qed.

(** X7: a dotted path of names is parsed into one property per name, empty
    names being skipped, and [resolvePath] walks these properties from the
    context object. *)
Theorem parsePath_of_dotted_names (names : list string) :
  Forall (fun name => isName name = true) names ->
  parsePath (join "." names) = Ok (map Property (List.filter nonEmpty names))
  /\ forall c : TemplateContext,
       resolvePath (join "." names) c
       = resolveParts (map Property (List.filter nonEmpty names)) (contextValue c).
Proof.
  intros Hnames.
  assert (Hparse : parsePath (join "." names)
                   = Ok (map Property (List.filter nonEmpty names))).
  { rewrite parsePath_parseRest. now rewrite parseRest_names. }
  split; [exact Hparse|]. intros c. unfold resolvePath. now rewrite Hparse.
Qed.

(** X8: an opening bracket that no closing bracket follows, and an index that
    is not a number, make [parsePath] and [resolvePath] throw, wherever the
    bracket is in the path. *)
Theorem parsePath_rejects_bad_brackets :
  (forall pre rest,
     occurs "[" pre = false -> occurs "]" rest = false ->
     parsePath (pre +:+ String "[" rest)
     = Throw ("Missing closing bracket in path: " +:+ pre +:+ String "[" rest)
     /\ forall c : TemplateContext,
          resolvePath (pre +:+ String "[" rest) c
          = Throw ("Missing closing bracket in path: " +:+ pre +:+ String "[" rest))
  /\ (forall pre indexStr post,
        occurs "[" pre = false -> occurs "]" indexStr = false ->
        parseInt indexStr = None ->
        parsePath (pre +:+ String "[" (indexStr +:+ String "]" post))
        = Throw ("Invalid array index: " +:+ indexStr)
        /\ forall c : TemplateContext,
             resolvePath (pre +:+ String "[" (indexStr +:+ String "]" post)) c
             = Throw ("Invalid array index: " +:+ indexStr)).
Proof.
  split.
  - intros pre rest Hpre Hrest.
    assert (Hparse : parsePath (pre +:+ String "[" rest)
                     = Throw ("Missing closing bracket in path: "
                              +:+ pre +:+ String "[" rest)).
    { rewrite parsePath_parseRest.
      destruct (parseRest_before_bracket (pre +:+ String "[" rest) pre
                  (String "[" rest) EmptyString [] Hpre) as (current & parts & ->).
      rewrite parseRest_bracket. now rewrite (splitAtClosingBracket_none rest Hrest). }
    split; [exact Hparse|]. intros c. unfold resolvePath. now rewrite Hparse.
  - intros pre indexStr post Hpre Hindex Hnan.
    assert (Hparse : parsePath (pre +:+ String "[" (indexStr +:+ String "]" post))
                     = Throw ("Invalid array index: " +:+ indexStr)).
    { rewrite parsePath_parseRest.
      destruct (parseRest_before_bracket
                  (pre +:+ String "[" (indexStr +:+ String "]" post)) pre
                  (String "[" (indexStr +:+ String "]" post)) EmptyString [] Hpre)
        as (current & parts & ->).
      rewrite parseRest_bracket.
      now rewrite (splitAtClosingBracket_some indexStr post Hindex), Hnan. }
    split; [exact Hparse|]. intros c. unfold resolvePath. now rewrite Hparse.
Qed.

End ParsePathProofs.

(** * More properties of the expression engine *)

Section StringOperators.
Import Js TemplateEngine ExpressionEngine.
Context `{JsNumber}.

Lemma startsWith_spec (s p : string) :
  startsWith s p = true <-> exists t, s = p +:+ t.
Proof.
  revert s. induction p as [|a p IH]; intros s.
  - destruct s; cbn; split; try reflexivity; intros _; eexists; reflexivity.
  - destruct s as [|b s]; cbn [startsWith].
    + split; [discriminate | intros (t & Ht); discriminate].
    + rewrite andb_true_iff, Ascii.eqb_eq, IH. split.
      * intros [-> (t & ->)]. now exists t.
      * intros (t & Ht). rewrite append_cons in Ht. injection Ht as -> ->.
        split; [reflexivity | now exists t].
Qed.

Lemma includes_spec (s p : string) :
  includes s p = true <-> exists a b, s = a +:+ p +:+ b.
Proof.
  induction s as [|c s IH].
  - cbn [includes]. rewrite orb_false_r, startsWith_spec. split.
    + intros (t & Ht). now exists EmptyString, t.
    + intros (a & b & Hs). destruct a; [|discriminate].
      rewrite append_empty_l in Hs. now exists b.
  - cbn [includes]. rewrite orb_true_iff, startsWith_spec, IH. split.
    + intros [(t & Ht)|(a & b & ->)].
      * now exists EmptyString, t.
      * now exists (String c a), b.
    + intros (a & b & Hs). destruct a as [|d a].
      * left. now exists b.
      * right. rewrite append_cons in Hs. injection Hs as -> ->. now exists a, b.
Qed.

Lemma substring_append_r (a p : string) :
  substring (String.length a) (String.length p) (a +:+ p) = p.
Proof.
  induction a as [|c a IH]; cbn [String.length].
  - rewrite append_empty_l. induction p as [|d p IHp]; [reflexivity|].
    cbn. now rewrite IHp.
  - rewrite append_cons. cbn [substring]. exact IH.
Qed.

Lemma substring_split (s : string) (m : nat) :
  m <= String.length s ->
  s = substring 0 m s +:+ substring m (String.length s - m) s.
Proof.
  revert m. induction s as [|c s IH]; intros m Hm; cbn [String.length] in *.
  - destruct m; [reflexivity | lia].
  - destruct m as [|m].
    + rewrite Nat.sub_0_r. cbn [substring]. rewrite append_empty_l.
      f_equal. specialize (IH 0 ltac:(lia)). rewrite Nat.sub_0_r in IH.
      cbn [substring] in IH. destruct s; cbn in IH |- *; [reflexivity|].
      exact IH.
    + cbn [substring]. rewrite append_cons. f_equal.
      replace (S (String.length s) - S m) with (String.length s - m) by lia.
      apply IH. lia.
Qed.

Lemma endsWith_spec (s p : string) :
  endsWith s p = true <-> exists a, s = a +:+ p.
Proof.
  unfold endsWith. cbn zeta. rewrite andb_true_iff, Nat.leb_le, String.eqb_eq. split.
  - intros [Hle Hsub].
    exists (substring 0 (String.length s - String.length p) s).
    pose proof (substring_split s (String.length s - String.length p) ltac:(lia)) as Hs.
    replace (String.length s - (String.length s - String.length p))
      with (String.length p) in Hs by lia.
    rewrite Hsub in Hs. exact Hs.
  - intros (a & ->). rewrite length_append. split; [lia|].
    replace (String.length a + String.length p - String.length p)
      with (String.length a) by lia.
    apply substring_append_r.
Qed.

(** X9: [contains], [startsWith] and [endsWith] hold exactly when both
    operands are strings and the right one is a part, a beginning or an end
    of the left one. *)
Theorem string_operators_compare_texts (lhs rhs : value) :
  (evaluateComparison lhs OpContains rhs = true
   <-> exists a b, lhs = VStr a /\ rhs = VStr b
                   /\ exists before after, a = before +:+ b +:+ after)
  /\ (evaluateComparison lhs OpStartsWith rhs = true
      <-> exists a b, lhs = VStr a /\ rhs = VStr b /\ exists after, a = b +:+ after)
  /\ (evaluateComparison lhs OpEndsWith rhs = true
      <-> exists a b, lhs = VStr a /\ rhs = VStr b /\ exists before, a = before +:+ b).
Proof.
  cbn [evaluateComparison]. unfold bothStrings.
  split; [|split]; (split;
    [ destruct lhs as [| | | |a| |]; try discriminate;
      destruct rhs as [| | | |b| |]; try discriminate;
      intros Htest; exists a, b; split; [reflexivity|]; split; [reflexivity|]
    | intros (a & b & -> & -> & Hparts) ]).
  - now apply includes_spec.
  - now apply includes_spec.
  - now apply startsWith_spec.
  - now apply startsWith_spec.
  - now apply endsWith_spec.
  - now apply endsWith_spec.
Qed.

End StringOperators.

Section TokenizerProofs.
Import Js TemplateEngine ExpressionEngine ExpressionTokens.
Context `{JsNumber}.

Lemma isPlainChar_facts (c : ascii) :
  isPlainChar c = true ->
  isWhiteSpace c = false /\ isQuote c = false
  /\ Ascii.eqb c "&" = false /\ Ascii.eqb c "|" = false /\ Ascii.eqb c "=" = false
  /\ Ascii.eqb c "!" = false /\ Ascii.eqb c ">" = false /\ Ascii.eqb c "<" = false
  /\ Ascii.eqb c "(" = false /\ Ascii.eqb c ")" = false /\ Ascii.eqb c " " = false.
Proof.
  unfold isPlainChar. rewrite !andb_true_iff, !negb_true_iff.
  intros (((((((((Hw & Hq) & H1) & H2) & H3) & H4) & H5) & H6) & H7) & H8).
  split_and!; try assumption.
  destruct (Ascii.eqb_spec c " ") as [->|]; [discriminate Hw | reflexivity].
Qed.

(** Outside a string literal, a plain character is added to the current
    token. *)
Lemma tokenizeLoop_plain_char (c : ascii) (rest : string) (tokens : list string)
    (current : string) (stringChar : option ascii) :
  isPlainChar c = true ->
  tokenizeLoop (String c rest) tokens current false stringChar
  = tokenizeLoop rest tokens (current +:+ String c EmptyString) false stringChar.
Proof.
  intros (Hw & Hq & H1 & H2 & H3 & H4 & H5 & H6 & H7 & H8 & Hs)%isPlainChar_facts.
  cbn [tokenizeLoop]. rewrite Hq, H1, H2, H3, H4, H5, H6, H7, H8, Hs.
  cbn [andb orb negb]. rewrite andb_false_r. reflexivity.
Qed.

Lemma tokenizeLoop_plain (p rest : string) (tokens : list string)
    (current : string) (stringChar : option ascii) :
  allPlain p = true ->
  tokenizeLoop (p +:+ rest) tokens current false stringChar
  = tokenizeLoop rest tokens (current +:+ p) false stringChar.
Proof.
  revert current. induction p as [|c p IH]; intros current Hp.
  - now rewrite append_empty_l, append_empty_r.
  - cbn [allPlain] in Hp. apply andb_prop in Hp as [Hc Hp].
    rewrite append_cons, tokenizeLoop_plain_char, IH, append_assoc by assumption.
    reflexivity.
Qed.

Lemma trimEnd_plain (p : string) : allPlain p = true -> trimEnd p = p.
Proof.
  induction p as [|c p IH]; [reflexivity|]. cbn [allPlain trimEnd].
  intros [Hc Hp]%andb_prop. rewrite (IH Hp).
  apply isPlainChar_facts in Hc as (Hw & _). rewrite Hw. now destruct p.
Qed.

Lemma trim_plain (p : string) : allPlain p = true -> trim p = p.
Proof.
  intros Hp. unfold trim.
  assert (Hstart : trimStart p = p).
  { destruct p as [|c p]; [reflexivity|]. cbn [allPlain trimStart] in *.
    apply andb_prop in Hp as [Hc _].
    apply isPlainChar_facts in Hc as (Hw & _). now rewrite Hw. }
  rewrite Hstart. now apply trimEnd_plain.
Qed.

(** A space ends the current token. *)
Lemma tokenizeLoop_space (p rest : string) (tokens : list string) :
  isPlain p = true ->
  tokenizeLoop (String " " rest) tokens p false None
  = tokenizeLoop rest (tokens ++ [p]) EmptyString false None.
Proof.
  unfold isPlain. intros [Hne Hp]%andb_prop.
  cbn [tokenizeLoop]. rewrite (trim_plain p Hp), Hne. reflexivity.
Qed.

(** The text of a comparison operator, followed by a space, is one token. *)
Lemma tokenizeLoop_operator (operator : ComparisonOperator) (rest : string)
    (tokens : list string) :
  tokenizeLoop (operatorText operator +:+ String " " rest) tokens EmptyString false None
  = tokenizeLoop rest (tokens ++ [operatorText operator]) EmptyString false None.
Proof. destruct operator; reflexivity. Qed.

(** Inside a string literal everything is kept up to the closing quote. *)
Lemma tokenizeLoop_in_string (q : ascii) (s rest : string) (tokens : list string)
    (current : string) :
  occurs q s = false ->
  tokenizeLoop (s +:+ String q rest) tokens current true (Some q)
  = tokenizeLoop rest (tokens ++ [current +:+ s +:+ String q EmptyString])
      EmptyString false (Some q).
Proof.
  revert current. induction s as [|c s IH]; intros current Hs.
  - rewrite !append_empty_l. cbn [tokenizeLoop charIs].
    rewrite Ascii.eqb_refl, andb_false_r. reflexivity.
  - cbn [occurs] in Hs. apply orb_false_elim in Hs as [Hc Hs].
    rewrite append_cons. cbn [tokenizeLoop charIs].
    rewrite Ascii.eqb_sym, Hc, andb_false_r. cbn [andb].
    rewrite (IH _ Hs), !append_assoc. reflexivity.
Qed.

Lemma tokenize_comparison (p : string) (operator : ComparisonOperator) (q : ascii)
    (s : string) :
  isPlain p = true -> isQuote q = true -> occurs q s = false ->
  tokenize (p +:+ String " " (operatorText operator +:+ String " " (quoted q s)))
  = [p; operatorText operator; quoted q s].
Proof.
  intros Hp Hq Hs. unfold tokenize, quoted.
  pose proof Hp as [_ Hplain]%andb_prop.
  rewrite (tokenizeLoop_plain p _ _ _ _ Hplain), append_empty_l.
  rewrite (tokenizeLoop_space p _ _ Hp), tokenizeLoop_operator.
  cbn [tokenizeLoop]. rewrite Hq. cbn [andb negb].
  rewrite (tokenizeLoop_in_string q s EmptyString _ _ Hs).
  reflexivity.
Qed.

Lemma plain_not_token (p : string) (c : ascii) :
  isPlain p = true -> isPlainChar c = false ->
  String.eqb p (String c EmptyString) = false.
Proof.
  unfold isPlain. intros [Hne Hp]%andb_prop Hc.
  destruct (String.eqb_spec p (String c EmptyString)) as [->|]; [|reflexivity].
  cbn [allPlain] in Hp. rewrite Hc in Hp. discriminate.
Qed.

Lemma substring_all (s : string) : substring 0 (String.length s) s = s.
Proof. induction s as [|c s IH]; [reflexivity|]. cbn. now rewrite IH. Qed.

Lemma substring_prefix (s t : string) :
  substring 0 (String.length s) (s +:+ t) = s.
Proof.
  induction s as [|c s IH]; [now destruct t|]. rewrite append_cons. cbn.
  now rewrite IH.
Qed.

Lemma get_last (s : string) (q : ascii) :
  String.get (String.length s) (s +:+ String q EmptyString) = Some q.
Proof. induction s as [|c s IH]; [reflexivity|]. rewrite append_cons. exact IH. Qed.

(** A quoted text is a string literal whose value is the text. *)
Lemma parseValue_quoted (q : ascii) (s : string) (rest : list string) :
  isQuote q = true ->
  parseValue (quoted q s :: rest) = Ok (Literal (VStr s), rest).
Proof.
  intros Hq. unfold parseValue, quoted.
  assert (Hlast : lastChar (String q (s +:+ String q EmptyString)) = Some q).
  { unfold lastChar. cbn [String.length]. rewrite length_append.
    cbn [String.length].
    replace (S (String.length s + 1) - 1) with (S (String.length s)) by lia.
    cbn [String.get]. apply get_last. }
  assert (Hinner : sliceInner (String q (s +:+ String q EmptyString)) = s).
  { unfold sliceInner. cbn [String.length]. rewrite length_append.
    cbn [String.length substring].
    replace (S (String.length s + 1) - 2) with (String.length s) by lia.
    apply substring_prefix. }
  rewrite Hlast, Hinner. cbn [firstChar charIs].
  unfold isQuote in Hq. apply orb_prop in Hq as [Hq|Hq];
    apply Ascii.eqb_eq in Hq; subst q; reflexivity.
Qed.

Lemma parseValue_tail (p : string) (v : Value) (rest : list string) :
  parseValue [p] = Ok (v, []) -> parseValue (p :: rest) = Ok (v, rest).
Proof.
  unfold parseValue.
  repeat match goal with |- context [if ?b then _ else _] => destruct b end;
    intros [= <-]; reflexivity.
Qed.

Lemma comparisonOperatorOf_text (operator : ComparisonOperator) :
  comparisonOperatorOf (operatorText operator) = Some operator.
Proof. destruct operator; reflexivity. Qed.

Lemma parseLogical_unfold (fuel : nat) (tokens : list string) :
  parseLogical (S fuel) tokens
  = match parseNotWith (parseLogical fuel) tokens with
    | Throw e => Throw e
    | Ok (lhs, rest) =>
        parseLogicalLoop (parseNotWith (parseLogical fuel)) (length rest) lhs rest
    end.
Proof. reflexivity. Qed.

(** X10: a comparison of a plain token with a string literal, written with
    one space on each side of the operator, evaluates to the comparison of
    the value of the token with the text between the quotes, whatever this
    text contains besides its own quote. *)
Theorem comparison_with_string_literal (c : TemplateContext) (p : string) (v : Value)
    (operator : ComparisonOperator) (q : ascii) (s : string) :
  isPlain p = true ->
  parseValue [p] = Ok (v, []) ->
  isQuote q = true ->
  occurs q s = false ->
  evaluateExpression
    (p +:+ String " " (operatorText operator +:+ String " " (quoted q s))) c
  = evaluateComparison (resolveValue v c) operator (VStr s).
Proof.
  intros Hp Hv Hq Hs. unfold evaluateExpression, parseExpression.
  rewrite (tokenize_comparison p operator q s Hp Hq Hs).
  change (length [p; operatorText operator; quoted q s]) with 3.
  rewrite (parseLogical_unfold 2).
  generalize (parseLogical 2) as inner. intros inner.
  unfold parseNotWith at 1. cbn [headIs].
  rewrite (plain_not_token p "!" Hp eq_refl). unfold parseComparisonWith.
  cbn [headIs]. rewrite (plain_not_token p "(" Hp eq_refl).
  rewrite (parseValue_tail p v _ Hv), comparisonOperatorOf_text, parseValue_quoted
    by exact Hq.
  reflexivity.
Qed.

End TokenizerProofs.

(** * More properties of the execution record *)

Section ExecutionRecordProofs.
Import Js WorkflowExecution.
Context `{JsNumber}.

Lemma findIndex_None (stepId : string) (l : list StepExecution) :
  findIndex stepId l = None <-> forall se, se ∈ l -> se_stepId se <> stepId.
Proof.
  induction l as [|se l IH]; cbn [findIndex].
  - split; [intros _ se []%elem_of_nil | reflexivity].
  - destruct (String.eqb_spec (se_stepId se) stepId) as [Heq|Hne].
    + split; [discriminate|]. intros Hall. exfalso. apply (Hall se); [now left | exact Heq].
    + destruct (findIndex stepId l) as [i|]; cbn.
      * split; [discriminate|]. intros Hall. exfalso.
        assert (Hnone : @None nat = None) by reflexivity.
        destruct IH as [_ IH]. discriminate IH.
        intros se' Hse'. apply Hall. now right.
      * split; [|reflexivity]. intros _ se' [->|Hse']%elem_of_cons; [exact Hne|].
        now apply IH.
Qed.


End ExecutionRecordProofs.

(** * Properties of maps, of the step registry and of the cache *)

Section MapProofs.
Context {V : Type}.
Implicit Types (m : JsMap.t V) (key : string) (v : V).

Lemma map_get_set m key key' v :
  JsMap.get (JsMap.set m key v) key'
  = if String.eqb key key' then Some v else JsMap.get m key'.
Proof.
  induction m as [|[k w] m IH]; cbn [JsMap.set JsMap.get].
  - destruct (String.eqb key key'); reflexivity.
  - destruct (String.eqb_spec k key) as [->|Hk]; cbn [JsMap.get].
    + destruct (String.eqb key key'); reflexivity.
    + rewrite IH. destruct (String.eqb_spec k key') as [->|Hk']; [|reflexivity].
      destruct (String.eqb_spec key key') as [->|]; [congruence | reflexivity].
Qed.

Lemma map_get_delete m key key' :
  JsMap.get (JsMap.delete m key) key'
  = if String.eqb key key' then None else JsMap.get m key'.
Proof.
  unfold JsMap.delete. induction m as [|[k w] m IH]; cbn [List.filter JsMap.get fst].
  - destruct (String.eqb key key'); reflexivity.
  - destruct (String.eqb_spec k key) as [->|Hk]; cbn [negb JsMap.get].
    + rewrite IH. destruct (String.eqb key key'); reflexivity.
    + rewrite IH. destruct (String.eqb_spec k key') as [->|Hk']; [|reflexivity].
      destruct (String.eqb_spec key key') as [->|]; [congruence | reflexivity].
Qed.

Lemma map_has_keys m key : JsMap.has m key = true <-> key ∈ JsMap.keys m.
Proof.
  unfold JsMap.has, JsMap.keys. induction m as [|[k w] m IH]; cbn [JsMap.get map fst].
  - split; [discriminate | intros []%elem_of_nil].
  - rewrite elem_of_cons. destruct (String.eqb_spec k key) as [->|Hk].
    + split; [now left | reflexivity].
    + rewrite IH. split; [now right | intros [?|?]; [congruence | assumption]].
Qed.

Lemma map_keys_set m key v :
  JsMap.keys (JsMap.set m key v)
  = if JsMap.has m key then JsMap.keys m else JsMap.keys m ++ [key].
Proof.
  unfold JsMap.has, JsMap.keys. induction m as [|[k w] m IH]; cbn [JsMap.set JsMap.get map fst].
  - reflexivity.
  - destruct (String.eqb_spec k key) as [->|Hk]; cbn [map fst]; [reflexivity|].
    rewrite IH. now destruct (JsMap.get m key).
Qed.

Lemma map_keys_delete m key :
  JsMap.keys (JsMap.delete m key)
  = List.filter (fun k => negb (String.eqb k key)) (JsMap.keys m).
Proof.
  unfold JsMap.delete, JsMap.keys. induction m as [|[k w] m IH]; cbn; [reflexivity|].
  destruct (String.eqb k key); cbn; now rewrite IH.
Qed.

Lemma NoDup_filter_bool {A} (f : A -> bool) (l : list A) :
  NoDup l -> NoDup (List.filter f l).
Proof.
  induction 1 as [|x l Hx Hl IH]; cbn; [constructor|].
  destruct (f x); [|exact IH]. constructor; [|exact IH].
  rewrite list_elem_of_In, filter_In, <- list_elem_of_In. tauto.
Qed.

Lemma map_keys_NoDup_set m key v :
  NoDup (JsMap.keys m) -> NoDup (JsMap.keys (JsMap.set m key v)).
Proof.
  intros Hm. rewrite map_keys_set. destruct (JsMap.has m key) eqn:Hhas; [exact Hm|].
  apply NoDup_app. split; [exact Hm|]. split; [|apply NoDup_singleton].
  intros k Hk ->%list_elem_of_singleton. apply map_has_keys in Hk. congruence.
Qed.

Lemma map_keys_NoDup_delete m key :
  NoDup (JsMap.keys m) -> NoDup (JsMap.keys (JsMap.delete m key)).
Proof. intros Hm. rewrite map_keys_delete. now apply NoDup_filter_bool. Qed.

End MapProofs.

Section RegistryProofs.
Import Js WorkflowExecutor StepRegistry.
Context {H : Type} (typeOf : H -> string).
Implicit Types (r : Registry (H:=H)) (type : string).

(** X12: a handler that has been registered is the one that [get] and
    [getHandler] return for its type, until another one is registered for
    this type or the type is unregistered; registering does not change what
    is returned for the other types.  A type registered without handler is
    one that the registry has and for which [getHandler] throws. *)
Theorem registered_handler_is_returned r :
  (forall h ignored,
     get (register typeOf r (OfHandler h) ignored) (typeOf h) = Some h
     /\ getHandler (register typeOf r (OfHandler h) ignored) (typeOf h) = Ok h)
  /\ (forall type h,
        get (register typeOf r (OfType type) (Some h)) type = Some h
        /\ getHandler (register typeOf r (OfType type) (Some h)) type = Ok h)
  /\ (forall x handler,
        has (register typeOf r x handler) (registeredType typeOf x) = true)
  /\ (forall x handler type,
        type <> registeredType typeOf x ->
        get (register typeOf r x handler) type = get r type
        /\ has (register typeOf r x handler) type = has r type)
  /\ (forall type,
        has (register typeOf r (OfType type) None) type = true
        /\ getHandler (register typeOf r (OfType type) None) type
           = Throw (noHandler type)).
Proof.
  unfold get, getHandler, has, JsMap.has, get.
  split_and!.
  - intros h ignored. cbn [register]. now rewrite map_get_set, String.eqb_refl.
  - intros type h. cbn [register]. now rewrite map_get_set, String.eqb_refl.
  - intros x handler.
    destruct x; cbn [register registeredType]; now rewrite map_get_set, String.eqb_refl.
  - intros x handler type Hne.
    assert (Hneq : String.eqb (registeredType typeOf x) type = false).
    { destruct (String.eqb_spec (registeredType typeOf x) type); congruence. }
    destruct x; cbn [register registeredType] in *; now rewrite map_get_set, Hneq.
  - intros type. cbn [register]. now rewrite map_get_set, String.eqb_refl.
Qed.

(** X13: after [unregister(type)] the registry does not have the type and
    [getHandler] throws a [ConfigurationError] for it; the call returns
    whether the registry had the type, and the other types keep their
    handlers. *)
Theorem unregistered_type_is_gone r type :
  (unregister r type).1 = has r type
  /\ has (unregister r type).2 type = false
  /\ get (unregister r type).2 type = None
  /\ getHandler (unregister r type).2 type = Throw (noHandler type)
  /\ (forall type', type' <> type ->
        get (unregister r type).2 type' = get r type'
        /\ has (unregister r type).2 type' = has r type').
Proof.
  unfold unregister, getHandler, get, has, JsMap.has. cbn [fst snd].
  rewrite map_get_delete, String.eqb_refl. split_and!; try reflexivity.
  intros type' Hne. rewrite map_get_delete.
  destruct (String.eqb_spec type type'); [congruence | split; reflexivity].
Qed.

(** X14: the types that the registry lists are distinct and in the order of
    their first registration: registering a type that the registry has
    leaves the list as it is, registering a new one adds it at the end,
    unregistering removes it; there are as many handlers as types. *)
Theorem registered_types_are_distinct r (x : HandlerOrType) (handler : option H) type :
  getRegisteredTypes (register typeOf r x handler)
  = (if has r (registeredType typeOf x) then getRegisteredTypes r
     else getRegisteredTypes r ++ [registeredType typeOf x])
  /\ getRegisteredTypes (unregister r type).2
     = List.filter (fun t => negb (String.eqb t type)) (getRegisteredTypes r)
  /\ (NoDup (getRegisteredTypes r) ->
      NoDup (getRegisteredTypes (register typeOf r x handler))
      /\ NoDup (getRegisteredTypes (unregister r type).2))
  /\ NoDup (getRegisteredTypes (H:=H) empty)
  /\ getRegisteredTypes (clear r) = []
  /\ length (listHandlers r) = length (getRegisteredTypes r)
  /\ getAllTypes r = getRegisteredTypes r
  /\ (forall t, has r t = true <-> t ∈ getRegisteredTypes r).
Proof.
  unfold getRegisteredTypes, getAllTypes, listHandlers, has, unregister. cbn [snd].
  split_and!.
  - destruct x; cbn [register registeredType]; apply map_keys_set.
  - apply map_keys_delete.
  - intros Hr. split.
    + destruct x; cbn [register]; now apply map_keys_NoDup_set.
    + now apply map_keys_NoDup_delete.
  - constructor.
  - reflexivity.
  - unfold JsMap.values, JsMap.keys. now rewrite !length_map.
  - reflexivity.
  - intros t. apply map_has_keys.
Qed.

End RegistryProofs.

Section RegistryOfTheExecutor.
Import Js WorkflowExecutor StepRegistry.
Context `{JsNumber}.

Lemma handlersOf_missing (r : Registry (H:=Handler)) (type : string) :
  type ∉ getRegisteredTypes r -> handlersOf r !! type = None.
Proof.
  unfold handlersOf, getRegisteredTypes, JsMap.keys.
  induction r as [|[k [h|]] r IH]; cbn [omap map fst fmap option_map list_to_map].
  - intros _. apply lookup_empty.
  - intros Hnot. apply not_elem_of_cons in Hnot as [Hne Hnot].
    cbn. rewrite lookup_insert_ne by congruence. now apply IH.
  - intros Hnot. apply not_elem_of_cons in Hnot as [Hne Hnot]. now apply IH.
Qed.

(** X15: the executor, which looks a handler up in [handlersOf r], finds the
    handler that the registry [r] returns for the type of a step, and gets
    the same [ConfigurationError] when there is none. *)
Theorem executor_finds_registered_handler (r : Registry (H:=Handler)) (type : string) :
  NoDup (getRegisteredTypes r) ->
  WorkflowExecutor.getHandler (handlersOf r) type = StepRegistry.getHandler r type.
Proof.
  unfold WorkflowExecutor.getHandler, StepRegistry.getHandler, get, noHandler.
  intros Hr.
  assert (Hlookup : handlersOf r !! type
                    = match JsMap.get r type with Some stored => stored | None => None end).
  { unfold getRegisteredTypes, JsMap.keys in Hr.
    induction r as [|[k o] r IH]; [apply lookup_empty|].
    cbn [map fst] in Hr. apply NoDup_cons in Hr as [Hk Hr].
    cbn [JsMap.get]. destruct (String.eqb_spec k type) as [->|Hne].
    - destruct o as [h|].
      + unfold handlersOf. cbn. apply lookup_insert_eq.
      + change (handlersOf ((type, None) :: r)) with (handlersOf r).
        now apply handlersOf_missing.
    - destruct o as [h|].
      + unfold handlersOf. cbn. rewrite lookup_insert_ne by exact Hne. now apply IH.
      + change (handlersOf ((k, None) :: r)) with (handlersOf r). now apply IH. }
  rewrite Hlookup. reflexivity.
Qed.

End RegistryOfTheExecutor.

Section CacheProofs.
Import Js WorkflowExecutor Cache.
Context {T : Type}.
Implicit Types (c : Cache T) (m : JsMap.t (CacheEntry T)) (key : string).

Lemma map_size_set {V} (m : JsMap.t V) (key : string) (v : V) :
  JsMap.size (JsMap.set m key v)
  = if JsMap.has m key then JsMap.size m else S (JsMap.size m).
Proof.
  unfold JsMap.size, JsMap.has. induction m as [|[k w] m IH]; cbn [JsMap.set JsMap.get length].
  - reflexivity.
  - destruct (String.eqb k key); cbn [length]; [reflexivity|].
    rewrite IH. now destruct (JsMap.get m key).
Qed.

Lemma map_delete_missing {V} (m : JsMap.t V) (key : string) :
  key ∉ JsMap.keys m -> JsMap.delete m key = m.
Proof.
  unfold JsMap.delete, JsMap.keys. induction m as [|[k w] m IH]; [reflexivity|].
  cbn [map fst List.filter]. intros [Hne Hnot]%not_elem_of_cons.
  destruct (String.eqb_spec k key) as [->|_]; [congruence|]. cbn [negb].
  now rewrite IH.
Qed.

Lemma map_size_delete {V} (m : JsMap.t V) (key : string) :
  NoDup (JsMap.keys m) ->
  JsMap.size (JsMap.delete m key)
  = if JsMap.has m key then JsMap.size m - 1 else JsMap.size m.
Proof.
  unfold JsMap.size, JsMap.has. intros Hm.
  induction m as [|[k w] m IH]; [reflexivity|].
  cbn [JsMap.keys map fst] in Hm. apply NoDup_cons in Hm as [Hk Hm].
  unfold JsMap.delete in *. cbn [List.filter fst JsMap.get].
  destruct (String.eqb_spec k key) as [->|Hne]; cbn [negb length].
  - fold (JsMap.delete m key). rewrite (map_delete_missing m key Hk). lia.
  - rewrite (IH Hm). destruct (JsMap.get m key) eqn:Hget; [|reflexivity].
    destruct m; [discriminate|]. cbn [length]. lia.
Qed.

Lemma map_size_delete_le {V} (m : JsMap.t V) (key : string) :
  JsMap.size (JsMap.delete m key) <= JsMap.size m.
Proof. unfold JsMap.size, JsMap.delete. apply filter_length_le. Qed.

(** X16: a value that has been [set] is what [get] returns for its key until
    the entry expires, [ttlMs || this.ttlMs] milliseconds after the call of
    [set]; from then on [get] returns [undefined] and removes the entry.
    The date of expiry itself does not count as expired. *)
Theorem cache_returns_what_was_set c key (v : T) (ttl : option Z) (now later : Z) :
  let c' := set c key v ttl now in
  let expiry := (now + orElse ttl (ttlMs c))%Z in
  ((later <= expiry)%Z ->
   (get c' key later).1 = Some v /\ (has c' key later).1 = true)
  /\ ((expiry < later)%Z ->
      (get c' key later).1 = None
      /\ JsMap.has (store (get c' key later).2) key = false
      /\ (has c' key later).1 = false).
Proof.
  cbn zeta. unfold has, get, set. cbn [store withStore].
  set (c1 := if _ && _ then evictLRU c else c).
  assert (Httl : ttlMs c1 = ttlMs c).
  { unfold c1, evictLRU. destruct (_ && _); [|reflexivity].
    destruct (lruKey c) as [k|]; [|reflexivity]. now destruct (nonEmpty k). }
  rewrite map_get_set, String.eqb_refl, Httl. unfold expired. cbn [expiresAt value].
  split; intros Hlater.
  - replace (_ <? later)%Z with false by (symmetry; apply Z.ltb_ge; lia).
    split; reflexivity.
  - replace (_ <? later)%Z with true by (symmetry; apply Z.ltb_lt; lia).
    cbn [fst snd store withStore]. unfold JsMap.has.
    rewrite map_get_delete, String.eqb_refl. split_and!; reflexivity.
Qed.

(** The loop of [evictLRU] keeps the first of the entries with the fewest
    hits. *)
Lemma lru_fold m (k : string) (h : Z) :
  exists k' h',
    fold_left lruStep m (Some (k, h)) = Some (k', h')
    /\ (forall e, e ∈ m -> (h' <= hits e.2)%Z)
    /\ ((k' = k /\ h' = h)
        \/ exists before entry after,
             m = before ++ entry :: after /\ entry.1 = k' /\ hits entry.2 = h'
             /\ (h' < h)%Z
             /\ (forall e, e ∈ before -> (h' < hits e.2)%Z)).
Proof.
  revert k h. induction m as [|entry m IH]; intros k h; cbn [fold_left lruStep].
  - exists k, h. split; [reflexivity|]. split; [intros e []%elem_of_nil | now left].
  - destruct (hits entry.2 <? h)%Z eqn:Hlt.
    + apply Z.ltb_lt in Hlt.
      destruct (IH entry.1 (hits entry.2))
        as (k' & h' & Hfold & Hmin & [[-> ->]|(before & e & after & -> & Hk & Hh & Hless & Hbefore)]).
      * exists entry.1, (hits entry.2). split; [exact Hfold|]. split.
        { intros e [->|He]%elem_of_cons; [lia | now apply Hmin]. }
        right. exists [], entry, m. split_and!; try reflexivity; try assumption.
        intros e []%elem_of_nil.
      * exists k', h'. split; [exact Hfold|]. split.
        { intros x [->|Hx]%elem_of_cons; [lia | now apply Hmin]. }
        right. exists (entry :: before), e, after.
        split_and!; try reflexivity; try assumption; try lia.
        intros x [->|Hx]%elem_of_cons; [lia | now apply Hbefore].
    + apply Z.ltb_ge in Hlt.
      destruct (IH k h)
        as (k' & h' & Hfold & Hmin & [[-> ->]|(before & e & after & -> & Hk & Hh & Hless & Hbefore)]).
      * exists k, h. split; [exact Hfold|]. split.
        { intros e [->|He]%elem_of_cons; [lia | now apply Hmin]. }
        now left.
      * exists k', h'. split; [exact Hfold|]. split.
        { intros x [->|Hx]%elem_of_cons; [lia | now apply Hmin]. }
        right. exists (entry :: before), e, after.
        split_and!; try reflexivity; try assumption.
        intros x [->|Hx]%elem_of_cons; [lia | now apply Hbefore].
Qed.

(** The entry that [evictLRU] chooses. *)
Lemma lruKey_spec c :
  (store c = [] -> lruKey c = None)
  /\ (store c <> [] ->
      exists before entry after,
        store c = before ++ entry :: after
        /\ lruKey c = Some entry.1
        /\ (forall e, e ∈ before -> (hits entry.2 < hits e.2)%Z)
        /\ (forall e, e ∈ after -> (hits entry.2 <= hits e.2)%Z)).
Proof.
  unfold lruKey. split; [now intros ->|].
  destruct (store c) as [|first m]; [congruence|]. intros _.
  cbn [fold_left lruStep].
  destruct (lru_fold m first.1 (hits first.2))
    as (k' & h' & Hfold & Hmin & [[-> ->]|(before & e & after & -> & Hk & Hh & Hless & Hbefore)]).
  - exists [], first, m. rewrite Hfold. split_and!; try reflexivity.
    + intros e []%elem_of_nil.
    + exact Hmin.
  - exists (first :: before), e, after. rewrite Hfold, <- Hk. cbn [fmap option_map fst].
    split_and!; try reflexivity.
    + rewrite Hh. intros x [->|Hx]%elem_of_cons; [exact Hless | now apply Hbefore].
    + rewrite Hh. intros x Hx. apply Hmin. apply elem_of_app. right. now right.
Qed.

Lemma map_delete_middle m (before after : JsMap.t (CacheEntry T)) entry :
  NoDup (JsMap.keys (before ++ entry :: after)) ->
  JsMap.delete (before ++ entry :: after) entry.1 = before ++ after.
Proof.
  unfold JsMap.keys. rewrite map_app. cbn [map].
  intros (Hbefore & Hdisjoint & Hrest)%NoDup_app.
  apply NoDup_cons in Hrest as [Hentry Hafter].
  unfold JsMap.delete. rewrite List.filter_app. cbn [List.filter].
  rewrite String.eqb_refl. cbn [negb].
  fold (JsMap.delete before entry.1). fold (JsMap.delete after entry.1).
  rewrite (map_delete_missing before), (map_delete_missing after); try reflexivity.
  - exact Hentry.
  - intros Hin. apply (Hdisjoint _ Hin). now left.
Qed.

Lemma map_set_new {V} (m : JsMap.t V) (key : string) (v : V) :
  JsMap.has m key = false -> JsMap.set m key v = m ++ [(key, v)].
Proof.
  unfold JsMap.has. induction m as [|[k w] m IH]; cbn [JsMap.get JsMap.set app].
  - reflexivity.
  - destruct (String.eqb k key); [discriminate|]. intros Hm. now rewrite IH.
Qed.

Lemma map_has_false {V} (m : JsMap.t V) (key : string) :
  JsMap.has m key = false <-> key ∉ JsMap.keys m.
Proof.
  rewrite <- map_has_keys. destruct (JsMap.has m key); split; congruence.
Qed.

Lemma evictLRU_settings c : ttlMs (evictLRU c) = ttlMs c /\ maxSize (evictLRU c) = maxSize c.
Proof.
  unfold evictLRU. destruct (lruKey c) as [k|]; [|split; reflexivity].
  destruct (nonEmpty k); split; reflexivity.
Qed.

Lemma nonEmpty_true (s : string) : nonEmpty s = true <-> s <> EmptyString.
Proof. destruct s; cbn; split; congruence. Qed.

(** X17: [set] on a cache that is full, for a key that the cache does not
    have, evicts the first of the entries with the fewest hits and adds the
    new entry at the end; the other entries stay, in their order.  When the
    key of the entry chosen is the empty string, nothing is evicted. *)
Theorem cache_evicts_least_hit_entry c key (v : T) (ttl : option Z) (now : Z) :
  NoDup (keys c) ->
  store c <> [] ->
  (maxSize c <= Z.of_nat (size c))%Z ->
  JsMap.has (store c) key = false ->
  exists before entry after,
    store c = before ++ entry :: after
    /\ (forall e, e ∈ before -> (hits entry.2 < hits e.2)%Z)
    /\ (forall e, e ∈ after -> (hits entry.2 <= hits e.2)%Z)
    /\ store (set c key v ttl now)
       = (if nonEmpty entry.1 then before ++ after else store c)
         ++ [(key, {| value := v; expiresAt := now + orElse ttl (ttlMs c);
                      createdAt := now; hits := 0 |})].
Proof.
  intros Hnodup Hstore Hfull Hnew.
  destruct (lruKey_spec c) as [_ Hlru].
  destruct (Hlru Hstore) as (before & entry & after & Hsplit & Hkey & Hbefore & Hafter).
  exists before, entry, after. split_and!; try assumption.
  unfold set. unfold size in Hfull.
  replace (maxSize c <=? Z.of_nat (JsMap.size (store c)))%Z with true
    by (symmetry; now apply Z.leb_le).
  rewrite Hnew. cbn [andb negb store withStore].
  destruct (evictLRU_settings c) as [-> _].
  unfold evictLRU. rewrite Hkey. destruct (nonEmpty entry.1) eqn:Hne.
  - cbn [store withStore]. unfold keys in Hnodup. rewrite Hsplit in Hnodup |- *.
    rewrite (map_delete_middle (store c) before after entry Hnodup).
    apply map_set_new. apply map_has_false. rewrite <- Hsplit in Hnodup.
    apply map_has_false in Hnew. rewrite Hsplit in Hnew.
    unfold JsMap.keys in *. rewrite map_app in *. cbn [map] in Hnew.
    rewrite elem_of_app in *. rewrite elem_of_cons in Hnew. tauto.
  - now apply map_set_new.
Qed.

(** X18: a cache with at least one place whose keys are not empty stays within
    its capacity: when it has at most [maxSize] entries before [set], it has
    at most [maxSize] entries after it, under distinct keys.  [get],
    [delete] and [clear] do not add entries. *)
Theorem cache_stays_within_capacity c key (v : T) (ttl : option Z) (now : Z) :
  NoDup (keys c) ->
  (forall k, k ∈ keys c -> k <> EmptyString) ->
  (1 <= maxSize c)%Z ->
  (Z.of_nat (size c) <= maxSize c)%Z ->
  (Z.of_nat (size (set c key v ttl now)) <= maxSize (set c key v ttl now))%Z
  /\ maxSize (set c key v ttl now) = maxSize c
  /\ NoDup (keys (set c key v ttl now))
  /\ (key <> EmptyString -> forall k, k ∈ keys (set c key v ttl now) -> k <> EmptyString)
  /\ size (get c key now).2 <= size c
  /\ size (delete c key).2 <= size c
  /\ size (clear c) = 0.
Proof.
  intros Hnodup Hkeys Hplace Hsize. unfold size, keys in *.
  assert (Hget : JsMap.size (store (get c key now).2) <= JsMap.size (store c)).
  { unfold get. destruct (JsMap.get (store c) key) as [entry|] eqn:Hentry; [|reflexivity].
    destruct (expired now entry); cbn [snd store withStore].
    - apply map_size_delete_le.
    - rewrite map_size_set. unfold JsMap.has. now rewrite Hentry. }
  assert (Hdelete : JsMap.size (store (delete c key).2) <= JsMap.size (store c)).
  { cbn. apply map_size_delete_le. }
  unfold set.
  destruct ((maxSize c <=? Z.of_nat (JsMap.size (store c)))%Z
            && negb (JsMap.has (store c) key)) eqn:Hfull.
  - apply andb_prop in Hfull as [Hfull Hnew]. apply Z.leb_le in Hfull.
    apply negb_true_iff in Hnew.
    assert (Hstore : store c <> []).
    { intros Hnil. rewrite Hnil in Hfull. cbn in Hfull. lia. }
    destruct (lruKey_spec c) as [_ Hlru].
    destruct (Hlru Hstore) as (before & entry & after & Hsplit & Hkey & _).
    assert (Hentry : entry.1 ∈ JsMap.keys (store c)).
    { rewrite Hsplit. unfold JsMap.keys. rewrite map_app, elem_of_app. right. now left. }
    pose proof (Hkeys _ Hentry) as Hne. apply nonEmpty_true in Hne.
    unfold evictLRU. rewrite Hkey, Hne. cbn [store withStore maxSize].
    assert (Hhas : JsMap.has (JsMap.delete (store c) entry.1) key = false).
    { unfold JsMap.has in *. rewrite map_get_delete.
      destruct (String.eqb entry.1 key); [reflexivity | exact Hnew]. }
    rewrite map_size_set, Hhas, (map_size_delete _ _ Hnodup).
    replace (JsMap.has (store c) entry.1) with true
      by (symmetry; now apply map_has_keys).
    split_and!; try assumption; try reflexivity.
    + destruct (JsMap.size (store c)) eqn:Hn; lia.
    + now apply map_keys_NoDup_set, map_keys_NoDup_delete.
    + intros Hkey' k. rewrite map_keys_set, Hhas, elem_of_app, map_keys_delete.
      rewrite list_elem_of_In, filter_In, <- list_elem_of_In, list_elem_of_singleton.
      intros [[Hk _]| ->]; [now apply Hkeys | exact Hkey'].
  - cbn [store withStore maxSize]. rewrite map_size_set.
    split_and!; try assumption; try reflexivity.
    + apply andb_false_iff in Hfull as [Hfull|Hold].
      * apply Z.leb_gt in Hfull. destruct (JsMap.has (store c) key); lia.
      * apply negb_false_iff in Hold. rewrite Hold. exact Hsize.
    + now apply map_keys_NoDup_set.
    + intros Hkey' k. rewrite map_keys_set.
      destruct (JsMap.has (store c) key); [apply Hkeys|].
      rewrite elem_of_app, list_elem_of_singleton.
      intros [Hk| ->]; [now apply Hkeys | exact Hkey'].
Qed.

End CacheProofs.

Section CacheCleanupProofs.
Import Js WorkflowExecutor Cache.
Context {T : Type}.
Implicit Types (c : Cache T) (m : JsMap.t (CacheEntry T)) (key : string).

Lemma filter_filter_bool {A} (f g : A -> bool) (l : list A) :
  List.filter f (List.filter g l) = List.filter (fun x => g x && f x) l.
Proof.
  induction l as [|x l IH]; [reflexivity|]. cbn [List.filter].
  destruct (g x); cbn [List.filter andb]; [destruct (f x)|]; now rewrite IH.
Qed.

Lemma filter_ext_in_bool {A} (f g : A -> bool) (l : list A) :
  (forall x, x ∈ l -> f x = g x) -> List.filter f l = List.filter g l.
Proof.
  intros Hfg. apply List.filter_ext_in. intros x Hx. apply Hfg.
  now apply list_elem_of_In.
Qed.

(** The loop of [cleanup] over the entries [l], from the count [n] and the
    map [m]. *)
Lemma cleanup_fold (now : Z) (l : JsMap.t (CacheEntry T)) (n : nat) m :
  fold_left (cleanupStep now) l (n, m)
  = (n + length (List.filter (fun e => expired now e.2) l),
     List.filter
       (fun e => negb (existsb (fun x => String.eqb x.1 e.1 && expired now x.2) l)) m).
Proof.
  revert n m. induction l as [|x l IH]; intros n m; cbn [fold_left].
  - cbn [List.filter length existsb negb]. rewrite Nat.add_0_r. f_equal. symmetry.
    induction m as [|e m IHm]; [reflexivity|]. cbn. now rewrite IHm.
  - unfold cleanupStep at 2. cbn [fst snd List.filter existsb].
    destruct (expired now x.2) eqn:Hx; rewrite IH; cbn [length].
    + f_equal; [lia|]. unfold JsMap.delete. rewrite filter_filter_bool.
      apply List.filter_ext. intros e. rewrite andb_true_r, negb_orb.
      now rewrite (String.eqb_sym e.1 x.1).
    + f_equal. apply List.filter_ext. intros e. now rewrite andb_false_r.
Qed.

(** X19: [cleanup] removes the entries that have expired and no other, keeps
    the order of those that stay, and returns the number of entries
    removed; a second [cleanup] at the same time removes nothing. *)
Theorem cleanup_removes_expired_entries c (now : Z) :
  NoDup (keys c) ->
  store (cleanup c now).2 = List.filter (fun e => negb (expired now e.2)) (store c)
  /\ (cleanup c now).1 = length (List.filter (fun e => expired now e.2) (store c))
  /\ (cleanup c now).1 + size (cleanup c now).2 = size c
  /\ (forall key entry,
        JsMap.get (store (cleanup c now).2) key = Some entry -> expired now entry = false)
  /\ cleanup (cleanup c now).2 now = (0, (cleanup c now).2).
Proof.
  intros Hnodup. unfold cleanup, keys, size in *. cbn zeta.
  rewrite cleanup_fold. cbn [fst snd store withStore Nat.add].
  assert (Hfilter :
    List.filter
      (fun e => negb (existsb (fun x => String.eqb x.1 e.1 && expired now x.2) (store c)))
      (store c)
    = List.filter (fun e => negb (expired now e.2)) (store c)).
  { apply filter_ext_in_bool. intros e He. f_equal.
    generalize dependent (store c). intros m. unfold JsMap.keys.
    induction m as [|x m IH]; intros Hnodup He; [now apply elem_of_nil in He|].
    cbn [map] in Hnodup. apply NoDup_cons in Hnodup as [Hx Hnodup].
    cbn [existsb]. apply elem_of_cons in He as [->|He].
    - rewrite String.eqb_refl. cbn [andb].
      destruct (expired now x.2); [reflexivity|]. cbn [orb].
      apply not_true_is_false. intros (y & Hy & Hcond)%existsb_exists.
      apply andb_prop in Hcond as [Heq _]. apply String.eqb_eq in Heq.
      apply Hx. rewrite <- Heq. apply list_elem_of_In, in_map, Hy.
    - rewrite (IH Hnodup He).
      destruct (String.eqb_spec x.1 e.1) as [Heq|Hne]; [|reflexivity].
      exfalso. apply Hx. rewrite Heq. apply list_elem_of_fmap. now exists e. }
  rewrite Hfilter. split_and!.
  - reflexivity.
  - reflexivity.
  - unfold JsMap.size. generalize (store c). intros m.
    induction m as [|e m IH]; [reflexivity|]. cbn [List.filter].
    destruct (expired now e.2); cbn [negb length]; lia.
  - intros key entry Hget.
    assert (Hin : (key, entry) ∈ List.filter (fun e => negb (expired now e.2)) (store c)).
    { revert Hget. generalize (List.filter (fun e => negb (expired now e.2)) (store c)).
      intros m. induction m as [|[k e] m IH]; cbn [JsMap.get]; [discriminate|].
      destruct (String.eqb_spec k key) as [->|_].
      - intros [= ->]. now left.
      - intros Hget. right. now apply IH. }
    apply list_elem_of_In, filter_In in Hin as [_ Hlive]. now apply negb_true_iff in Hlive.
  - rewrite cleanup_fold. cbn [fst snd store withStore Nat.add]. f_equal.
    + rewrite filter_filter_bool.
      rewrite (List.filter_ext _ (fun _ => false)) by (intros e; now destruct (expired now e.2)).
      generalize (store c). intros m. induction m; [reflexivity | assumption].
    + f_equal. rewrite filter_filter_bool.
      apply filter_ext_in_bool. intros e He.
      destruct (expired now e.2) eqn:Hexp; cbn [negb andb]; [reflexivity|].
      rewrite negb_true_iff. apply not_true_is_false.
      intros (y & Hy & Hcond)%existsb_exists.
      apply andb_prop in Hcond as [_ Hyexp].
      apply filter_In in Hy as [_ Hlive]. rewrite Hyexp in Hlive. discriminate.
Qed.

End CacheCleanupProofs.

Section WorkflowCacheProofs.
Import Js WorkflowExecutor Cache.
Context {TWorkflow : Type}.
Implicit Types (c : Cache TWorkflow) (key : string).

(** The loop of [invalidateWorkflow] over the keys [ks]. *)
Lemma invalidate_fold (prefix : string) (ks : list string) c :
  let c' := fold_left
              (fun acc key => if startsWith key prefix then (delete acc key).2 else acc)
              ks c in
  ttlMs c' = ttlMs c /\ maxSize c' = maxSize c
  /\ forall key,
       JsMap.get (store c') key
       = if existsb (String.eqb key) ks && startsWith key prefix then None
         else JsMap.get (store c) key.
Proof.
  revert c. induction ks as [|k ks IH]; intros c; cbn [fold_left existsb].
  - split_and!; reflexivity.
  - destruct (IH (if startsWith k prefix then (delete c k).2 else c))
      as (Httl & Hmax & Hget).
    cbn zeta in *. rewrite Httl, Hmax. split_and!.
    + now destruct (startsWith k prefix).
    + now destruct (startsWith k prefix).
    + intros key. rewrite Hget.
      destruct (String.eqb_spec key k) as [->|Hne]; cbn [orb andb].
      * destruct (startsWith k prefix) eqn:Hk.
        { rewrite andb_true_r. cbn [delete snd store withStore].
          rewrite map_get_delete, String.eqb_refl. now destruct (existsb _ ks). }
        { now rewrite andb_false_r. }
      * destruct (existsb (String.eqb key) ks && startsWith key prefix); [reflexivity|].
        destruct (startsWith k prefix); [|reflexivity].
        cbn [delete snd store withStore]. rewrite map_get_delete.
        destruct (String.eqb_spec k key); [congruence | reflexivity].
Qed.

Lemma map_get_missing {V} (m : JsMap.t V) key :
  key ∉ JsMap.keys m -> JsMap.get m key = None.
Proof.
  intros Hkey. apply map_has_false in Hkey. unfold JsMap.has in Hkey.
  now destruct (JsMap.get m key).
Qed.

(** X20: after [invalidateWorkflow(id)] the cache returns [undefined] for
    every version of the workflow, and it has lost the entries whose key
    starts with [workflow:<id>:] and no other.  These include the versions of
    a workflow whose id starts with [<id>:]. *)
Theorem invalidated_workflow_is_gone c (workflowId : string) :
  let c' := invalidateWorkflow c workflowId in
  (forall version now, getWorkflow c' workflowId version now = (None, c'))
  /\ (forall key,
        JsMap.get (store c') key
        = if startsWith key (workflowPrefix workflowId) then None
          else JsMap.get (store c) key)
  /\ (forall rest version now,
        getWorkflow c' (workflowId +:+ ":" +:+ rest) version now = (None, c'))
  /\ ttlMs c' = ttlMs c /\ maxSize c' = maxSize c.
Proof.
  cbn zeta. unfold invalidateWorkflow.
  destruct (invalidate_fold (workflowPrefix workflowId) (keys c) c) as (Httl & Hmax & Hget).
  cbn zeta in *.
  set (c' := fold_left _ (keys c) c) in *.
  assert (Hstore : forall key,
             JsMap.get (store c') key
             = if startsWith key (workflowPrefix workflowId) then None
               else JsMap.get (store c) key).
  { intros key. rewrite Hget.
    destruct (startsWith key (workflowPrefix workflowId)); [|now rewrite andb_false_r].
    rewrite andb_true_r. destruct (existsb (String.eqb key) (keys c)) eqn:Hin; [reflexivity|].
    apply map_get_missing. intros Hkey.
    apply not_true_iff_false in Hin. apply Hin, existsb_exists.
    exists key. split; [now apply list_elem_of_In | apply String.eqb_refl]. }
  assert (Hgone : forall key, startsWith key (workflowPrefix workflowId) = true ->
             forall now, get c' key now = (None, c')).
  { intros key Hkey now. unfold get. now rewrite Hstore, Hkey. }
  split_and!; try assumption.
  - intros version now. apply Hgone, startsWith_spec.
    exists (intToString version). unfold workflowKey, workflowPrefix.
    now rewrite !append_assoc.
  - intros rest version now. apply Hgone, startsWith_spec.
    exists (rest +:+ ":" +:+ intToString version). unfold workflowKey, workflowPrefix.
    now rewrite !append_assoc.
Qed.

End WorkflowCacheProofs.

(** * More properties of the executor *)

Section RetryProofs.
Import Js TemplateEngine Models WorkflowValidator WorkflowExecution WorkflowExecutor
  ExecutorNotions.
Context `{JsNumber}.

Lemma afterAttempts_zero (st : RunState) : afterAttempts st 0 [] = st.
Proof.
  destruct st. unfold afterAttempts. cbn. now rewrite Nat.add_0_r, app_nil_r.
Qed.

Lemma afterAttempts_more (st : RunState) (k : nat) (d : Z) (delays : list Z) :
  afterAttempts (afterAttempts st 1 [d]) k delays = afterAttempts st (S k) (d :: delays).
Proof.
  unfold afterAttempts. cbn. f_equal; [lia | now rewrite <- app_assoc].
Qed.

Lemma backoffDelays_succ (backoffMs first : Z) (k : nat) :
  backoffDelays backoffMs first (S k)
  = (backoffMs * first)%Z :: backoffDelays backoffMs (first + 1) k.
Proof.
  unfold backoffDelays. cbn [seq map]. rewrite Z.add_0_r. f_equal.
  rewrite <- seq_shift, map_map. apply map_ext. intros i. f_equal. lia.
Qed.

(** A failed attempt that is not the last one allowed: the executor sleeps
    and goes on to the next attempt. *)
Lemma retryLoop_failure handler params sc (remaining : nat) (attempt maxAttempts backoffMs : Z)
    (lastError : option Thrown) (st : RunState) (t : Thrown) :
  h_execute handler (calls st) params sc = Rejected t ->
  retryLoop (callHandler handler params sc) (S remaining) attempt maxAttempts backoffMs
    lastError st
  = retryLoop (callHandler handler params sc) remaining (attempt + 1) maxAttempts backoffMs
      (Some t)
      (afterAttempts st 1
         (if (attempt <? maxAttempts)%Z then [(backoffMs * attempt)%Z] else [])).
Proof.
  intros Hcall. cbn [retryLoop]. unfold tryCatch, callHandler. rewrite Hcall.
  unfold bind. destruct (attempt <? maxAttempts)%Z; cbn.
  - unfold afterAttempts. cbn. now rewrite Nat.add_1_r.
  - unfold afterAttempts. cbn. now rewrite Nat.add_1_r, app_nil_r.
Qed.

Lemma retryLoop_failures handler params sc (maxAttempts backoffMs : Z) (k : nat) :
  forall (errs : nat -> Thrown) (remaining : nat) (attempt : Z)
         (lastError : option Thrown) (st : RunState),
    (forall i, i < k -> h_execute handler (calls st + i) params sc = Rejected (errs i)) ->
    (attempt + Z.of_nat k <= maxAttempts)%Z ->
    retryLoop (callHandler handler params sc) (k + remaining) attempt maxAttempts
      backoffMs lastError st
    = retryLoop (callHandler handler params sc) remaining (attempt + Z.of_nat k)
        maxAttempts backoffMs
        (match k with O => lastError | S j => Some (errs j) end)
        (afterAttempts st k (backoffDelays backoffMs attempt k)).
Proof.
  induction k as [|k IH]; intros errs remaining attempt lastError st Hfail Hle.
  - cbn [Nat.add]. rewrite Z.add_0_r, afterAttempts_zero. reflexivity.
  - cbn [Nat.add].
    rewrite (retryLoop_failure handler params sc (k + remaining) attempt maxAttempts
               backoffMs lastError st (errs 0)).
    2:{ rewrite <- (Hfail 0) by lia. now rewrite Nat.add_0_r. }
    replace (attempt <? maxAttempts)%Z with true by (symmetry; apply Z.ltb_lt; lia).
    rewrite (IH (fun i => errs (S i))).
    + rewrite afterAttempts_more, <- backoffDelays_succ.
      replace (attempt + 1 + Z.of_nat k)%Z with (attempt + Z.of_nat (S k))%Z by lia.
      destruct k; reflexivity.
    + intros i Hi. cbn [afterAttempts calls].
      replace (calls st + 1 + i) with (calls st + S i) by lia. apply Hfail. lia.
    + lia.
Qed.


End RetryProofs.

Section RunInvariants.
Import Js TemplateEngine Models WorkflowValidator WorkflowExecution WorkflowExecutor
  ExecutorNotions.
Context `{JsNumber}.

Lemma preserves_keeps {A B} (f : WorkflowExecution -> B) (m : Run A) :
  keepsExecution m -> preserves f m.
Proof. intros Hm st r st' Hrun. now rewrite (Hm st r st' Hrun). Qed.

Lemma preserves_bind {A B C} (f : WorkflowExecution -> C) (m : Run A) (k : A -> Run B) :
  preserves f m -> (forall a, preserves f (k a)) -> preserves f (bind m k).
Proof.
  intros Hm Hk st r st'. unfold bind.
  destruct (m st) as [[a|t] st1] eqn:Hrun.
  - intros Hrest. rewrite (Hk a st1 r st' Hrest). exact (Hm st _ st1 Hrun).
  - intros [= <- <-]. exact (Hm st _ st1 Hrun).
Qed.

Lemma preserves_tryCatch {A C} (f : WorkflowExecution -> C) (body : Run A)
    (handler : Thrown -> Run A) :
  preserves f body -> (forall t, preserves f (handler t)) ->
  preserves f (tryCatch body handler).
Proof.
  intros Hbody Hhandler st r st'. unfold tryCatch.
  destruct (body st) as [[a|t] st1] eqn:Hrun.
  - intros [= <- <-]. exact (Hbody st _ st1 Hrun).
  - intros Hrest. rewrite (Hhandler t st1 r st' Hrest). exact (Hbody st _ st1 Hrun).
Qed.

Lemma preserves_modify {C} (f : WorkflowExecution -> C)
    (g : WorkflowExecution -> WorkflowExecution) :
  (forall e, f (g e) = f e) -> preserves f (modifyExecution g).
Proof. intros Hg st r st' [= _ <-]. cbn. apply Hg. Qed.

Lemma preserves_storeStepOutput {C} (f : WorkflowExecution -> C) stepId out meta :
  preserves f (storeStepOutput stepId out meta).
Proof. intros st r st' [= _ <-]. reflexivity. Qed.

Lemma stepIndependent_update {C} (f : WorkflowExecution -> C) stepId u :
  stepIndependent f -> forall e, f (updateStepExecution e stepId u) = f e.
Proof.
  intros [Hsteps _] e. unfold updateStepExecution.
  destruct (findIndex stepId (ex_stepExecutions e)); [apply Hsteps | reflexivity].
Qed.

Lemma runStep_preserves {C} (f : WorkflowExecution -> C) world workflow step :
  stepIndependent f -> preserves f (runStep world workflow step).
Proof.
  intros Hf. unfold runStep.
  apply preserves_bind.
  { intros st r st' [= _ <-]. reflexivity. }
  intros handler.
  destruct (h_validateParams handler (s_params step));
    [apply preserves_keeps, keeps_throw|].
  apply preserves_bind; [intros st r st' [= _ <-]; reflexivity|]. intros st0.
  apply preserves_bind.
  { apply preserves_keeps, keeps_retryLoop, keeps_callHandler. }
  intros result.
  apply preserves_bind; [apply preserves_keeps, keeps_readClock|]. intros now.
  apply preserves_bind; [apply preserves_modify, stepIndependent_update, Hf|]. intros _.
  apply preserves_bind; [apply preserves_storeStepOutput|]. intros _.
  apply preserves_bind; [apply preserves_modify; intros e; apply Hf|]. intros _.
  destruct (negb (success result)); [apply preserves_keeps, keeps_ret|].
  destruct (String.eqb (s_type step) "CONDITION" && truthy (output result));
    apply preserves_keeps, keeps_ret.
Qed.

Lemma executeStep_preserves {C} (f : WorkflowExecution -> C) world workflow step :
  stepIndependent f -> preserves f (executeStep world workflow step).
Proof.
  intros Hf. unfold executeStep.
  apply preserves_bind.
  { apply preserves_modify. intros e. apply Hf. }
  intros _.
  apply preserves_bind; [apply preserves_keeps, keeps_readClock|]. intros now.
  apply preserves_bind; [apply preserves_modify, stepIndependent_update, Hf|]. intros _.
  apply preserves_tryCatch; [now apply runStep_preserves|]. intros thrown.
  apply preserves_bind; [apply preserves_keeps, keeps_readClock|]. intros now'.
  apply preserves_bind; [apply preserves_modify, stepIndependent_update, Hf|]. intros _.
  destruct (isSet (s_onFailure step));
    [apply preserves_keeps, keeps_ret | apply preserves_keeps, keeps_throw].
Qed.

Lemma updateEntries_length stepId u (l : list StepExecution) :
  length (updateEntries stepId u l) = length l.
Proof.
  unfold updateEntries. destruct (findIndex stepId l); [|reflexivity].
  apply length_alter.
Qed.

(** A step adds one entry. *)
Lemma executeStep_length world workflow step (st : RunState) r st' :
  executeStep world workflow step st = (r, st') ->
  length (stepsOf st') = S (length (stepsOf st)).
Proof.
  intros (u1 & u2 & _ & _ & ->)%executeStep_entries.
  rewrite !updateEntries_length, length_app. cbn. lia.
Qed.

Lemma stepsExecuted_independent :
  stepIndependent (fun e => stepsExecuted (ex_metrics e)).
Proof.
  split; [reflexivity|]. intros e meta. cbn.
  unfold accumulateMetrics. now destruct (truthy meta).
Qed.

(** The loop of [executeSteps] keeps the count of the steps executed in
    step with the entries: the two agree when an iteration starts, and a step
    that throws leaves one entry more than the count. *)
Lemma stepLoop_counts fuel world workflow maxSteps timeoutMs startTime :
  forall current executed (st : RunState) r st',
    stepLoop fuel world workflow maxSteps timeoutMs startTime current executed st
    = (r, st') ->
    Z.of_nat (length (stepsOf st)) = executed ->
    stepsExecuted (ex_metrics (execution st)) = executed ->
    let n := Z.of_nat (length (stepsOf st')) in
    let m := stepsExecuted (ex_metrics (execution st')) in
    (r = Ok tt -> m = n)
    /\ (m = n \/ (m + 1)%Z = n)
    /\ (n <= Z.max executed maxSteps)%Z.
Proof.
  induction fuel as [|fuel IH]; intros current executed st r st';
    (destruct current as [stepId|]; cbn [stepLoop]; unfold ret, throw;
       [|intros [= _ <-] Hn Hm; cbn zeta; rewrite Hn, Hm; split_and!; auto; lia]);
    (destruct (negb (nonEmpty stepId));
       [intros [= _ <-] Hn Hm; cbn zeta; rewrite Hn, Hm; split_and!; auto; lia|]);
    (destruct (maxSteps <=? executed)%Z eqn:Hlimit;
       [intros [= _ <-] Hn Hm; cbn zeta; rewrite Hn, Hm; split_and!; auto; lia|]).
  - intros [= _ <-] Hn Hm; cbn zeta; rewrite Hn, Hm; split_and!; auto; lia.
  - apply Z.leb_gt in Hlimit. unfold bind at 1.
    destruct (checkTimeout world timeoutMs startTime st) as [[[]|t] st1] eqn:Htimeout;
      apply keeps_checkTimeout in Htimeout.
    2:{ intros [= _ <-] Hn Hm. cbn zeta. unfold stepsOf in *.
        rewrite Htimeout, Hn, Hm. split_and!; auto; lia. }
    destruct (findStep workflow stepId) as [step|].
    2:{ intros [= _ <-] Hn Hm. cbn zeta. unfold stepsOf in *.
        rewrite Htimeout, Hn, Hm. split_and!; auto; lia. }
    unfold bind at 1.
    destruct (executeStep world workflow step st1) as [[next|t] st2] eqn:Hstep;
      pose proof (executeStep_length _ _ _ _ _ _ Hstep) as Hlength;
      pose proof (executeStep_preserves _ _ _ _ stepsExecuted_independent _ _ _ Hstep)
        as Hcount; cbn beta in Hcount; unfold stepsOf in Hlength;
      rewrite Htimeout in Hlength, Hcount.
    + unfold bind at 1, modifyExecution. intros Hloop Hn Hm.
      eapply IH in Hloop.
      * destruct Hloop as (Hok & Hnear & Hbound). cbn zeta in *.
        split; [exact Hok|]. split; [exact Hnear|]. lia.
      * unfold stepsOf in *. cbn. lia.
      * reflexivity.
    + intros [= <- <-] Hn Hm. cbn zeta. unfold stepsOf in *.
      rewrite Hcount, Hm, Hlength. split_and!; [discriminate | right; lia | lia].
Qed.

(** X22: the record of a run has one entry for each step started, not more
    than the step limit [options.maxSteps || workflow.maxSteps], and
    [metrics.stepsExecuted] counts the steps that have returned: all the
    entries when the run is completed, all or all but the last one when it
    has failed. *)
Theorem execute_counts_steps world workflow organizationId inputRef inputPayload
    subOrganizationId options firstRef :
  match execute world workflow organizationId inputRef inputPayload
          subOrganizationId options firstRef with
  | Ok e =>
      let n := Z.of_nat (length (ex_stepExecutions e)) in
      let m := stepsExecuted (ex_metrics e) in
      (ex_status e = Completed -> m = n)
      /\ (m = n \/ (m + 1)%Z = n)
      /\ (n <= Z.max 0 (effectiveMaxSteps workflow options))%Z
  | Throw _ => True
  end.
Proof.
  unfold execute. destruct (validateOrThrow workflow); [|exact I].
  match goal with |- context [executeSteps _ _ _ ?st0] => set (start := st0) end.
  unfold executeSteps, bind at 1, readClock.
  match goal with |- context [stepLoop ?fuel _ _ ?maxSteps ?timeout ?t0 ?cur 0%Z ?st1] =>
    destruct (stepLoop fuel world workflow maxSteps timeout t0 cur 0%Z st1)
      as [[[]|t] st] eqn:Hrun
  end; apply stepLoop_counts in Hrun; try reflexivity;
    destruct Hrun as (Hok & Hnear & Hbound); cbn [finish ex_stepExecutions ex_metrics ex_status];
    cbn zeta in *; unfold stepsOf, effectiveMaxSteps in *.
  - split; [intros _; now apply Hok|]. split; [exact Hnear | exact Hbound].
  - split; [discriminate|]. split; [exact Hnear | exact Hbound].
Qed.

Lemma header_independent : stepIndependent header.
Proof. split; reflexivity. Qed.

Lemma stepLoop_preserves_header fuel world workflow maxSteps timeoutMs startTime :
  forall current executed,
    preserves header
      (stepLoop fuel world workflow maxSteps timeoutMs startTime current executed).
Proof.
  induction fuel as [|fuel IH]; intros current executed;
    (destruct current as [stepId|]; cbn [stepLoop];
       [|apply preserves_keeps, keeps_ret]);
    (destruct (negb (nonEmpty stepId)); [apply preserves_keeps, keeps_ret|]);
    (destruct (maxSteps <=? executed)%Z; [apply preserves_keeps, keeps_throw|]).
  - apply preserves_keeps, keeps_throw.
  - apply preserves_bind; [apply preserves_keeps, keeps_checkTimeout|]. intros _.
    destruct (findStep workflow stepId) as [step|]; [|apply preserves_keeps, keeps_throw].
    apply preserves_bind; [apply executeStep_preserves, header_independent|].
    intros next.
    apply preserves_bind; [apply preserves_modify; reflexivity|]. intros _.
    apply IH.
Qed.


End RunInvariants.

Section StepProofs.
Import Js TemplateEngine TemplateVariables Models WorkflowValidator WorkflowExecution
  WorkflowExecutor ExecutorNotions.
Context `{JsNumber}.

(** The state in which the [try] block of [executeStep] starts. *)
Lemma executeStep_unfold world workflow step (st : RunState) :
  executeStep world workflow step st
  = let st0 :=
      {| execution :=
           updateStepExecution
             (addStepExecution (execution st) (s_id step) (s_type step)) (s_id step)
             {| u_status := Some StepRunning; u_output := None; u_error := None;
                u_startedAt := Some (clock world (ticks st));
                u_completedAt := None; u_durationMs := None |};
         tctx := tctx st; calls := calls st; ticks := S (ticks st);
         slept := slept st; nextRef := nextRef st |} in
    match runStep world workflow step st0 with
    | (Ok next, st1) => (Ok next, st1)
    | (Throw thrown, st1) =>
        (failureOutcome step thrown,
         {| execution :=
              updateStepExecution (execution st1) (s_id step)
                {| u_status := Some StepFailed; u_output := None;
                   u_error := Some (Some (errorText thrown));
                   u_startedAt := None;
                   u_completedAt := Some (clock world (ticks st1));
                   u_durationMs := None |};
            tctx := tctx st1; calls := calls st1; ticks := S (ticks st1);
            slept := slept st1; nextRef := nextRef st1 |})
    end.
Proof.
  unfold executeStep, bind, modifyExecution, readClock, tryCatch, withExecution.
  cbn -[runStep].
  match goal with |- context [runStep world workflow step ?s] =>
    destruct (runStep world workflow step s) as [[next|thrown] st1]; [reflexivity|]
  end.
  unfold failureOutcome. destruct (isSet (s_onFailure step)); reflexivity.
Qed.

(** A [try] block that throws before the handler is called. *)
Lemma runStep_without_handler world workflow step (st : RunState) :
  registry world !! s_type step = None ->
  runStep world workflow step st
  = (Throw (configurationError
              ("No handler registered for step type '" +:+ s_type step +:+ "'")), st).
Proof. intros Hreg. unfold runStep, getHandler, bind, liftResult. now rewrite Hreg. Qed.

Lemma runStep_invalid_params world workflow step handler thrown (st : RunState) :
  registry world !! s_type step = Some handler ->
  h_validateParams handler (s_params step) = Some thrown ->
  runStep world workflow step st = (Throw thrown, st).
Proof.
  intros Hreg Hvalid. unfold runStep, getHandler, bind, liftResult.
  now rewrite Hreg, Hvalid.
Qed.

(** The entry of a step without earlier entry, after the two updates of a
    step that fails before its handler is called. *)
Lemma failed_entry world step (st : RunState) (message : string) :
  findIndex (s_id step) (stepsOf st) = None ->
  updateEntries (s_id step)
    {| u_status := Some StepFailed; u_output := None;
       u_error := Some (Some message); u_startedAt := None;
       u_completedAt := Some (clock world (S (ticks st)));
       u_durationMs := None |}
    (updateEntries (s_id step)
       {| u_status := Some StepRunning; u_output := None; u_error := None;
          u_startedAt := Some (clock world (ticks st));
          u_completedAt := None; u_durationMs := None |}
       (stepsOf st ++ [newStepExecution (s_id step) (s_type step)]))
  = stepsOf st
    ++ [failedEntry step message (clock world (ticks st)) (clock world (S (ticks st)))].
Proof.
  intros Hnew.
  rewrite (updateEntries_last (stepsOf st) (newStepExecution (s_id step) (s_type step))
             (s_id step) _ Hnew eq_refl).
  match goal with |- context [assign ?u ?se] =>
    rewrite (updateEntries_last (stepsOf st) (assign u se) (s_id step) _ Hnew eq_refl)
  end.
  reflexivity.
Qed.

(** The failure path of [executeStep] when the [try] block throws before the
    handler is called. *)
Lemma executeStep_fails_early world workflow step (thrown : Thrown)
    (st : RunState) :
  findIndex (s_id step) (stepsOf st) = None ->
  (registry world !! s_type step = None /\
   thrown = configurationError
              ("No handler registered for step type '" +:+ s_type step +:+ "'")
   \/ exists handler,
        registry world !! s_type step = Some handler
        /\ h_validateParams handler (s_params step) = Some thrown) ->
  exists st',
    executeStep world workflow step st = (failureOutcome step thrown, st')
    /\ calls st' = calls st /\ slept st' = slept st /\ tctx st' = tctx st
    /\ stepsOf st'
       = stepsOf st
         ++ [failedEntry step (errorText thrown) (clock world (ticks st))
               (clock world (S (ticks st)))].
Proof.
  intros Hnew Hcause. rewrite executeStep_unfold. cbn zeta.
  match goal with |- context [runStep world workflow step ?s] => set (st0 := s) end.
  assert (Hrun : runStep world workflow step st0 = (Throw thrown, st0)).
  { destruct Hcause as [[Hreg ->]|(handler & Hreg & Hvalid)].
    - now apply runStep_without_handler.
    - now apply (runStep_invalid_params world workflow step handler). }
  rewrite Hrun. eexists. split; [reflexivity|].
  cbn [calls slept tctx]. split_and!; try reflexivity.
  unfold stepsOf at 1. cbn [execution]. subst st0. cbn [execution ticks].
  rewrite !updateStepExecution_entries.
  exact (failed_entry world step st (errorText thrown) Hnew).
Qed.

(** X24: a step whose type has no registered handler, or whose parameters the
    handler rejects, fails without a call of [handler.execute]: its entry is
    marked failed with the message of the error, and the run goes on at
    [onFailure] when the step has one, and otherwise [executeStep] throws a
    [StepExecutionError] that names the step. *)
Theorem step_fails_before_its_handler_runs world workflow step (thrown : Thrown)
    (st : RunState) :
  findIndex (s_id step) (stepsOf st) = None ->
  (registry world !! s_type step = None /\
   thrown = configurationError
              ("No handler registered for step type '" +:+ s_type step +:+ "'")
   \/ exists handler,
        registry world !! s_type step = Some handler
        /\ h_validateParams handler (s_params step) = Some thrown) ->
  exists st',
    executeStep world workflow step st = (failureOutcome step thrown, st')
    /\ calls st' = calls st /\ slept st' = slept st /\ tctx st' = tctx st
    /\ stepsOf st'
       = stepsOf st
         ++ [failedEntry step (errorText thrown) (clock world (ticks st))
               (clock world (S (ticks st)))].
Proof. apply executeStep_fails_early. Qed.

End StepProofs.

Section StepOutputProofs.
Import Js TemplateEngine TemplateVariables Models WorkflowValidator WorkflowExecution
  WorkflowExecutor ExecutorNotions.
Context `{JsNumber}.

Lemma lookupProp_setProp (name name' : string) (v : value) (props : list (string * value)) :
  lookupProp name' (setProp name v props)
  = if String.eqb name name' then Some v else lookupProp name' props.
Proof.
  induction props as [|[k w] props IH]; cbn [setProp lookupProp].
  - destruct (String.eqb name name'); reflexivity.
  - destruct (String.eqb_spec k name) as [->|Hk]; cbn [lookupProp].
    + destruct (String.eqb name name'); reflexivity.
    + rewrite IH. destruct (String.eqb_spec k name') as [->|Hk'];
        [|reflexivity].
      destruct (String.eqb_spec name name') as [->|]; [congruence | reflexivity].
Qed.

Lemma isIdChar_not (c x : ascii) :
  isIdChar c = true -> isIdChar x = false -> Ascii.eqb x c = false.
Proof.
  intros Hc Hx. destruct (Ascii.eqb_spec x c) as [->|]; [congruence | reflexivity].
Qed.

Lemma allIdChars_occurs (s : string) (x : ascii) :
  allIdChars s = true -> isIdChar x = false -> occurs x s = false.
Proof.
  intros Hs Hx. induction s as [|c s IH]; [reflexivity|].
  cbn [allIdChars occurs] in *. apply andb_prop in Hs as [Hc Hs].
  now rewrite (isIdChar_not c x Hc Hx), (IH Hs).
Qed.

(** An identifier is a name for [parsePath] and can be written in a
    placeholder. *)
Lemma isIdentifier_isName (s : string) : isIdentifier s = true -> isName s = true.
Proof.
  unfold isIdentifier, isName. intros [_ Hs]%andb_prop.
  now rewrite (allIdChars_occurs s "." Hs eq_refl), (allIdChars_occurs s "[" Hs eq_refl).
Qed.

Lemma trimEnd_append (s t : string) :
  nonEmpty t = true -> trimEnd t = t -> trimEnd (s +:+ t) = s +:+ t.
Proof.
  intros Hne Ht. induction s as [|c s IH]; [exact Ht|].
  rewrite append_cons. cbn [trimEnd]. rewrite IH.
  destruct (s +:+ t) eqn:Hst; [|reflexivity].
  destruct s; [|discriminate]. rewrite append_empty_l in Hst. now subst t.
Qed.

Lemma outputPath_parsed (stepId : string) :
  isIdentifier stepId = true ->
  parsePath (outputPath stepId)
  = Ok [Property "steps"; Property stepId; Property "output"].
Proof.
  intros Hid.
  change (outputPath stepId) with (join "." ["steps"; stepId; "output"]).
  rewrite parsePath_parseRest, parseRest_names.
  - cbn [List.filter nonEmpty app map].
    apply andb_prop in Hid as [-> _]. reflexivity.
  - repeat constructor. now apply isIdentifier_isName.
Qed.

Lemma outputPath_group (stepId : string) :
  isIdentifier stepId = true ->
  isGroup (outputPath stepId) = true /\ trim (outputPath stepId) = outputPath stepId.
Proof.
  intros [_ Hid]%andb_prop. split.
  - unfold isGroup, outputPath. cbn [nonEmpty]. rewrite !append_cons.
    cbn [nonEmpty andb occurs Ascii.eqb]. rewrite append_empty_l, occurs_append.
    now rewrite (allIdChars_occurs stepId "}" Hid eq_refl).
  - unfold trim, outputPath. rewrite !append_cons. cbn [trimStart isWhiteSpace].
    change (isWhiteSpace "s") with false. cbn match.
    change (String "s" (String "t" (String "e" (String "p" (String "s"
              (String "." (EmptyString +:+ stepId +:+ ".output")))))))
      with (("steps." +:+ stepId) +:+ ".output").
    now apply trimEnd_append.
Qed.

(** A handler that succeeds at its first call is called once. *)
Lemma executeWithRetry_first_attempt handler params sc (maxAttempts backoffMs : Z)
    (result : StepResult) (st : RunState) :
  (1 <= maxAttempts)%Z ->
  h_execute handler (calls st) params sc = Resolved result ->
  executeWithRetry (callHandler handler params sc) maxAttempts backoffMs st
  = (Ok result, afterAttempts st 1 []).
Proof.
  intros Hmax Hcall. unfold executeWithRetry.
  replace (Z.to_nat maxAttempts) with (S (Z.to_nat maxAttempts - 1)) by lia.
  cbn [retryLoop]. unfold tryCatch, callHandler. rewrite Hcall.
  unfold afterAttempts. now rewrite Nat.add_1_r, app_nil_r.
Qed.

(** X25: what a step returns is what the templates of the next steps read.
    When the handler of a step returns a result at its first call, the output
    of the result is stored in the context under the id of the step, also
    when the result is a failure: the path [steps.<id>.output] resolves to it
    and a placeholder with this path is replaced by its text.  The outputs
    of the other steps and the input stay in the context. *)
Theorem step_output_is_readable world workflow step handler result (st : RunState) :
  registry world !! s_type step = Some handler ->
  h_validateParams handler (s_params step) = None ->
  (1 <= orElse (maxAttempts <$> s_retry step) 1)%Z ->
  h_execute handler (calls st) (s_params step) (stepContextOf workflow st)
  = Resolved result ->
  isIdentifier (s_id step) = true ->
  exists next st',
    executeStep world workflow step st = (Ok next, st')
    /\ resolvePath (outputPath (s_id step)) (tctx st') = Ok (output result)
    /\ resolveTemplate (placeholder (outputPath (s_id step))) (tctx st')
       = formatValue (output result)
    /\ (forall other, other <> s_id step ->
          lookupProp other (steps (tctx st')) = lookupProp other (steps (tctx st)))
    /\ input (tctx st') = input (tctx st).
Proof.
  intros Hreg Hvalid Hmax Hcall Hid.
  rewrite executeStep_unfold. cbn zeta.
  match goal with |- context [runStep world workflow step ?s] => set (st0 := s) end.
  assert (Hsc : stepContextOf workflow st0 = stepContextOf workflow st).
  { unfold stepContextOf, st0. cbn.
    match goal with |- context [updateStepExecution ?e ?i ?u] =>
      destruct (updateStepExecution_identity e i u) as (-> & -> & ->) end.
    reflexivity. }
  unfold runStep, getHandler, bind at 1, liftResult. rewrite Hreg, Hvalid.
  unfold bind at 1, getState. unfold bind at 1.
  rewrite Hsc.
  rewrite (executeWithRetry_first_attempt handler _ _ _ _ result st0 Hmax Hcall).
  unfold bind, readClock, modifyExecution, storeStepOutput, withExecution.
  cbn [afterAttempts execution tctx calls ticks slept nextRef].
  set (st' := {| execution := _ |}).
  assert (Hsteps : steps (tctx st')
                   = setProp (s_id step)
                       (VObj (nextRef st)
                          [("output", output result); ("metadata", metadata result)])
                       (steps (tctx st))) by reflexivity.
  assert (Hpath : resolvePath (outputPath (s_id step)) (tctx st') = Ok (output result)).
  { unfold resolvePath. rewrite (outputPath_parsed _ Hid).
    cbn [resolveParts resolvePart contextValue typeofObject negb getProperty
         lookupProp String.eqb Ascii.eqb Bool.eqb default id].
    rewrite Hsteps, lookupProp_setProp, String.eqb_refl. reflexivity. }
  exists (if negb (success result) then s_onFailure step
          else if String.eqb (s_type step) "CONDITION" && truthy (output result)
               then paramString (output result) "nextStep"
               else successTarget step), st'.
  split.
  { destruct (negb (success result));
      [|destruct (String.eqb (s_type step) "CONDITION" && truthy (output result))];
      reflexivity. }
  split; [exact Hpath|]. split.
  { destruct (outputPath_group _ Hid) as [Hgroup Htrim].
    pose proof (resolveTemplate_resolved (tctx st') EmptyString
                  (outputPath (s_id step)) EmptyString (output result)
                  eq_refl Hgroup) as Hresolved.
    rewrite Htrim in Hresolved. specialize (Hresolved Hpath).
    rewrite append_empty_l, !append_empty_r in Hresolved. exact Hresolved. }
  split; [|reflexivity].
  intros other Hother. rewrite Hsteps, lookupProp_setProp.
  destruct (String.eqb_spec (s_id step) other); [congruence | reflexivity].
Qed.

End StepOutputProofs.

Section CompletionProofs.
Import Js TemplateEngine Models WorkflowValidator WorkflowExecution WorkflowExecutor
  ExecutorNotions.
Context `{JsNumber}.

(** A step whose handler returns a result at its first call. *)
Lemma executeStep_resolved world workflow step handler result (st : RunState) :
  registry world !! s_type step = Some handler ->
  h_validateParams handler (s_params step) = None ->
  (1 <= orElse (maxAttempts <$> s_retry step) 1)%Z ->
  h_execute handler (calls st) (s_params step) (stepContextOf workflow st)
  = Resolved result ->
  findIndex (s_id step) (stepsOf st) = None ->
  exists st' entry,
    executeStep world workflow step st = (Ok (nextOf step result), st')
    /\ stepsOf st' = stepsOf st ++ [entry]
    /\ se_stepId entry = s_id step
    /\ se_status entry = (if success result then StepCompleted else StepFailed)
    /\ ex_error (execution st') = ex_error (execution st).
Proof.
  intros Hreg Hvalid Hmax Hcall Hnew.
  destruct (executeStep world workflow step st) as [r st'] eqn:Hstep.
  pose proof (executeStep_preserves (fun e => ex_error e) world workflow step
                ltac:(split; reflexivity) st r st' Hstep) as Herror.
  cbn beta in Herror.
  rewrite executeStep_unfold in Hstep. cbn zeta in Hstep.
  match type of Hstep with context [runStep world workflow step ?s] => set (st0 := s) in * end.
  assert (Hsc : stepContextOf workflow st0 = stepContextOf workflow st).
  { unfold stepContextOf, st0. cbn.
    match goal with |- context [updateStepExecution ?e ?i ?u] =>
      destruct (updateStepExecution_identity e i u) as (-> & -> & ->) end.
    reflexivity. }
  unfold runStep, getHandler, bind at 1, liftResult in Hstep. rewrite Hreg, Hvalid in Hstep.
  unfold bind at 1, getState in Hstep. unfold bind at 1 in Hstep.
  rewrite Hsc in Hstep.
  rewrite (executeWithRetry_first_attempt handler _ _ _ _ result st0 Hmax Hcall) in Hstep.
  unfold bind, readClock, modifyExecution, storeStepOutput, withExecution in Hstep.
  cbn [afterAttempts execution tctx calls ticks slept nextRef] in Hstep.
  assert (Hnext : r = Ok (nextOf step result)).
  { unfold nextOf. destruct (negb (success result));
      [|destruct (String.eqb (s_type step) "CONDITION" && truthy (output result))];
      now injection Hstep as <- _. }
  assert (Hst' : stepsOf st'
                 = updateEntries (s_id step)
                     {| u_status := Some (if success result then StepCompleted else StepFailed);
                        u_output := Some (output result);
                        u_error := Some (re_message <$> error result);
                        u_startedAt := None;
                        u_completedAt := Some (clock world (S (ticks st)));
                        u_durationMs := Some (optionalProperty (metadata result) "duration") |}
                     (stepsOf st0)).
  { destruct (negb (success result));
      [|destruct (String.eqb (s_type step) "CONDITION" && truthy (output result))];
      injection Hstep as _ <-; unfold stepsOf; cbn;
      now rewrite updateStepExecution_entries. }
  assert (Hst0 : stepsOf st0
                 = stepsOf st
                   ++ [assign {| u_status := Some StepRunning; u_output := None;
                                 u_error := None;
                                 u_startedAt := Some (clock world (ticks st));
                                 u_completedAt := None; u_durationMs := None |}
                         (newStepExecution (s_id step) (s_type step))]).
  { unfold stepsOf, st0. cbn. rewrite updateStepExecution_entries. cbn.
    now apply updateEntries_last. }
  rewrite Hst0 in Hst'. rewrite updateEntries_last in Hst' by (exact Hnew || reflexivity).
  subst r. eexists st', _. split; [reflexivity|]. split; [exact Hst'|].
  split; [reflexivity|]. split; [reflexivity | exact Herror].
Qed.

Lemma successTarget_edge workflow step (x next : string) :
  findStep workflow x = Some step ->
  successTarget step = Some next -> next <> EmptyString -> edge workflow x next.
Proof.
  intros Hfind. unfold successTarget.
  destruct (isSet (s_onSuccess step)); intros Hnext Hne.
  - now apply (edge_success workflow x next step).
  - now apply (edge_next workflow x next step).
Qed.

Lemma findStep_id workflow (x : string) step :
  findStep workflow x = Some step -> s_id step = x /\ step ∈ w_steps workflow.
Proof.
  unfold findStep. intros [Hin Heq]%find_some. apply String.eqb_eq in Heq.
  split; [exact Heq | now apply list_elem_of_In].
Qed.

Section Completion.
Variables (world : World) (workflow : Workflow) (maxSteps : Z) (timeoutMs : option Z)
  (startTime : Z).
Hypothesis Hacyclic : ~ reachesCycle workflow (w_entryStepId workflow).
Hypothesis Hrefs :
  forall step t, step ∈ w_steps workflow -> t ∈ nextSteps step ->
    t ∈ map s_id (w_steps workflow).
Hypothesis Hentry : w_entryStepId workflow ∈ map s_id (w_steps workflow).
Hypothesis Hlimit : (Z.of_nat (length (w_steps workflow)) <= maxSteps)%Z.
Hypothesis Hclock :
  forall t, timeoutMs = Some t -> t <> 0%Z ->
    forall i, (clock world i - startTime <= t)%Z.
Hypothesis Hhandlers :
  forall step, step ∈ w_steps workflow ->
    exists handler,
      registry world !! s_type step = Some handler
      /\ h_validateParams handler (s_params step) = None
      /\ (1 <= orElse (maxAttempts <$> s_retry step) 1)%Z
      /\ alwaysSucceeds workflow step handler.

(** The step ids of a walk from the entry step are ids of steps, and no id
    comes twice. *)
Lemma walk_members (a : string) (q : list string) :
  isWalk workflow (a :: q) -> a ∈ map s_id (w_steps workflow) ->
  forall y, y ∈ a :: q -> y ∈ map s_id (w_steps workflow).
Proof.
  revert a. induction q as [|b q IH]; intros a Hwalk Ha y.
  - now intros ->%list_elem_of_singleton.
  - destruct Hwalk as [Hedge Hwalk]. intros [->|Hy]%elem_of_cons; [exact Ha|].
    apply (IH b Hwalk); [|exact Hy].
    apply edge_nextSteps in Hedge as (step & Hfind & Hb).
    apply findStep_id in Hfind as [_ Hstep]. now apply (Hrefs step).
Qed.

Lemma walk_fresh (p : list string) (x : string) :
  isWalk workflow (p ++ [x]) -> head (p ++ [x]) = Some (w_entryStepId workflow) ->
  x ∉ p.
Proof.
  intros Hwalk Hhead Hx. apply Hacyclic.
  apply (isCyclePath_reachesCycle workflow (p ++ [x])). now exists p, x.
Qed.

Lemma walk_NoDup (q : list string) :
  isWalk workflow q -> head q = Some (w_entryStepId workflow) -> NoDup q.
Proof.
  induction q as [|x p IH] using rev_ind; [constructor|].
  intros Hwalk Hhead. apply NoDup_app. split; [|split].
  - destruct p as [|a p]; [constructor|]. apply IH.
    + now apply isWalk_app_l in Hwalk.
    + exact Hhead.
  - intros y Hy ->%list_elem_of_singleton. now apply (walk_fresh p x).
  - apply NoDup_singleton.
Qed.

Lemma walk_length (q : list string) :
  isWalk workflow q -> head q = Some (w_entryStepId workflow) ->
  length q <= length (w_steps workflow).
Proof.
  intros Hwalk Hhead. rewrite <- (length_map s_id (w_steps workflow)).
  apply submseteq_length, NoDup_submseteq; [now apply walk_NoDup|].
  destruct q as [|a q]; [intros y []%elem_of_nil|].
  injection Hhead as ->. now apply walk_members.
Qed.

Lemma checkTimeout_passes (st : RunState) :
  exists st1,
    checkTimeout world timeoutMs startTime st = (Ok tt, st1)
    /\ execution st1 = execution st.
Proof.
  unfold checkTimeout. destruct timeoutMs as [t|] eqn:Ht; [|now exists st].
  destruct (t =? 0)%Z eqn:Hzero; [now exists st|].
  apply Z.eqb_neq in Hzero. unfold bind, readClock.
  replace (t <? clock world (ticks st) - startTime)%Z with false.
  - eexists. split; reflexivity.
  - symmetry. apply Z.ltb_ge. now apply Hclock.
Qed.

(** The loop of [executeSteps] on a workflow without reachable cycle whose
    handlers succeed: it follows the references of the steps from the current
    step until a step without next step, and returns. *)
Lemma stepLoop_completes (fuel : nat) :
  forall (x : string) (executed : Z) (st : RunState),
    x <> EmptyString ->
    isWalk workflow (map se_stepId (stepsOf st) ++ [x]) ->
    head (map se_stepId (stepsOf st) ++ [x]) = Some (w_entryStepId workflow) ->
    Forall completed (stepsOf st) ->
    Z.of_nat (length (stepsOf st)) = executed ->
    Z.of_nat fuel = (maxSteps - executed)%Z ->
    ex_error (execution st) = None ->
    exists st',
      stepLoop fuel world workflow maxSteps timeoutMs startTime (Some x) executed st
      = (Ok tt, st')
      /\ ex_error (execution st') = None
      /\ Forall completed (stepsOf st')
      /\ isWalk workflow (map se_stepId (stepsOf st'))
      /\ head (map se_stepId (stepsOf st')) = Some (w_entryStepId workflow).
Proof.
  induction fuel as [|fuel IH]; intros x executed st Hx Hwalk Hhead Hdone Hcount Hfuel Herror;
    pose proof (walk_length _ Hwalk Hhead) as Hlength;
    rewrite length_app, length_map in Hlength; cbn [length] in Hlength; [lia|].
  cbn [stepLoop]. apply nonEmpty_true in Hx as Hne. rewrite Hne. cbn [negb].
  replace (maxSteps <=? executed)%Z with false by (symmetry; apply Z.leb_gt; lia).
  unfold bind at 1.
  destruct (checkTimeout_passes st) as (st1 & -> & Hst1).
  assert (Hid : x ∈ map s_id (w_steps workflow)).
  { destruct (map se_stepId (stepsOf st)) as [|a p] eqn:Hp; cbn in Hhead, Hwalk.
    - injection Hhead as ->. exact Hentry.
    - injection Hhead as ->.
      apply (walk_members _ (p ++ [x]) Hwalk Hentry).
      right. apply elem_of_app. right. now left. }
  apply findStep_Some_iff in Hid as (step & Hfind). rewrite Hfind.
  destruct (findStep_id _ _ _ Hfind) as [Hsid Hstep].
  destruct (Hhandlers step Hstep) as (handler & Hreg & Hvalid & Hmax & Halways).
  destruct (Halways (calls st1) (stepContextOf workflow st1))
    as (result & Hcall & Hsuccess & Hcondition).
  assert (Hnew : findIndex (s_id step) (stepsOf st1) = None).
  { unfold stepsOf. rewrite Hst1. fold (stepsOf st). apply findIndex_None.
    intros se Hse Heq. apply (walk_fresh _ x Hwalk Hhead).
    rewrite <- Hsid, <- Heq. apply list_elem_of_fmap. now exists se. }
  destruct (executeStep_resolved world workflow step handler result st1
              Hreg Hvalid Hmax Hcall Hnew)
    as (st2 & entry & Hrun & Hsteps & Hentryid & Hstatus & Herror2).
  unfold bind at 1. rewrite Hrun. unfold bind at 1, modifyExecution.
  rewrite Hsuccess in Hstatus.
  set (st3 := withExecution st2 _).
  assert (Hst3 : stepsOf st3 = stepsOf st ++ [entry]).
  { unfold st3, stepsOf in *. cbn. now rewrite Hsteps, Hst1. }
  assert (Hids : map se_stepId (stepsOf st3) = map se_stepId (stepsOf st) ++ [x]).
  { now rewrite Hst3, map_app, <- Hsid, <- Hentryid. }
  assert (Hdone3 : Forall completed (stepsOf st3)).
  { rewrite Hst3. apply Forall_app. split; [exact Hdone|]. now apply Forall_singleton. }
  assert (Herror3 : ex_error (execution st3) = None).
  { unfold st3. cbn. rewrite Herror2, Hst1. exact Herror. }
  destruct (nextOf step result) as [next|] eqn:Hnext.
  2:{ exists st3. rewrite Hids. destruct fuel; split_and!; auto. }
  destruct (String.eqb_spec next EmptyString) as [->|Hnonempty].
  { exists st3. rewrite Hids. destruct fuel; split_and!; auto. }
  assert (Hedge : edge workflow x next).
  { unfold nextOf in Hnext. rewrite Hsuccess in Hnext. cbn [negb] in Hnext.
    destruct (String.eqb (s_type step) "CONDITION" && truthy (output result)) eqn:Hcond.
    - rewrite <- Hsid. now apply Hcondition.
    - now apply (successTarget_edge workflow step). }
  apply IH; try assumption.
  - rewrite Hids. now apply isWalk_snoc.
  - now rewrite Hids, head_snoc.
  - rewrite Hst3, length_app. cbn [length]. lia.
  - lia.
Qed.

End Completion.


End CompletionProofs.

Section ConditionProofs.
Import Js TemplateEngine ExpressionEngine Models WorkflowValidator WorkflowExecution
  WorkflowExecutor ExecutorNotions ConditionStepHandler.
Context `{JsNumber}.
Variables (zodError : value -> Thrown) (zodText : value -> string)
  (outputRef metadataRef : nat -> nat) (duration : nat -> number).

Lemma parseConditionParams_fields (params : value) expression onTrue onFalse :
  parseConditionParams params = Some (expression, onTrue, onFalse) ->
  paramString params "onTrue" = Some onTrue
  /\ paramString params "onFalse" = onFalse.
Proof.
  unfold parseConditionParams, paramString.
  destruct params as [| | | | | |ref props]; try discriminate.
  destruct (getProperty (VObj ref props) "expression"); try discriminate.
  destruct (getProperty (VObj ref props) "onTrue"); try discriminate.
  destruct (getProperty (VObj ref props) "onFalse"); try discriminate;
    intros [= <- <- <-]; split; reflexivity.
Qed.

(** X27: a step of type [CONDITION] whose parameters the schema accepts goes
    on at [onTrue] when its expression evaluates to true in the context of
    the run, and at [onFalse], or nowhere when there is none, when it
    evaluates to false, which is also what an expression that cannot be
    parsed does.  The step is completed in both cases; its fields
    [nextStepId], [onSuccess] and [onFailure] play no part. *)
Theorem condition_step_follows_its_expression world workflow step
    expression onTrue onFalse (st : RunState) :
  registry world !! "CONDITION"
  = Some (conditionHandler zodError zodText outputRef metadataRef duration) ->
  s_type step = "CONDITION" ->
  parseConditionParams (s_params step) = Some (expression, onTrue, onFalse) ->
  (1 <= orElse (maxAttempts <$> s_retry step) 1)%Z ->
  findIndex (s_id step) (stepsOf st) = None ->
  exists st' entry,
    executeStep world workflow step st
    = (Ok (if evaluateExpression expression (tctx st) then Some onTrue else onFalse), st')
    /\ stepsOf st' = stepsOf st ++ [entry]
    /\ se_stepId entry = s_id step
    /\ se_status entry = StepCompleted
    /\ (findStep workflow (s_id step) = Some step -> alwaysSucceeds workflow step
          (conditionHandler zodError zodText outputRef metadataRef duration)).
Proof.
  intros Hreg Htype Hparams Hmax Hnew.
  set (result := conditionResult outputRef metadataRef duration (calls st)
                   expression onTrue onFalse (tctx st)).
  destruct (executeStep_resolved world workflow step
              (conditionHandler zodError zodText outputRef metadataRef duration) result st)
    as (st' & entry & Hrun & Hsteps & Hid & Hstatus & _); try assumption.
  { now rewrite Htype. }
  { cbn [h_validateParams conditionHandler]. now rewrite Hparams. }
  { cbn [h_execute conditionHandler]. now rewrite Hparams. }
  exists st', entry. split_and!; try assumption.
  - rewrite Hrun. f_equal. f_equal. unfold nextOf, result. cbn [success output negb].
    rewrite Htype. cbn [String.eqb Ascii.eqb Bool.eqb andb truthy conditionResult output].
    unfold paramString. cbn [getProperty lookupProp String.eqb Ascii.eqb Bool.eqb default id].
    destruct (evaluateExpression expression (tctx st)); [reflexivity|].
    now destruct onFalse.
  - intros Hfind n sc.
    exists (conditionResult outputRef metadataRef duration n expression onTrue onFalse
              (sc_templateContext sc)).
    cbn [h_execute conditionHandler]. rewrite Hparams.
    split; [reflexivity|]. split; [reflexivity|].
    intros _ next. unfold paramString.
    cbn [conditionResult output getProperty lookupProp String.eqb Ascii.eqb Bool.eqb default id].
    apply parseConditionParams_fields in Hparams as [HonTrue HonFalse].
    destruct (evaluateExpression expression (sc_templateContext sc)).
    + intros [= <-] Hne. now apply (edge_true workflow (s_id step) onTrue step).
    + destruct onFalse as [f|]; cbn [optionalString]; [|discriminate].
      intros [= <-] Hne. now apply (edge_false workflow (s_id step) f step).
Qed.

End ConditionProofs.

(** * Properties of the workflow builder *)

Section BuilderProofs.
Import Js TemplateEngine ExpressionEngine Models WorkflowValidator WorkflowExecution
  WorkflowExecutor ExecutorNotions ConditionStepHandler WorkflowBuilder.
Context `{JsNumber}.

Lemma validate_isValid (w : Workflow) : isValid (validate w) = valid (validate w).
Proof.
  unfold validate.
  destruct (w_steps w) as [|step stepList]; [reflexivity|].
  cbn [length Nat.eqb].
  destruct (collectStepIds (step :: stepList)) as [stepIds duplicateIds].
  reflexivity.
Qed.

Lemma addSteps_steps (stepList : list WorkflowStep) (b : Builder) :
  b_steps (fold_left addStep stepList b) = b_steps b ++ stepList
  /\ b_id (fold_left addStep stepList b) = b_id b
  /\ b_entryStepId (fold_left addStep stepList b) = b_entryStepId b
  /\ b_maxSteps (fold_left addStep stepList b) = b_maxSteps b
  /\ b_maxExecutionTimeMs (fold_left addStep stepList b) = b_maxExecutionTimeMs b.
Proof.
  revert b. induction stepList as [|step stepList IH]; intros b; cbn [fold_left].
  - rewrite app_nil_r. now split_and!.
  - destruct (IH (addStep b step)) as (-> & -> & -> & -> & ->).
    cbn. rewrite <- app_assoc. now split_and!.
Qed.

(** In a pipeline the step at a position refers to the step at the next
    position, and the last step to none. *)
Lemma isPipeline_lookup (stepList : list WorkflowStep) (i : nat) (step : WorkflowStep) :
  isPipeline stepList ->
  stepList !! i = Some step ->
  nextSteps step = match stepList !! S i with
                   | Some next => [s_id next]
                   | None => []
                   end.
Proof.
  revert i. induction stepList as [|first rest IH]; intros i Hpipe Hi; [discriminate|].
  destruct Hpipe as [Hfirst Hrest].
  destruct i as [|i].
  - injection Hi as <-. rewrite Hfirst. now destruct rest.
  - now apply IH.
Qed.

Lemma find_lookup (stepList : list WorkflowStep) (i : nat) (step : WorkflowStep) :
  NoDup (map s_id stepList) ->
  stepList !! i = Some step ->
  List.find (fun s => String.eqb (s_id s) (s_id step)) stepList = Some step.
Proof.
  revert i. induction stepList as [|first rest IH]; intros i Hnd Hi; [discriminate|].
  cbn [map] in Hnd. apply NoDup_cons in Hnd as [Hfirst Hnd].
  destruct i as [|i]; cbn [List.find].
  - injection Hi as <-. now rewrite String.eqb_refl.
  - cbn in Hi. destruct (String.eqb (s_id first) (s_id step)) eqn:Heq.
    + apply String.eqb_eq in Heq. exfalso. apply Hfirst. rewrite Heq.
      apply list_elem_of_fmap. exists step. split; [reflexivity|].
      now apply list_elem_of_lookup_2 with i.
    + now apply IH with i.
Qed.

Lemma findStep_position (w : Workflow) (a : string) (step : WorkflowStep) :
  findStep w a = Some step ->
  exists i, w_steps w !! i = Some step /\ s_id step = a.
Proof.
  unfold findStep. intros Hfind. apply find_some in Hfind as [Hin Heq].
  apply String.eqb_eq in Heq.
  apply list_elem_of_In, list_elem_of_lookup_1 in Hin as [i Hi]. now exists i.
Qed.

Lemma position_unique (stepList : list WorkflowStep) (i j : nat) (s s' : WorkflowStep) :
  NoDup (map s_id stepList) ->
  stepList !! i = Some s -> stepList !! j = Some s' -> s_id s = s_id s' -> i = j.
Proof.
  intros Hnd Hi Hj Heq.
  apply (NoDup_lookup (map s_id stepList) i j (s_id s) Hnd).
  - change (map s_id stepList) with (s_id <$> stepList).
    now rewrite list_lookup_fmap, Hi.
  - change (map s_id stepList) with (s_id <$> stepList).
    now rewrite list_lookup_fmap, Hj, Heq.
Qed.

Section Pipeline.
Variable w : Workflow.
Hypothesis Hpipe : isPipeline (w_steps w).
Hypothesis Hnd : NoDup (map s_id (w_steps w)).

Lemma pipeline_edge (a b : string) :
  edge w a b <-> exists i, stepIdAt (w_steps w) i a /\ stepIdAt (w_steps w) (S i) b.
Proof.
  rewrite edge_nextSteps. split.
  - intros (step & Hfind & Hb).
    apply findStep_position in Hfind as (i & Hi & <-).
    rewrite (isPipeline_lookup _ i step Hpipe Hi) in Hb.
    destruct (w_steps w !! S i) as [next|] eqn:Hnext; [|now apply elem_of_nil in Hb].
    apply list_elem_of_singleton in Hb as ->.
    exists i. split; [now exists step | now exists next].
  - intros (i & (step & Hi & <-) & (next & Hnext & <-)).
    exists step. split.
    + unfold findStep. now apply find_lookup with i.
    + rewrite (isPipeline_lookup _ i step Hpipe Hi), Hnext. now left.
Qed.

Lemma pipeline_tc (a b : string) :
  tc (edge w) a b -> exists i j, i < j /\ stepIdAt (w_steps w) i a /\ stepIdAt (w_steps w) j b.
Proof.
  induction 1 as [a b Hedge|a b c Hedge _ (i & j & Hij & Hi & Hj)].
  - apply pipeline_edge in Hedge as (i & Hi & Hj). exists i, (S i). split; [lia|]. tauto.
  - apply pipeline_edge in Hedge as (k & Hk & (sb & Hsb & Hb)).
    destruct Hi as (sb' & Hsb' & Hb').
    assert (S k = i) as <-.
    { apply (position_unique (w_steps w) (S k) i sb sb' Hnd Hsb Hsb'). congruence. }
    exists k, j. split; [lia|]. tauto.
Qed.

Lemma pipeline_acyclic (a : string) : ~ reachesCycle w a.
Proof.
  intros (b & _ & Hcycle).
  apply pipeline_tc in Hcycle as (i & j & Hij & (s & Hs & Hb) & (s' & Hs' & Hb')).
  assert (i = j); [|lia].
  apply (position_unique (w_steps w) i j s s' Hnd Hs Hs'). congruence.
Qed.

Lemma pipeline_reachable (first : WorkflowStep) (i : nat) (step : WorkflowStep) :
  w_steps w !! 0 = Some first ->
  w_steps w !! i = Some step ->
  rtc (edge w) (s_id first) (s_id step).
Proof.
  intros Hfirst. revert step. induction i as [|i IH]; intros step Hi.
  - rewrite Hfirst in Hi. injection Hi as <-. apply rtc_refl.
  - destruct (w_steps w !! i) as [previous|] eqn:Hprevious.
    + eapply rtc_r; [apply (IH previous eq_refl)|].
      apply pipeline_edge. exists i. split; [now exists previous | now exists step].
    + apply lookup_ge_None_1 in Hprevious. apply lookup_lt_Some in Hi. lia.
Qed.

Lemma pipeline_valid (first : WorkflowStep) :
  w_steps w !! 0 = Some first ->
  w_entryStepId w = s_id first ->
  (Z.of_nat (length (w_steps w)) <= w_maxSteps w)%Z ->
  valid (validate w) = true.
Proof.
  intros Hfirst Hentry Hmax. apply validate_valid_iff. split_and!.
  - intros Hnil. now rewrite Hnil in Hfirst.
  - exact Hmax.
  - exact Hnd.
  - apply findStep_Some_iff. rewrite Hentry.
    apply list_elem_of_fmap. exists first. split; [reflexivity|].
    now apply list_elem_of_lookup_2 with 0.
  - intros step t Hstep Ht.
    apply list_elem_of_lookup_1 in Hstep as [i Hi].
    rewrite (isPipeline_lookup _ i step Hpipe Hi) in Ht.
    destruct (w_steps w !! S i) as [next|] eqn:Hnext; [|now apply elem_of_nil in Ht].
    apply list_elem_of_singleton in Ht as ->.
    apply list_elem_of_fmap. exists next. split; [reflexivity|].
    now apply list_elem_of_lookup_2 with (S i).
  - apply pipeline_acyclic.
  - intros step Hstep. apply list_elem_of_lookup_1 in Hstep as [i Hi].
    rewrite Hentry. now apply pipeline_reachable with i.
Qed.

End Pipeline.


Variables (zodError : value -> Thrown) (zodText : value -> string)
  (outputRef metadataRef : nat -> nat) (duration : nat -> number).

(** X29: a condition step made by [addConditionStep] has its branch targets in
    [onSuccess] and [onFailure] and none in its parameters, which the schema
    of [ConditionStepHandler] rejects for want of [onTrue].  With this
    handler registered, the step fails without its expression being
    evaluated: its entry is marked failed, and the run goes on at [onFalse],
    whatever the expression, or [executeStep] throws when [onFalse] is
    empty. *)
Theorem built_condition_step_is_rejected world workflow (config : ConditionConfig)
    (paramsRef : nat) (st : RunState) :
  registry world !! "CONDITION"
  = Some (conditionHandler zodError zodText outputRef metadataRef duration) ->
  findIndex (c_id config) (stepsOf st) = None ->
  let step := conditionStep config paramsRef in
  let message := "Invalid CONDITION step parameters: " +:+ zodText (s_params step) in
  exists st',
    executeStep world workflow step st
    = (if nonEmpty (c_onFalse config) then Ok (Some (c_onFalse config))
       else Throw (stepExecutionError
                     ("Step '" +:+ c_id config +:+ "' failed: " +:+ message)),
       st')
    /\ calls st' = calls st
    /\ tctx st' = tctx st
    /\ stepsOf st'
       = stepsOf st
         ++ [failedEntry step message (clock world (ticks st))
               (clock world (S (ticks st)))].
Proof.
  intros Hreg Hnew step message.
  destruct (executeStep_fails_early world workflow step
              (stepExecutionError message) st Hnew) as (st' & Hrun & Hcalls & _ & Hctx & Hsteps).
  { right. eexists. split; [exact Hreg|]. reflexivity. }
  exists st'. split; [|now split_and!].
  rewrite Hrun. reflexivity.
Qed.

End BuilderProofs.

(** * Instances of the properties above *)

Section MoreInstances.
Import Js TemplateEngine TemplateVariables ExpressionEngine ExpressionTokens Models
  WorkflowValidator WorkflowExecution WorkflowExecutor Examples ExecutorNotions
  ConditionStepHandler WorkflowBuilder MoreExamples.
#[local] Existing Instance IntegerNumber.

Lemma parsePath_of_dotted_names_witness :
  parsePath (join "." ["input"; "question"]) = Ok [Property "input"; Property "question"]
  /\ resolvePath (join "." ["input"; "question"]) questionContext = Ok (VStr "X").
Proof.
  destruct (parsePath_of_dotted_names ["input"; "question"]) as [Hparse Hresolve].
  { repeat (constructor; [reflexivity|]). constructor. }
  split; [exact Hparse|]. rewrite Hresolve. reflexivity.
Defined.

Lemma comparison_with_string_literal_witness :
  evaluateExpression "input.question == 'X'" questionContext
  = evaluateComparison (resolveValue (VariablePath "input.question") questionContext)
      OpEq (VStr "X").
Proof.
  apply (comparison_with_string_literal questionContext "input.question"
           (VariablePath "input.question") OpEq "'"%char "X"); reflexivity.
Defined.

Lemma step_fails_before_its_handler_runs_witness :
  exists st',
    executeStep (worldOf "LLM" flakyHandler) oneStep searchStep startState
    = (Ok (Some "fallback"), st')
    /\ calls st' = 0.
Proof.
  destruct (step_fails_before_its_handler_runs (worldOf "LLM" flakyHandler) oneStep
              searchStep
              (configurationError "No handler registered for step type 'RAG'")
              startState)
    as (st' & Hrun & Hcalls & _).
  - reflexivity.
  - left. split; reflexivity.
  - exists st'. split; [exact Hrun | exact Hcalls].
Defined.

Lemma step_output_is_readable_witness :
  exists next st',
    executeStep (worldOf "LLM" failingHandler) oneStep onlyStep startState = (Ok next, st')
    /\ resolvePath "steps.s1.output" (tctx st') = Ok VNull.
Proof.
  destruct (step_output_is_readable (worldOf "LLM" failingHandler) oneStep onlyStep
              failingHandler failedResult startState)
    as (next & st' & Hrun & Hpath & _).
  - reflexivity.
  - reflexivity.
  - cbn. lia.
  - reflexivity.
  - reflexivity.
  - exists next, st'. split; [exact Hrun | exact Hpath].
Defined.


Lemma condition_step_follows_its_expression_witness :
  exists st' entry,
    executeStep (worldOf "CONDITION" sampleConditionHandler) loopWorkflow branchStep
      questionState
    = (Ok (Some "yes"), st')
    /\ stepsOf st' = [entry]
    /\ se_status entry = StepCompleted.
Proof.
  destruct (condition_step_follows_its_expression
              (fun _ => ThrownError "ZodError" "Required") (fun _ => "ZodError: Required")
              (fun n => 100 + 2 * n) (fun n => 101 + 2 * n) (fun _ => num_of_Z 0)
              (worldOf "CONDITION" sampleConditionHandler) loopWorkflow branchStep
              "input.question == 'X'" "yes" (Some "no") questionState)
    as (st' & entry & Hrun & Hsteps & _ & Hstatus & _).
  - reflexivity.
  - reflexivity.
  - reflexivity.
  - cbn. lia.
  - reflexivity.
  - exists st', entry. split; [exact Hrun|]. split; [exact Hsteps | exact Hstatus].
Defined.

Lemma built_condition_step_is_rejected_witness :
  exists st',
    executeStep (worldOf "CONDITION" sampleConditionHandler) loopWorkflow
      (conditionStep branchConfig 21) questionState
    = (Ok (Some "no"), st')
    /\ calls st' = 0.
Proof.
  destruct (built_condition_step_is_rejected
              (fun _ => ThrownError "ZodError" "Required") (fun _ => "ZodError: Required")
              (fun n => 100 + 2 * n) (fun n => 101 + 2 * n) (fun _ => num_of_Z 0)
              (worldOf "CONDITION" sampleConditionHandler) loopWorkflow branchConfig 21
              questionState)
    as (st' & Hrun & Hcalls & _).
  - reflexivity.
  - reflexivity.
  - exists st'. split; [exact Hrun | exact Hcalls].
Defined.


Lemma executor_finds_registered_handler_witness :
  WorkflowExecutor.getHandler (StepRegistry.handlersOf sampleRegistry) "LLM"
  = StepRegistry.getHandler sampleRegistry "LLM".
Proof.
  apply (executor_finds_registered_handler sampleRegistry "LLM").
  apply (bool_decide_unpack _). vm_compute. exact I.
Defined.

Lemma cache_evicts_least_hit_entry_witness :
  exists before entry after,
    Cache.store sampleCache = before ++ entry :: after
    /\ Cache.store (Cache.set sampleCache "c" "third" None 1200)
       = (if nonEmpty entry.1 then before ++ after else Cache.store sampleCache)
         ++ [("c", {| Cache.value := "third"; Cache.expiresAt := 1200 + 1000;
                      Cache.createdAt := 1200; Cache.hits := 0 |})].
Proof.
  destruct (cache_evicts_least_hit_entry sampleCache "c" "third" None 1200)
    as (before & entry & after & Hstore & _ & _ & Hset).
  - apply (bool_decide_unpack _). vm_compute. exact I.
  - discriminate.
  - cbn. lia.
  - reflexivity.
  - exists before, entry, after. split; [exact Hstore | exact Hset].
Defined.

Lemma cache_stays_within_capacity_witness :
  (Z.of_nat (Cache.size (Cache.set sampleCache "c" "third" None 1200)) <= 2)%Z
  /\ NoDup (Cache.keys (Cache.set sampleCache "c" "third" None 1200)).
Proof.
  destruct (cache_stays_within_capacity sampleCache "c" "third" None 1200)
    as (Hsize & _ & Hnd & _).
  - apply (bool_decide_unpack _). vm_compute. exact I.
  - intros k Hk. apply list_elem_of_In in Hk. cbn in Hk.
    destruct Hk as [<-|[<-|[]]]; discriminate.
  - cbn. lia.
  - cbn. lia.
  - split; [exact Hsize | exact Hnd].
Defined.

Lemma cleanup_removes_expired_entries_witness :
  Cache.store (Cache.cleanup sampleCache 1800).2
  = List.filter (fun e => negb (Cache.expired 1800 e.2)) (Cache.store sampleCache)
  /\ (Cache.cleanup sampleCache 1800).1 = 1.
Proof.
  destruct (cleanup_removes_expired_entries sampleCache 1800) as (Hstore & Hcount & _).
  - apply (bool_decide_unpack _). vm_compute. exact I.
  - split; [exact Hstore|]. rewrite Hcount. reflexivity.
Defined.

End MoreInstances.
